(** * TOBM: the per-agent decision-and-kinematics engine

    A shallow embedding of [tobm/sim_models/generic/dynamical_object.py],
    [driver.py] and [pedestrian.py], of the parametrisations of the driver
    in [generic/bicyclist.py], [tcrossing/driver.py],
    [tcrossing/bicyclist.py] and [xcrossing/driver.py], and of the loop over
    the seeds of [generate.py] with the saving rule of
    [scenarios/scenario.py].

    Numbers.  The Python code computes with floats (and the odd int).  They
    are idealised here as real numbers: [math.cos], [math.sin] and
    [math.radians] become [cos], [sin] and a scaling by [PI / 180].  The
    arithmetic is exact, with one exception: the addition by which the
    float [%] moves a negative remainder to the sign of the modulus is
    rounded to the nearest binary64 number, as this rounding decides whether
    a yaw stays below 360.  A field that may hold [None] is an [option R].

    Exceptions.  An operation that raises in Python (comparing [None] with a
    number, indexing an empty list, the explicit [raise Exception] of the
    undefined modes) returns [Raise e].  The arguments of the log
    statements are not modelled.

    State.  A method that mutates [self] or the next-tick individual
    returns the updated individuals; the state of the seeded random source
    is passed along with them.

    World.  Geometry, the lane graph, the conflict feed and the other
    queries on the previous-tick snapshot are answered outside the
    simulation models; they are parameters of the model ([World] records
    and section variables). *)

From Stdlib Require Import Reals Lra Lia List Bool String Permutation Sorted
  OrdersEx.
Import ListNotations.
Local Open Scope R_scope.

(** ** Python primitives *)

Inductive exn : Type :=
| TypeError
| IndexError
| AttributeError
| UndefinedDrivingMode
| UndefinedSpeedMode
| UndefinedWalkingMode.

Inductive res (A : Type) : Type :=
| Ok (a : A)
| Raise (e : exn).
Arguments Ok {A} a.
Arguments Raise {A} e.

Definition bind {A B : Type} (m : res A) (k : A -> res B) : res B :=
  match m with
  | Ok a => k a
  | Raise e => Raise e
  end.

Notation "x <- m ;; k" := (bind m (fun x => k))
  (at level 61, m at next level, right associativity).

(** [max(a, b)] returns its first argument unless the second is larger;
    [min(a, b)] returns its first argument unless the second is smaller. *)
Definition py_max (a b : R) : R := if Rlt_dec a b then b else a.
Definition py_min (a b : R) : R := if Rlt_dec b a then b else a.

(** [math.radians]. *)
Definition radians (deg : R) : R := deg * PI / 180.

(** Truth value of a number-or-None: [None], [0] and [0.0] are false. *)
Definition truthy (x : option R) : bool :=
  match x with
  | None => false
  | Some v => if Req_dec_T v 0 then false else true
  end.

(** [a < b], [a > b] on fields that may be [None]: comparing [None] with a
    number raises [TypeError]. *)
Definition lt_opt (a : option R) (b : R) : res bool :=
  match a with
  | None => Raise TypeError
  | Some v => Ok (if Rlt_dec v b then true else false)
  end.

Definition gt_opt (a : option R) (b : R) : res bool :=
  match a with
  | None => Raise TypeError
  | Some v => Ok (if Rlt_dec b v then true else false)
  end.

(** [a < b] and [a <= b] as truth values. *)
Definition Rltb (a b : R) : bool := if Rlt_dec a b then true else false.
Definition Rleb (a b : R) : bool := if Rle_dec a b then true else false.

(** ** Rounding to binary64 *)

(** [floor (log2 |x|)], for [x <> 0]. *)
Definition binade (x : R) : Z := Int_part (ln (Rabs x) / ln 2).

(** The spacing of the binary64 numbers around [x]: 53 bits of precision,
    and the spacing of the subnormal numbers below [2 ^ -1022]. *)
Definition ulp (x : R) : R := powerRZ 2 (Z.max (binade x) (-1022) - 52).

(** The integer nearest to [z], the even one of two equally near. *)
Definition round_half_even (z : R) : Z :=
  let f := Int_part z in
  if Rlt_dec (z - IZR f) (1 / 2) then f
  else if Rlt_dec (1 / 2) (z - IZR f) then (f + 1)%Z
  else if Z.even f then f else (f + 1)%Z.

(** The binary64 number nearest to [x] (round to nearest, ties to even);
    overflow is not modelled. *)
Definition binary64 (x : R) : R :=
  if Req_dec_T x 0 then 0 else IZR (round_half_even (x / ulp x)) * ulp x.

(** ** The float remainder *)

(** Rounding towards zero. *)
Definition truncate (q : R) : Z :=
  if Rle_dec 0 q then Int_part q else (- Int_part (- q))%Z.

(** [math.fmod] (C's [fmod]): the remainder of the division truncated
    towards zero.  It has the sign of [x] and is exact. *)
Definition fmod (x m : R) : R := x - m * IZR (truncate (x / m)).

(** [x % m] on floats, as [float_rem] of CPython computes it, for a modulus
    other than 0: a remainder [fmod x m] of 0 gives 0; one whose sign
    differs from the sign of [m] is moved by [m], and this float addition
    rounds.  So [-1e-14 % 360] is [360.0]. *)
Definition py_mod (x m : R) : R :=
  let r := fmod x m in
  if Req_dec_T r 0 then 0
  else if Bool.eqb (Rltb m 0) (Rltb r 0) then r
  else binary64 (r + m).

(** ** Geometry (shapely) *)

Definition Point : Type := (R * R)%type.

(** A geometry is a [Polygon] given by its exterior ring, or some other
    shape (point, line string); [isinstance(g, Polygon)] tells them apart. *)
Inductive Geometry : Type :=
| Polygon (ring : list Point)
| OtherGeometry (coords : list Point).

Definition coords (g : Geometry) : list Point :=
  match g with
  | Polygon ring => ring
  | OtherGeometry cs => cs
  end.

Definition map_coords (f : Point -> Point) (g : Geometry) : Geometry :=
  match g with
  | Polygon ring => Polygon (map f ring)
  | OtherGeometry cs => OtherGeometry (map f cs)
  end.

(** [shapely.affinity.rotate(g, angle, origin)]: counter-clockwise, the
    angle in degrees. *)
Definition rotate_point (angle : R) (origin p : Point) : Point :=
  let c := cos (radians angle) in
  let s := sin (radians angle) in
  let dx := fst p - fst origin in
  let dy := snd p - snd origin in
  (fst origin + (c * dx - s * dy), snd origin + (s * dx + c * dy)).

Definition rotate (g : Geometry) (angle : R) (origin : Point) : Geometry :=
  map_coords (rotate_point angle origin) g.

(** [shapely.affinity.translate(g, xoff, yoff)]. *)
Definition translate_point (xoff yoff : R) (p : Point) : Point :=
  (fst p + xoff, snd p + yoff).

Definition translate (g : Geometry) (xoff yoff : R) : Geometry :=
  map_coords (translate_point xoff yoff) g.

(** ** Ontology classes and capability declarations *)

Inductive Capability : Type :=
| has_maximum_speed
| has_maximum_acceleration
| has_maximum_deceleration
| has_maximum_yaw_rate.

(** A class of the ontology.  [cls_attr c a] is [None] when
    [hasattr(c, a)] is false, else the values declared on the class. *)
Record OntClass : Type := {
  cls_name : string;
  cls_attr : Capability -> option (list R)
}.

(** A driven vehicle, as far as a driver reads and writes it. *)
Record Vehicle : Type := {
  veh_has_yaw_rate : option R;
  veh_has_acceleration : option R;
  veh_has_length : option R;
  veh_geometry : Geometry;
  veh_INDIRECT_is_a : list OntClass
}.

(** ** Dynamical_Object *)

Record Agent : Type := {
  has_speed : option R;
  has_acceleration : option R;
  has_yaw_rate : option R;
  has_yaw : option R;
  has_length : option R;
  hasGeometry : option Geometry;
  drives : list Vehicle;
  is_a : list OntClass;
  INDIRECT_is_a : list OntClass;
  (** the individual's own values of a capability; [None] when
      [hasattr(self, attr)] is false *)
  own_attr : Capability -> option (list R)
}.

Definition set_has_speed (a : Agent) (v : option R) : Agent :=
  {| has_speed := v; has_acceleration := has_acceleration a;
     has_yaw_rate := has_yaw_rate a; has_yaw := has_yaw a;
     has_length := has_length a; hasGeometry := hasGeometry a;
     drives := drives a; is_a := is_a a; INDIRECT_is_a := INDIRECT_is_a a;
     own_attr := own_attr a |}.

Definition set_has_acceleration (a : Agent) (v : option R) : Agent :=
  {| has_speed := has_speed a; has_acceleration := v;
     has_yaw_rate := has_yaw_rate a; has_yaw := has_yaw a;
     has_length := has_length a; hasGeometry := hasGeometry a;
     drives := drives a; is_a := is_a a; INDIRECT_is_a := INDIRECT_is_a a;
     own_attr := own_attr a |}.

Definition set_has_yaw_rate (a : Agent) (v : option R) : Agent :=
  {| has_speed := has_speed a; has_acceleration := has_acceleration a;
     has_yaw_rate := v; has_yaw := has_yaw a;
     has_length := has_length a; hasGeometry := hasGeometry a;
     drives := drives a; is_a := is_a a; INDIRECT_is_a := INDIRECT_is_a a;
     own_attr := own_attr a |}.

Definition set_has_yaw (a : Agent) (v : option R) : Agent :=
  {| has_speed := has_speed a; has_acceleration := has_acceleration a;
     has_yaw_rate := has_yaw_rate a; has_yaw := v;
     has_length := has_length a; hasGeometry := hasGeometry a;
     drives := drives a; is_a := is_a a; INDIRECT_is_a := INDIRECT_is_a a;
     own_attr := own_attr a |}.

Definition set_hasGeometry (a : Agent) (g : option Geometry) : Agent :=
  {| has_speed := has_speed a; has_acceleration := has_acceleration a;
     has_yaw_rate := has_yaw_rate a; has_yaw := has_yaw a;
     has_length := has_length a; hasGeometry := g;
     drives := drives a; is_a := is_a a; INDIRECT_is_a := INDIRECT_is_a a;
     own_attr := own_attr a |}.

Definition set_drives (a : Agent) (vs : list Vehicle) : Agent :=
  {| has_speed := has_speed a; has_acceleration := has_acceleration a;
     has_yaw_rate := has_yaw_rate a; has_yaw := has_yaw a;
     has_length := has_length a; hasGeometry := hasGeometry a;
     drives := vs; is_a := is_a a; INDIRECT_is_a := INDIRECT_is_a a;
     own_attr := own_attr a |}.

(** The values of a capability declared on the classes of a list:
    [[x for y in classes if hasattr(y, attr) for x in getattr(y, attr)]]. *)
Definition class_values (attr : Capability) (cs : list OntClass) : list R :=
  flat_map (fun y => match cls_attr y attr with
                     | Some vs => vs
                     | None => []
                     end) cs.

(** [Dynamical_Object.get_optimized_attr].  The first list holds the
    individual's own values, [getattr(self, attr)], once per direct class;
    the second the values declared on the classes of its ancestry; the
    third those of the ancestry of the driven vehicles.  [opt_func] is
    [max] or [min], folded over the list. *)
Definition get_optimized_attr (self : Agent) (attr : Capability)
    (opt_func : R -> R -> R) : R :=
  match own_attr self attr with
  | None => 0
  | Some own =>
      let attrs := flat_map (fun _ => own) (is_a self) in
      let attrs := match attrs with
                   | [] => class_values attr (INDIRECT_is_a self)
                   | _ => attrs
                   end in
      let attrs := match attrs with
                   | [] => flat_map (fun veh =>
                             class_values attr (veh_INDIRECT_is_a veh))
                             (drives self)
                   | _ => attrs
                   end in
      match attrs with
      | [] => 0
      | x :: rest => fold_left opt_func rest x
      end
  end.

Definition get_maximum_speed (self : Agent) : R :=
  get_optimized_attr self has_maximum_speed py_max.

Definition get_maximum_acceleration (self : Agent) : R :=
  get_optimized_attr self has_maximum_acceleration py_max.

Definition get_maximum_deceleration (self : Agent) : R :=
  get_optimized_attr self has_maximum_deceleration py_min.

Definition get_maximum_yaw_rate (self : Agent) : R :=
  get_optimized_attr self has_maximum_yaw_rate py_max.

(** [Dynamical_Object.has_reached_maximum_speed].  The capability is never
    [None], so only the comparison remains. *)
Definition has_reached_maximum_speed (self : Agent) : res bool :=
  gt_opt (has_speed self) (get_maximum_speed self).

(** [if not distance: distance = 0.001] *)
Definition effective_distance (distance : R) : R :=
  if Req_dec_T distance 0 then 1 / 1000 else distance.

(** [Dynamical_Object._get_new_acceleration].  [target_speed] is what
    [self.get_target_speed()] returned; [distance] is the optional argument
    and [los_distance] the value the line-of-sight computation gives when
    that argument is [None]. *)
Definition _get_new_acceleration (self : Agent) (target_speed : option R)
    (distance : option R) (los_distance : R) : res R :=
  let distance := match distance with
                  | None => los_distance
                  | Some d => d
                  end in
  let distance := effective_distance distance in
  match has_speed self with
  | None => Raise TypeError
  | Some v =>
      let ac :=
        match target_speed with
        | None => - (v ^ 2 / distance)
        | Some ts =>
            let ac := (ts - v) ^ 2 / distance in
            let ac := if Rlt_dec (ts - v) 0
                      then py_max (- ac) (get_maximum_deceleration self)
                      else ac in
            if Rlt_dec 0 ac
            then py_min ac (get_maximum_acceleration self)
            else ac
        end in
      if Rlt_dec 0 ac
      then reached <- has_reached_maximum_speed self ;;
           Ok (if reached : bool then 0 else ac)
      else Ok ac
  end.

(** [Dynamical_Object._get_yaw_rate_smoothing_factor], the default curve.
    The exact logistic value stays below 1; the float one is 1.0 from
    about 400 degrees per second on, where [1 + math.exp(...)] rounds to
    1.  The curves are therefore bounded by 1 inclusively wherever a bound
    is stated. *)
Definition default_yaw_rate_smoothing_factor (degrees_per_second : R) : R :=
  py_max (1 / 10) (1 / (1 + exp (- (1 / 10) * (degrees_per_second - 30)))).

Section Dynamical_Object.

(** The class constant [_RELEVANT_LOWEST_SPEED] is declared outside the
    simulation models; it is a parameter here. *)
Variable _RELEVANT_LOWEST_SPEED : R.

(** Class attributes that the subclasses override. *)
Variable _MAX_DISTANCE_FOR_TURNING : R.
Variable _get_yaw_rate_smoothing_factor : R -> R.

(** Geometric queries answered by the world model. *)
Variable centroid : Geometry -> Point.
Variable distance_to : Geometry -> Point -> R.
Variable compute_angle_between_yaw_and_point : Agent -> Point -> R.
Variable is_point_right_of : Agent -> Point -> bool.
(** distance along the line of sight from the centroid to the target,
    measured from where it leaves the (driven) footprint *)
Variable line_of_sight_distance : Agent -> Point -> R.

(** [get_geometry()], for an individual that may have none. *)
Definition get_geometry (self : Agent) : res Geometry :=
  match hasGeometry self with
  | Some g => Ok g
  | None => Raise AttributeError
  end.

(** [Dynamical_Object._get_yaw_rate_to_reach_point].  A speed of [None]
    passes the test [self.has_speed != 0] and raises at the division. *)
Definition _get_yaw_rate_to_reach_point (self : Agent) (target : Point)
    (max_yaw_rate : R) (distance : option R)
    (ignore_max_distance_for_turning : bool) : res R :=
  let alpha := compute_angle_between_yaw_and_point self target in
  let alpha := if Rlt_dec 180 alpha then 360 - alpha else alpha in
  let standing := match has_speed self with
                  | Some v => if Req_dec_T v 0 then true else false
                  | None => false
                  end in
  if negb standing && (Rltb (1 / 2) alpha && Rltb alpha (359 / 2))
  then
    let sgn := if is_point_right_of self target then -1 else 1 in
    distance <-
      match distance with
      | Some d => Ok d
      | None =>
          match drives self with
          | veh :: _ => Ok (distance_to (veh_geometry veh) target)
          | [] => g <- get_geometry self ;; Ok (distance_to g target)
          end
      end ;;
    let distance := effective_distance distance in
    if ignore_max_distance_for_turning
       || Rleb distance _MAX_DISTANCE_FOR_TURNING
    then
      match has_speed self with
      | None => Raise TypeError
      | Some v =>
          let t_p := distance / v in
          let yr := sgn * max_yaw_rate
                    * _get_yaw_rate_smoothing_factor (alpha / t_p) in
          Ok (if Rlt_dec v (85 / 100) then yr * (v / (85 / 100)) else yr)
      end
    else Ok 0
  else Ok 0.

(** [Dynamical_Object._get_new_yaw_rate] *)
Definition _get_new_yaw_rate (self : Agent) (target : Point)
    (distance : option R) : res R :=
  moving <- match has_speed self with
            | None => Ok false
            | Some v => Ok (if Rlt_dec _RELEVANT_LOWEST_SPEED v then true else false)
            end ;;
  if moving : bool
  then _get_yaw_rate_to_reach_point self target (get_maximum_yaw_rate self)
         distance false
  else Ok 0.

(** [Dynamical_Object.update_speed], called on the next-tick agent. *)
Definition update_speed (self prev_self : Agent) (delta_t : R) : res Agent :=
  let self1 :=
    match has_speed prev_self, has_acceleration self with
    | Some v, Some a => set_has_speed self (Some (py_max 0 (v + a * delta_t)))
    | _, _ => self
    end in
  below <- lt_opt (has_speed self1) _RELEVANT_LOWEST_SPEED ;;
  if below : bool
  then Ok (set_has_yaw_rate (set_has_acceleration self1 (Some 0)) (Some 0))
  else Ok self1.

(** [Dynamical_Object.update_yaw], called after [update_speed]. *)
Definition update_yaw (self prev_self : Agent) (delta_t : R) : res Agent :=
  match has_yaw prev_self with
  | None => Ok self
  | Some yaw =>
      match has_yaw_rate self with
      | None => Ok (set_has_yaw self (Some yaw))
      | Some yr =>
          moving <- gt_opt (has_speed self) _RELEVANT_LOWEST_SPEED ;;
          if moving : bool
          then Ok (set_has_yaw self (Some (py_mod (yaw + yr * delta_t) 360)))
          else Ok (set_has_yaw self (Some yaw))
      end
  end.

(** The length [update_position] works with: the agent's own, else that
    of the first driven vehicle, else 0. *)
Definition footprint_length (self : Agent) : R :=
  let length := has_length self in
  let length := if truthy length then length
                else match drives self with
                     | veh :: _ => veh_has_length veh
                     | [] => length
                     end in
  match length with
  | Some l => l
  | None => 0
  end.

(** The pivot of the rotation in [update_position]: for a polygon, the
    centroid of the (driven) footprint moved by [0.4 * length] in the
    direction [inv_yaw]; else the centroid. *)
Definition rotation_center (self : Agent) (yaw : R) (d_geo : Geometry) : Point :=
  match d_geo with
  | Polygon _ =>
      let length := footprint_length self * (4 / 10) in
      let inv_yaw := py_mod (radians (yaw + 180)) 360 in
      (fst (centroid d_geo) + length * cos inv_yaw,
       snd (centroid d_geo) + length * sin inv_yaw)
  | OtherGeometry _ => centroid d_geo
  end.

(** [Dynamical_Object.update_position], called after [update_yaw]. *)
Definition update_position (self prev_self : Agent) (delta_t : R) : res Agent :=
  match has_yaw self, has_speed self, hasGeometry self with
  | Some yaw, Some v, Some s_geo =>
      if Rlt_dec _RELEVANT_LOWEST_SPEED v then
        let xoff := cos (radians yaw) * v * delta_t in
        let yoff := sin (radians yaw) * v * delta_t in
        let d_geo := match drives self with
                     | veh :: _ => veh_geometry veh
                     | [] => s_geo
                     end in
        let center := rotation_center self yaw d_geo in
        match has_yaw prev_self with
        | None => Raise TypeError
        | Some prev_yaw =>
            let new_geo := rotate s_geo (yaw - prev_yaw) center in
            let new_geo := translate new_geo xoff yoff in
            Ok (set_hasGeometry self (Some new_geo))
        end
      else Ok self
  | _, _, _ => Ok self
  end.

(** The loop of [simulate] that hands the control input to the driven
    vehicles. *)
Definition propagate_control (new_self : Agent) : Agent :=
  set_drives new_self
    (map (fun v =>
       {| veh_has_yaw_rate := has_yaw_rate new_self;
          veh_has_acceleration := has_acceleration new_self;
          veh_has_length := veh_has_length v;
          veh_geometry := veh_geometry v;
          veh_INDIRECT_is_a := veh_INDIRECT_is_a v |}) (drives new_self)).

(** [Dynamical_Object.simulate] from the point where [get_target] has
    returned [(t_x, t_y, distance)].  [get_target_speed] is the call the
    acceleration law makes; a subclass supplies its own. *)
Definition simulate_from_target (self new_self : Agent) (target : Point)
    (distance : R) (get_target_speed : res (option R)) (delta_t : R)
    : res Agent :=
  moving <- gt_opt (has_speed self) _RELEVANT_LOWEST_SPEED ;;
  new_self <- (if moving : bool
               then yaw_rate <- _get_new_yaw_rate self target None ;;
                    Ok (set_has_yaw_rate new_self (Some yaw_rate))
               else Ok new_self) ;;
  target_speed <- get_target_speed ;;
  acceleration <- _get_new_acceleration self target_speed (Some distance)
                    (line_of_sight_distance self target) ;;
  let new_self := set_has_acceleration new_self (Some acceleration) in
  let new_self := propagate_control new_self in
  new_self <- update_speed new_self self delta_t ;;
  new_self <- update_yaw new_self self delta_t ;;
  update_position new_self self delta_t.

(** The default [get_target]: 10 m ahead along the yaw. *)
Definition default_get_target (self : Agent) : res (Point * R) :=
  g <- get_geometry self ;;
  let c := centroid g in
  match has_yaw self with
  | Some yaw => Ok ((10 * cos (radians yaw) + fst c,
                     10 * sin (radians yaw) + snd c), 10)
  | None => Ok (c, 1 / 1000)
  end.

(** The default [get_target_speed]: the maximum speed. *)
Definition default_get_target_speed (self : Agent) : option R :=
  Some (get_maximum_speed self).

(** [Dynamical_Object.simulate] with the default simulation model. *)
Definition simulate (self new_self : Agent) (delta_t : R) : res Agent :=
  t <- default_get_target self ;;
  simulate_from_target self new_self (fst t) (snd t)
    (Ok (default_get_target_speed self)) delta_t.

End Dynamical_Object.

(** ** [sorted(xs, key=...)]

    Python's sort is stable and compares the keys with [<]. *)

Section Stable_Sort.

Variable A : Type.
Variable ltb : A -> A -> bool.

Fixpoint insert_sorted (x : A) (l : list A) : list A :=
  match l with
  | [] => [x]
  | y :: l' => if ltb y x then y :: insert_sorted x l' else x :: l
  end.

Definition sorted_with (l : list A) : list A :=
  fold_right insert_sorted [] l.

End Stable_Sort.

Arguments insert_sorted {A} ltb x l.
Arguments sorted_with {A} ltb l.

(** Strings are ordered lexicographically by character code. *)
Definition str_ltb {A : Type} (key : A -> string) (a b : A) : bool :=
  match String_as_OT.compare (key a) (key b) with
  | Lt => true
  | _ => false
  end.

(** [sorted(xs, key=str)] *)
Definition sorted_by_key {A : Type} (key : A -> string) (l : list A) : list A :=
  sorted_with (str_ltb key) l.

(** ** Lanes, conflict candidates, lead vehicles *)

(** A lane individual; [lane_str] is [str(lane)]. *)
Record Lane : Type := {
  lane_storid : nat;
  lane_str : string
}.

(** One tuple [(obj, t_self, t_other, p_int)] of
    [get_intersecting_objects]. *)
Record Candidate : Type := {
  cand_obj : nat;
  cand_t_self : option R;
  cand_t_other : option R;
  cand_p_int : Point
}.

Record LeadVehicle : Type := {
  lead_obj : nat;
  lead_has_speed : option R;
  (** [self.get_distance(lead_veh)] *)
  lead_distance : R
}.

Inductive TurnSignal : Type :=
| No_Turn_Signal
| Left_Turn_Signal
| Right_Turn_Signal.

(** ** Driver *)

Module Driver.

Module DrivingMode.
Inductive t : Type :=
| LaneFollowing
| Turning
| DeadEnd
| Roaming
| Undefined.
End DrivingMode.

Module SpeedMode.
Inductive t : Type :=
| Unrestricted
| Turning
| Following
| Yielding
| Stopping
| Undefined.
End SpeedMode.

(** The class constants; [Bicyclist] overrides one of them. *)
Record Constants : Type := {
  _MAX_DISTANCE_FOR_YIELDING_MODE : R;
  _MAX_PET_FOR_BRAKING_WHEN_INTERSECTING : R;
  _MAX_THW_FOR_BRAKING_WHEN_FOLLOWING : R;
  _PROBABILITY_NO_SIGNAL_DURING_TURN : R
}.

Definition Driver_constants : Constants :=
  {| _MAX_DISTANCE_FOR_YIELDING_MODE := 15;
     _MAX_PET_FOR_BRAKING_WHEN_INTERSECTING := 6;
     _MAX_THW_FOR_BRAKING_WHEN_FOLLOWING := 2;
     _PROBABILITY_NO_SIGNAL_DURING_TURN := 97 / 100 |}.

Definition Bicyclist_constants : Constants :=
  {| _MAX_DISTANCE_FOR_YIELDING_MODE := 15;
     _MAX_PET_FOR_BRAKING_WHEN_INTERSECTING := 3;
     _MAX_THW_FOR_BRAKING_WHEN_FOLLOWING := 2;
     _PROBABILITY_NO_SIGNAL_DURING_TURN := 97 / 100 |}.

(** The retained conflict: [intersecting_object], [tti_object],
    [tti_self] and [p_int]. *)
Record Retained : Type := {
  intersecting_object : option nat;
  tti_object : option R;
  tti_self : option R;
  p_int : option Point
}.

Definition no_conflict : Retained :=
  {| intersecting_object := None; tti_object := None;
     tti_self := None; p_int := None |}.

(** The driving profile set in [__init__]. *)
Record Profile : Type := {
  default_target_speed : R;
  crossing_speed : R;
  turning_speed : R
}.

Definition Driver_profile : Profile :=
  {| default_target_speed := 10; crossing_speed := 15 / 10;
     turning_speed := 125 / 100 |}.

(** A driver individual.  [next_lane_memo] is the [@cache] of
    [_get_next_lane]; [signals] collects what [set_turn_signal] asserts on
    the driven vehicle. *)
Record State : Type := {
  agent : Agent;
  driving_mode : DrivingMode.t;
  speed_mode : SpeedMode.t;
  next_lane : option Lane;
  lead_vehicle : option LeadVehicle;
  retained : Retained;
  profile : Profile;
  next_lane_memo : option (option Lane);
  signals : list TurnSignal
}.

Definition set_agent (s : State) (a : Agent) : State :=
  {| agent := a; driving_mode := driving_mode s; speed_mode := speed_mode s;
     next_lane := next_lane s; lead_vehicle := lead_vehicle s;
     retained := retained s; profile := profile s;
     next_lane_memo := next_lane_memo s; signals := signals s |}.

Definition set_driving_mode (s : State) (m : DrivingMode.t) : State :=
  {| agent := agent s; driving_mode := m; speed_mode := speed_mode s;
     next_lane := next_lane s; lead_vehicle := lead_vehicle s;
     retained := retained s; profile := profile s;
     next_lane_memo := next_lane_memo s; signals := signals s |}.

Definition set_speed_mode (s : State) (m : SpeedMode.t) : State :=
  {| agent := agent s; driving_mode := driving_mode s; speed_mode := m;
     next_lane := next_lane s; lead_vehicle := lead_vehicle s;
     retained := retained s; profile := profile s;
     next_lane_memo := next_lane_memo s; signals := signals s |}.

Definition set_next_lane (s : State) (l : option Lane) : State :=
  {| agent := agent s; driving_mode := driving_mode s;
     speed_mode := speed_mode s;
     next_lane := l; lead_vehicle := lead_vehicle s;
     retained := retained s; profile := profile s;
     next_lane_memo := next_lane_memo s; signals := signals s |}.

Definition set_lead_vehicle (s : State) (l : option LeadVehicle) : State :=
  {| agent := agent s; driving_mode := driving_mode s;
     speed_mode := speed_mode s;
     next_lane := next_lane s; lead_vehicle := l;
     retained := retained s; profile := profile s;
     next_lane_memo := next_lane_memo s; signals := signals s |}.

Definition set_retained (s : State) (r : Retained) : State :=
  {| agent := agent s; driving_mode := driving_mode s;
     speed_mode := speed_mode s;
     next_lane := next_lane s; lead_vehicle := lead_vehicle s;
     retained := r; profile := profile s;
     next_lane_memo := next_lane_memo s; signals := signals s |}.

Definition set_next_lane_memo (s : State) (m : option (option Lane)) : State :=
  {| agent := agent s; driving_mode := driving_mode s;
     speed_mode := speed_mode s;
     next_lane := next_lane s; lead_vehicle := lead_vehicle s;
     retained := retained s; profile := profile s;
     next_lane_memo := m; signals := signals s |}.

Definition add_signal (s : State) (sig : TurnSignal) : State :=
  {| agent := agent s; driving_mode := driving_mode s;
     speed_mode := speed_mode s;
     next_lane := next_lane s; lead_vehicle := lead_vehicle s;
     retained := retained s; profile := profile s;
     next_lane_memo := next_lane_memo s; signals := signals s ++ [sig] |}.

(** What the world model answers about the previous-tick snapshot of one
    driver: the external collaborators of the simulation model.  [RNG] is
    the state of the seeded random source. *)
Record World (RNG : Type) : Type := {
  get_current_lane : option Lane;
  has_successor_lane : Lane -> list Lane;
  (** share of the driven footprint that lies on a lane *)
  overlap_fraction : Lane -> R;
  _approaches_end_of_lane : Lane -> bool;
  (** [get_intersecting_objects(horizon, delta_t=0.25)] *)
  get_intersecting_objects : list Candidate;
  (** [extras.utils.in_front_of(p, self.get_centroid(), self.has_yaw)] *)
  in_front_of : Point -> bool;
  (** the object the search of [get_lead_vehicle] ends with, if any *)
  found_lead_vehicle : option LeadVehicle;
  _intersects_some_road_infrastructure : bool;
  close_to_crossing : bool;
  is_lane_left_of : Lane -> Lane -> bool;
  is_lane_right_of : Lane -> Lane -> bool;
  _get_target_no_road : Point;
  _get_target_follow_lane : Lane -> Point;
  _get_target_on_lane : Lane -> Point;
  _get_target_end_of_lane : Lane -> Point;
  _get_target_roaming : Point;
  _get_target_yielding : option Point -> Point -> Point;
  _get_target_follow_vehicle : LeadVehicle -> Point;
  (** [random.choice(seq)] picks [seq[i]] with the index drawn here *)
  randbelow : RNG -> nat -> nat * RNG;
  (** [random.random()] *)
  random : RNG -> R * RNG
}.

Arguments get_current_lane {RNG} w.
Arguments has_successor_lane {RNG} w l.
Arguments overlap_fraction {RNG} w l.
Arguments _approaches_end_of_lane {RNG} w l.
Arguments get_intersecting_objects {RNG} w.
Arguments in_front_of {RNG} w p.
Arguments found_lead_vehicle {RNG} w.
Arguments _intersects_some_road_infrastructure {RNG} w.
Arguments close_to_crossing {RNG} w.
Arguments is_lane_left_of {RNG} w l1 l2.
Arguments is_lane_right_of {RNG} w l1 l2.
Arguments _get_target_no_road {RNG} w.
Arguments _get_target_follow_lane {RNG} w l.
Arguments _get_target_on_lane {RNG} w l.
Arguments _get_target_end_of_lane {RNG} w l.
Arguments _get_target_roaming {RNG} w.
Arguments _get_target_yielding {RNG} w p t.
Arguments _get_target_follow_vehicle {RNG} w l.
Arguments randbelow {RNG} w g n.
Arguments random {RNG} w g.

(** The same world with the successor lanes handed over as [succ] does. *)
Definition with_successors {RNG : Type} (w : World RNG)
    (succ : Lane -> list Lane) : World RNG :=
  {| get_current_lane := get_current_lane w;
     has_successor_lane := succ;
     overlap_fraction := overlap_fraction w;
     _approaches_end_of_lane := _approaches_end_of_lane w;
     get_intersecting_objects := get_intersecting_objects w;
     in_front_of := in_front_of w;
     found_lead_vehicle := found_lead_vehicle w;
     _intersects_some_road_infrastructure :=
       _intersects_some_road_infrastructure w;
     close_to_crossing := close_to_crossing w;
     is_lane_left_of := is_lane_left_of w;
     is_lane_right_of := is_lane_right_of w;
     _get_target_no_road := _get_target_no_road w;
     _get_target_follow_lane := _get_target_follow_lane w;
     _get_target_on_lane := _get_target_on_lane w;
     _get_target_end_of_lane := _get_target_end_of_lane w;
     _get_target_roaming := _get_target_roaming w;
     _get_target_yielding := _get_target_yielding w;
     _get_target_follow_vehicle := _get_target_follow_vehicle w;
     randbelow := randbelow w;
     random := random w |}.

Section Driver_Model.

Variable RNG : Type.
Variable K : Constants.
Variable W : World RNG.

(** The test of the loop of [get_intersecting_object] on one candidate,
    against the conflict retained so far. *)
Definition accepts (r : Retained) (c : Candidate) : res bool :=
  match cand_t_self c, cand_t_other c with
  | Some t_self, Some t_other =>
      if Rleb (t_self + t_other) (_MAX_DISTANCE_FOR_YIELDING_MODE K)
         && (Rleb 0 (t_self - t_other)
             && Rleb (t_self - t_other) (_MAX_PET_FOR_BRAKING_WHEN_INTERSECTING K))
      then
        improves <-
          match tti_self r with
          | None => Ok true
          | Some s =>
              match tti_object r with
              | None => Raise TypeError
              | Some o => Ok (Rltb (t_self + t_other) (s + o))
              end
          end ;;
        Ok (improves && in_front_of W (cand_p_int c))
      else Ok false
  | _, _ => Ok false
  end.

Definition retain (c : Candidate) : Retained :=
  {| intersecting_object := Some (cand_obj c);
     tti_object := cand_t_other c;
     tti_self := cand_t_self c;
     p_int := Some (cand_p_int c) |}.

(** The loop over the conflict feed. *)
Fixpoint scan_candidates (r : Retained) (feed : list Candidate) : res Retained :=
  match feed with
  | [] => Ok r
  | c :: feed' =>
      take <- accepts r c ;;
      scan_candidates (if take : bool then retain c else r) feed'
  end.

(** [Driver.get_intersecting_object]: the tuple it returns is the
    retained conflict of the updated [self]. *)
Definition get_intersecting_object (self : State) : res State :=
  match intersecting_object (retained self), drives (agent self) with
  | None, _ :: _ =>
      r <- scan_candidates (retained self) (get_intersecting_objects W) ;;
      Ok (set_retained self r)
  | _, _ => Ok self
  end.

(** [Driver.get_lead_vehicle] *)
Definition get_lead_vehicle (self : State) : State :=
  match found_lead_vehicle W with
  | Some l => set_lead_vehicle self (Some l)
  | None => self
  end.

(** [Driver._get_next_lane], with its cache. *)
Definition _get_next_lane (self : State) (cur_lane : option Lane) (rng : RNG)
    : res (option Lane * State * RNG) :=
  match next_lane_memo self with
  | Some suc => Ok (suc, self, rng)
  | None =>
      r <- match next_lane self with
           | Some l => Ok (Some l, rng)
           | None =>
               match cur_lane with
               | None => Raise AttributeError
               | Some cur =>
                   match has_successor_lane W cur with
                   | [] => Ok (None, rng)
                   | lanes =>
                       let (i, rng') := randbelow W rng (List.length lanes) in
                       match nth_error (sorted_by_key lane_str lanes) i with
                       | Some suc => Ok (Some suc, rng')
                       | None => Raise IndexError
                       end
                   end
               end
           end ;;
      Ok (fst r, set_next_lane_memo self (Some (fst r)), snd r)
  end.

(** The first half of [Driver.update_state]: the driving mode. *)
Definition update_driving_mode (self new_self : State) (cur_lane : option Lane)
    (rng : RNG) : res (State * State * RNG) :=
  match driving_mode self with
  | DrivingMode.Turning =>
      match drives (agent self) with
      | [] => Raise IndexError
      | _ :: _ =>
          let finished :=
            match next_lane self with
            | Some l => Rltb (4 / 10) (overlap_fraction W l)
            | None => false
            end in
          if finished
          then Ok (self,
                   set_driving_mode (set_next_lane new_self None)
                     DrivingMode.LaneFollowing, rng)
          else Ok (self,
                   set_driving_mode (set_next_lane new_self (next_lane self))
                     DrivingMode.Turning, rng)
      end
  | mode =>
      match cur_lane with
      | None => Ok (self, set_driving_mode new_self DrivingMode.Roaming, rng)
      | Some cur =>
          match mode with
          | DrivingMode.LaneFollowing | DrivingMode.DeadEnd =>
              if _approaches_end_of_lane W cur
              then
                r <- _get_next_lane self cur_lane rng ;;
                let '(suc, self, rng) := r in
                match suc with
                | Some l =>
                    let self := set_next_lane self (Some l) in
                    Ok (self,
                        set_driving_mode (set_next_lane new_self (Some l))
                          DrivingMode.Turning, rng)
                | None =>
                    Ok (self, set_driving_mode new_self DrivingMode.DeadEnd, rng)
                end
              else Ok (self,
                       set_driving_mode new_self DrivingMode.LaneFollowing, rng)
          | _ => Ok (self,
                     set_driving_mode new_self DrivingMode.LaneFollowing, rng)
          end
      end
  end.

(** The second half of [Driver.update_state]: conflict retention and the
    speed mode. *)
Definition update_speed_mode (self new_self : State) : res (State * State) :=
  self <- get_intersecting_object self ;;
  let int_obj := intersecting_object (retained self) in
  let still_valid :=
    match int_obj with
    | Some o => existsb (fun c => Nat.eqb (cand_obj c) o)
                  (get_intersecting_objects W)
    | None => false
    end in
  let new_self := if still_valid
                  then set_retained new_self (retained self)
                  else set_retained new_self no_conflict in
  let yielding := match int_obj with Some _ => true | None => false end in
  let self := get_lead_vehicle self in
  let following := match lead_vehicle self with Some _ => true | None => false end in
  let stopping :=
    match driving_mode new_self with
    | DrivingMode.DeadEnd => true
    | _ => negb (_intersects_some_road_infrastructure W)
    end in
  Ok (self,
      set_speed_mode new_self
        (if following then SpeedMode.Following
         else if yielding then SpeedMode.Yielding
         else if stopping then SpeedMode.Stopping
         else SpeedMode.Unrestricted)).

(** [Driver.update_state] *)
Definition update_state (self new_self : State) (cur_lane : option Lane)
    (rng : RNG) : res (State * State * RNG) :=
  r <- update_driving_mode self new_self cur_lane rng ;;
  let '(self, new_self, rng) := r in
  r <- update_speed_mode self new_self ;;
  Ok (fst r, snd r, rng).

(** [Driver.set_turn_signal]: what is asserted on the driven vehicle. *)
Definition set_turn_signal (self : State) (cur_lane : option Lane) (rng : RNG)
    : res (State * RNG) :=
  r <- _get_next_lane self cur_lane rng ;;
  let '(suc, self, rng) := r in
  let (u, rng) := random W rng in
  if Rltb u (_PROBABILITY_NO_SIGNAL_DURING_TURN K)
  then match drives (agent self) with
       | [] => Raise IndexError
       | _ :: _ => Ok (add_signal self No_Turn_Signal, rng)
       end
  else
    match suc with
    | None => Raise AttributeError
    | Some l =>
        let left := match cur_lane with
                    | Some cur => is_lane_left_of W cur l
                    | None => false
                    end in
        let right := match cur_lane with
                     | Some cur => is_lane_right_of W cur l
                     | None => false
                     end in
        if left || right
        then match drives (agent self) with
             | [] => Raise IndexError
             | _ :: _ =>
                 Ok (add_signal self
                       (if left then Left_Turn_Signal else Right_Turn_Signal),
                     rng)
             end
        else Ok (self, rng)
    end.

(** The target point of [Driver.get_target] by driving mode, read from
    the next-tick individual after [update_state] has run. *)
Definition target_by_mode (self new_self : State) (cur_lane : option Lane)
    (rng : RNG) : res (Point * State * RNG) :=
  if negb (_intersects_some_road_infrastructure W)
  then Ok (_get_target_no_road W, self, rng)
  else
    match driving_mode new_self with
    | DrivingMode.LaneFollowing =>
        match cur_lane with
        | Some cur => Ok (_get_target_follow_lane W cur, self, rng)
        | None => Raise AttributeError
        end
    | DrivingMode.Turning =>
        r <- _get_next_lane self cur_lane rng ;;
        let '(suc, self, rng) := r in
        match suc with
        | None => Raise AttributeError
        | Some l =>
            r <- set_turn_signal self cur_lane rng ;;
            Ok (_get_target_on_lane W l, fst r, snd r)
        end
    | DrivingMode.DeadEnd =>
        match cur_lane with
        | Some cur => Ok (_get_target_end_of_lane W cur, self, rng)
        | None => Raise AttributeError
        end
    | DrivingMode.Roaming => Ok (_get_target_roaming W, self, rng)
    | DrivingMode.Undefined => Raise UndefinedDrivingMode
    end.

Variable distance_to : Geometry -> Point -> R.

(** The rest of [Driver.get_target]: the distance and its overrides by
    speed mode. *)
Definition target_distance (self new_self : State) (t : Point)
    : res (Point * R * State) :=
  self_geom <- match drives (agent self) with
               | veh :: _ => Ok (veh_geometry veh)
               | [] => match hasGeometry (agent self) with
                       | Some g => Ok g
                       | None => Raise AttributeError
                       end
               end ;;
  let distance := distance_to self_geom t in
  match speed_mode new_self with
  | SpeedMode.Yielding =>
      self <- get_intersecting_object self ;;
      let y := _get_target_yielding W (p_int (retained self)) t in
      Ok (t, py_min distance (distance_to self_geom y), self)
  | SpeedMode.Following =>
      let self := get_lead_vehicle self in
      match lead_vehicle self with
      | None => Raise AttributeError
      | Some lead =>
          let following_point := _get_target_follow_vehicle W lead in
          let following_distance := distance_to self_geom following_point in
          if Rltb following_distance distance
          then Ok (following_point, following_distance, self)
          else Ok (t, distance, self)
      end
  | _ => Ok (t, distance, self)
  end.

(** [Driver.get_target] *)
Definition get_target (self new_self : State) (rng : RNG)
    : res (Point * R * State * State * RNG) :=
  let cur_lane := get_current_lane W in
  r <- update_state self new_self cur_lane rng ;;
  let '(self, new_self, rng) := r in
  r <- target_by_mode self new_self cur_lane rng ;;
  let '(t, self, rng) := r in
  r <- target_distance self new_self t ;;
  let '(t, distance, self) := r in
  Ok (t, distance, self, new_self, rng).

(** [Driver.get_default_speed] *)
Definition get_default_speed (self : State) : R :=
  let s := match driving_mode self with
           | DrivingMode.Turning => turning_speed (profile self)
           | _ => get_maximum_speed (agent self)
           end in
  py_min s (default_target_speed (profile self)).

(** [Driver.get_target_speed] *)
Definition get_target_speed (self new_self : State) : res (option R) :=
  s <- match speed_mode new_self with
       | SpeedMode.Unrestricted => Ok (Some (get_default_speed self))
       | SpeedMode.Following =>
           match lead_vehicle (get_lead_vehicle self) with
           | Some lead =>
               match lead_has_speed lead, has_speed (agent self) with
               | Some ls, Some v =>
                   if truthy (Some ls) && truthy (Some v)
                      && Rltb (lead_distance lead / v)
                           (_MAX_THW_FOR_BRAKING_WHEN_FOLLOWING K)
                   then Ok (Some (ls * (75 / 100)))
                   else Ok (Some ls)
               | ls, _ => Ok ls
               end
           | None => Ok (Some (get_default_speed self))
           end
       | SpeedMode.Yielding =>
           _ <- get_intersecting_object self ;; Ok (Some 0)
       | SpeedMode.Stopping => Ok (Some 0)
       | SpeedMode.Turning | SpeedMode.Undefined => Raise UndefinedSpeedMode
       end ;;
  if close_to_crossing W
  then match s with
       | Some s => Ok (Some (py_min (crossing_speed (profile self)) s))
       | None => Raise TypeError
       end
  else Ok s.

Variable _RELEVANT_LOWEST_SPEED : R.
Variable _MAX_DISTANCE_FOR_TURNING : R.
Variable _get_yaw_rate_smoothing_factor : R -> R.
Variable centroid : Geometry -> Point.
Variable compute_angle_between_yaw_and_point : Agent -> Point -> R.
Variable is_point_right_of : Agent -> Point -> bool.
Variable line_of_sight_distance : Agent -> Point -> R.

(** [Dynamical_Object.simulate] on a driver: [get_target] and
    [get_target_speed] are the driver's. *)
Definition simulate (self new_self : State) (delta_t : R) (rng : RNG)
    : res (State * State * RNG) :=
  r <- get_target self new_self rng ;;
  let '(t, distance, self, new_self, rng) := r in
  new_agent <- simulate_from_target _RELEVANT_LOWEST_SPEED
                 _MAX_DISTANCE_FOR_TURNING _get_yaw_rate_smoothing_factor
                 centroid distance_to compute_angle_between_yaw_and_point
                 is_point_right_of line_of_sight_distance
                 (agent self) (agent new_self) t distance
                 (get_target_speed self new_self) delta_t ;;
  Ok (self, set_agent new_self new_agent, rng).

End Driver_Model.

Arguments accepts {RNG}.
Arguments scan_candidates {RNG}.
Arguments get_intersecting_object {RNG}.
Arguments get_lead_vehicle {RNG}.
Arguments _get_next_lane {RNG}.
Arguments update_driving_mode {RNG}.
Arguments update_speed_mode {RNG}.
Arguments update_state {RNG}.
Arguments set_turn_signal {RNG}.
Arguments target_by_mode {RNG}.
Arguments target_distance {RNG}.
Arguments get_target {RNG}.
Arguments get_target_speed {RNG}.
Arguments simulate {RNG}.

End Driver.

(** ** Pedestrian *)

(** What a pedestrian reads from the other object of a conflict
    candidate: [str] of its direct and of its indirect classes, and its
    speed. *)
Record Other : Type := {
  other_is_a : list string;
  other_INDIRECT_is_a : list string;
  other_has_speed : option R
}.

(** One tuple of the conflict feed of a pedestrian; [pc_distance] is
    the sort key [self.get_geometry().distance(p_int)]. *)
Record PedCandidate : Type := {
  pc_obj : Other;
  pc_t_self : option R;
  pc_t_other : option R;
  pc_p_int : Point;
  pc_distance : R
}.

Module Pedestrian.

Module WalkingMode.
Inductive t : Type :=
| UnrestrictedWalking
| WalkwayWalking
| CrossingRoad
| Stopping.
End WalkingMode.

Module SpeedMode.
Inductive t : Type :=
| UnrestrictedWalking
| Stopping
| Yielding.
End SpeedMode.

Definition _MAX_DISTANCE_FOR_YIELDING_MODE : R := 10.
Definition _MAX_PET_FOR_YIELDING : R := 4.
Definition _CROSSING_ROAD_PROBABILITY : R := 7 / 1000.
Definition _MINIMUM_WALKWAY_AREA_FOR_WALKING : R := 8.
Definition _YIELD_FOR_TYPES : list string :=
  ["l4_core.Pedestrian"; "l4_de.Bicycle"; "l1_core.L1_Entity";
   "l1_core.L2_Entity"]%string.
Definition _YIELD_FOR_NONMOVING_TYPES : list string :=
  ["l4_core.Vehicle"]%string.

Record Walkway : Type := {
  walkway_storid : nat;
  walkway_area : R
}.

Record State : Type := {
  agent : Agent;
  walking_mode : WalkingMode.t;
  speed_mode : SpeedMode.t;
  selected_crossing_target : option Geometry;
  target_end_of_walkway : option Point;
  last_walkway : option Walkway
}.

Definition set_walking_mode (s : State) (m : WalkingMode.t) : State :=
  {| agent := agent s; walking_mode := m; speed_mode := speed_mode s;
     selected_crossing_target := selected_crossing_target s;
     target_end_of_walkway := target_end_of_walkway s;
     last_walkway := last_walkway s |}.

Definition set_speed_mode (s : State) (m : SpeedMode.t) : State :=
  {| agent := agent s; walking_mode := walking_mode s; speed_mode := m;
     selected_crossing_target := selected_crossing_target s;
     target_end_of_walkway := target_end_of_walkway s;
     last_walkway := last_walkway s |}.

Definition set_selected_crossing_target (s : State) (g : option Geometry) : State :=
  {| agent := agent s; walking_mode := walking_mode s;
     speed_mode := speed_mode s;
     selected_crossing_target := g;
     target_end_of_walkway := target_end_of_walkway s;
     last_walkway := last_walkway s |}.

Definition set_target_end_of_walkway (s : State) (p : option Point) : State :=
  {| agent := agent s; walking_mode := walking_mode s;
     speed_mode := speed_mode s;
     selected_crossing_target := selected_crossing_target s;
     target_end_of_walkway := p;
     last_walkway := last_walkway s |}.

Definition set_last_walkway (s : State) (w : option Walkway) : State :=
  {| agent := agent s; walking_mode := walking_mode s;
     speed_mode := speed_mode s;
     selected_crossing_target := selected_crossing_target s;
     target_end_of_walkway := target_end_of_walkway s;
     last_walkway := w |}.

(** What the world model answers about the previous-tick snapshot of one
    pedestrian. *)
Record World (RNG : Type) : Type := {
  (** [self.get_geometry().intersects(target)] *)
  intersects_target : Geometry -> bool;
  _close_to_some_driveable_lane : bool;
  (** the road of [_get_intersecting_road], by its storid *)
  _get_intersecting_road : option nat;
  (** [_get_furthest_walkway_of_current_road], given that road *)
  furthest_walkway_of : nat -> option Walkway;
  _get_intersecting_walkway : option Walkway;
  _is_close_to_crossing : bool;
  _has_reached_end_of_walkway : bool;
  (** the first non-empty target of the sweep of [_get_crossing_target] *)
  swept_crossing_target : option Geometry;
  walkway_centroid : Walkway -> Geometry;
  (** [_get_target_end_of_walkway] on a cleared cache: the free point the
      jittered search ends with *)
  free_end_of_walkway : RNG -> Point * RNG;
  get_intersecting_objects : list PedCandidate;
  (** [random.random()] *)
  random : RNG -> R * RNG
}.

Arguments intersects_target {RNG} w g.
Arguments _close_to_some_driveable_lane {RNG} w.
Arguments _get_intersecting_road {RNG} w.
Arguments furthest_walkway_of {RNG} w road.
Arguments _get_intersecting_walkway {RNG} w.
Arguments _is_close_to_crossing {RNG} w.
Arguments _has_reached_end_of_walkway {RNG} w.
Arguments swept_crossing_target {RNG} w.
Arguments walkway_centroid {RNG} w wk.
Arguments free_end_of_walkway {RNG} w g.
Arguments get_intersecting_objects {RNG} w.
Arguments random {RNG} w g.

(** [len(types.intersection(set(str(x) for x in obj.INDIRECT_is_a))) > 0] *)
Definition has_type_in (types : list string) (obj : Other) : bool :=
  existsb (fun t => existsb (String.eqb t) (other_INDIRECT_is_a obj)) types.

(** [l4_core.Pedestrian in obj.is_a] *)
Definition is_pedestrian (obj : Other) : bool :=
  existsb (String.eqb "l4_core.Pedestrian") (other_is_a obj).

Definition speed_is_None (obj : Other) : bool :=
  match other_has_speed obj with
  | None => true
  | Some _ => false
  end.

Definition speed_is_zero (obj : Other) : bool :=
  match other_has_speed obj with
  | None => false
  | Some v => if Req_dec_T v 0 then true else false
  end.

(** The condition of the loop of [_get_yielding_intersection_point].
    Python reads [a and b or c] as [(a and b) or c]: the second disjunct
    of the source is
    [(nonmoving_type and obj.has_speed is None) or obj.has_speed == 0]. *)
Definition yields_to (c : PedCandidate) : res bool :=
  match pc_t_self c, pc_t_other c with
  | Some t_self, Some t_other =>
      Ok (Rleb (t_self + t_other) _MAX_DISTANCE_FOR_YIELDING_MODE
          && ((negb (is_pedestrian (pc_obj c))
               && (Rleb 0 (t_self - t_other)
                   && Rleb (t_self - t_other) _MAX_PET_FOR_YIELDING))
              || ((has_type_in _YIELD_FOR_NONMOVING_TYPES (pc_obj c)
                   && speed_is_None (pc_obj c))
                  || speed_is_zero (pc_obj c))
              || (has_type_in _YIELD_FOR_TYPES (pc_obj c)
                  && Rleb (Rabs (t_self - t_other)) _MAX_PET_FOR_YIELDING)))
  | _, _ => Raise TypeError
  end.

Fixpoint first_yielding (feed : list PedCandidate) : res (option Point) :=
  match feed with
  | [] => Ok None
  | c :: feed' =>
      y <- yields_to c ;;
      if y : bool then Ok (Some (pc_p_int c)) else first_yielding feed'
  end.

Section Pedestrian_Model.

Variable RNG : Type.
Variable W : World RNG.

(** [Pedestrian._get_yielding_intersection_point] *)
Definition _get_yielding_intersection_point : res (option Point) :=
  first_yielding
    (sorted_with (fun a b => Rltb (pc_distance a) (pc_distance b))
       (get_intersecting_objects W)).

(** [Pedestrian._get_furthest_walkway_of_current_road] *)
Definition _get_furthest_walkway_of_current_road : res (option Walkway) :=
  match _get_intersecting_road W with
  | None => Raise AttributeError
  | Some road => Ok (furthest_walkway_of W road)
  end.

(** [Pedestrian._get_crossing_target] *)
Definition _get_crossing_target (self : State) : res (Geometry * State) :=
  match selected_crossing_target self with
  | Some g =>
      if intersects_target W g
      then _ <- _get_furthest_walkway_of_current_road ;; Ok (g, self)
      else Ok (g, self)
  | None =>
      walkway <- _get_furthest_walkway_of_current_road ;;
      match swept_crossing_target W with
      | Some g => Ok (g, set_selected_crossing_target self (Some g))
      | None =>
          match walkway with
          | None => Raise AttributeError
          | Some wk =>
              let g := walkway_centroid W wk in
              Ok (g, set_selected_crossing_target self (Some g))
          end
      end
  end.

(** The test of the second branch of [update_state]; the draw is made
    only when the pedestrian is close to a driveable lane. *)
Definition decides_to_cross (self : State) (rng : RNG) : res (bool * RNG) :=
  if _close_to_some_driveable_lane W
  then
    let (u, rng) := random W rng in
    if Rltb u _CROSSING_ROAD_PROBABILITY
    then
      match walking_mode self with
      | WalkingMode.UnrestrictedWalking | WalkingMode.Stopping =>
          Ok (false, rng)
      | _ =>
          match _get_intersecting_road W with
          | None => Ok (false, rng)
          | Some _ =>
              far <- _get_furthest_walkway_of_current_road ;;
              Ok (match far with Some _ => true | None => false end, rng)
          end
      end
    else Ok (false, rng)
  else Ok (false, rng).

(** The first part of [Pedestrian.update_state]: the walking mode. *)
Definition update_walking_mode (self new_self : State) (rng : RNG)
    : res (State * State * RNG) :=
  keep_crossing <-
    match walking_mode self with
    | WalkingMode.CrossingRoad =>
        match selected_crossing_target self with
        | Some g => Ok (negb (intersects_target W g))
        | None => Raise AttributeError
        end
    | _ => Ok false
    end ;;
  if keep_crossing : bool
  then
    r <- _get_crossing_target self ;;
    Ok (snd r,
        set_selected_crossing_target
          (set_walking_mode new_self WalkingMode.CrossingRoad)
          (Some (fst r)), rng)
  else
    c <- decides_to_cross self rng ;;
    let (cross, rng) := c : bool * RNG in
    if cross
    then
      r <- _get_crossing_target self ;;
      Ok (snd r,
          set_selected_crossing_target
            (set_walking_mode new_self WalkingMode.CrossingRoad)
            (Some (fst r)), rng)
    else
      match _get_intersecting_walkway W with
      | Some wk =>
          if negb (_is_close_to_crossing W)
             && _has_reached_end_of_walkway W
          then
            r <- match target_end_of_walkway self with
                 | Some p => Ok (p, self, rng)
                 | None =>
                     let (p, rng) := free_end_of_walkway W rng in
                     Ok (p, set_target_end_of_walkway self (Some p), rng)
                 end ;;
            let '(p, self, rng) := r in
            Ok (self,
                set_speed_mode
                  (set_walking_mode
                     (set_target_end_of_walkway new_self (Some p))
                     WalkingMode.Stopping)
                  SpeedMode.Stopping, rng)
          else if Rltb _MINIMUM_WALKWAY_AREA_FOR_WALKING (walkway_area wk)
          then Ok (self,
                   set_last_walkway
                     (set_walking_mode new_self WalkingMode.WalkwayWalking)
                     (Some wk), rng)
          else Ok (self,
                   set_walking_mode new_self
                     WalkingMode.UnrestrictedWalking, rng)
      | None =>
          Ok (self,
              set_walking_mode new_self WalkingMode.UnrestrictedWalking,
              rng)
      end.

(** [Pedestrian.update_state] *)
Definition update_state (self new_self : State) (rng : RNG)
    : res (State * State * RNG) :=
  r <- update_walking_mode self new_self rng ;;
  let '(self, new_self, rng) := r in
  y <- _get_yielding_intersection_point ;;
  let new_self := match y with
                  | Some _ => set_speed_mode new_self SpeedMode.Yielding
                  | None => new_self
                  end in
  (* the comparison of [walking_mode.value] with the enum member itself
     is always unequal: the target is cleared on every path *)
  let new_self := set_target_end_of_walkway new_self None in
  let new_self := match last_walkway new_self with
                  | None => set_last_walkway new_self (last_walkway self)
                  | Some _ => new_self
                  end in
  Ok (self, new_self, rng).

End Pedestrian_Model.

Arguments _get_yielding_intersection_point {RNG}.
Arguments _get_furthest_walkway_of_current_road {RNG}.
Arguments _get_crossing_target {RNG}.
Arguments decides_to_cross {RNG}.
Arguments update_walking_mode {RNG}.
Arguments update_state {RNG}.

End Pedestrian.

(** ** The parametrisations of the driver *)

(** [math.isclose(a, b)] with its default tolerances:
    [abs(a - b) <= max(1e-09 * max(abs(a), abs(b)), 0.0)]. *)
Definition isclose (a b : R) : bool :=
  Rleb (Rabs (a - b))
       (py_max (1 / 1000000000 * py_max (Rabs a) (Rabs b)) 0).

(** The profile [Bicyclist.__init__] sets. *)
Definition Bicyclist_profile : Driver.Profile :=
  {| Driver.default_target_speed := 45 / 10;
     Driver.crossing_speed := 35 / 10;
     Driver.turning_speed := 125 / 100 |}.

Module Bicyclist.

(** [Bicyclist._get_yaw_rate_smoothing_factor] *)
Definition _get_yaw_rate_smoothing_factor (degrees_per_second : R) : R :=
  py_max (2 / 10) (1 / (1 + exp (- (15 / 100) * (degrees_per_second - 10)))).

(** [Bicyclist._get_relevant_lanes]: the lanes and ways that are of none
    of the invalid lane types. *)
Definition _get_relevant_lanes (is_invalid_lane_type : Lane -> bool)
    (lanes : list Lane) : list Lane :=
  filter (fun lane => negb (is_invalid_lane_type lane)) lanes.

Section Current_Lane.

(** area of the intersection of the (driven) footprint with a lane, and
    the area of the lane *)
Variable overlap : Lane -> R.
Variable lane_area : Lane -> R.

(** The first loop of [Bicyclist.get_current_lane]: the lanes of largest
    overlap, up to [isclose]. *)
Definition largest_overlap_step (st : list Lane * R) (lane : Lane)
    : list Lane * R :=
  let (cur_lanes, largest) := st in
  let area := overlap lane in
  if Rlt_dec largest area then ([lane], area)
  else if Rltb 0 area && isclose area largest
       then (cur_lanes ++ [lane], largest)
       else (cur_lanes, largest).

(** The second loop: the lane of smallest area among them. *)
Definition smallest_area_step (st : option Lane * R) (lane : Lane)
    : option Lane * R :=
  let (smallest, smallest_area) := st in
  match smallest with
  | None => (Some lane, lane_area lane)
  | Some _ =>
      if Rlt_dec (lane_area lane) smallest_area
      then (Some lane, lane_area lane)
      else (smallest, smallest_area)
  end.

(** [Bicyclist.get_current_lane], given the relevant lanes. *)
Definition get_current_lane (lanes : list Lane) : option Lane :=
  let cur_lanes := fst (fold_left largest_overlap_step lanes ([], 0)) in
  fst (fold_left smallest_area_step cur_lanes (None, 0)).

End Current_Lane.

End Bicyclist.

Module TCrossingDriver.

Definition _MAX_DISTANCE_FOR_TURNING : R := 145 / 10.

(** [TCrossingDriver._get_yaw_rate_smoothing_factor] *)
Definition _get_yaw_rate_smoothing_factor (degrees_per_second : R) : R :=
  py_max (1 / 10) (1 / (1 + exp (- (1 / 10) * (degrees_per_second - 23)))).

End TCrossingDriver.

Module XCrossingDriver.

Definition _MAX_DISTANCE_FOR_TURNING : R := 17.

(** [XCrossingDriver._get_yaw_rate_smoothing_factor] *)
Definition _get_yaw_rate_smoothing_factor (degrees_per_second : R) : R :=
  py_max (1 / 10) (1 / (1 + exp (- (1 / 10) * (degrees_per_second - 20)))).

(** [XCrossingDriver._get_yaw_rate_to_reach_point]: the flag handed in is
    dropped; outside the driving mode [Turning] the maximum distance for
    turning is ignored. *)
Definition _get_yaw_rate_to_reach_point
    (distance_to : Geometry -> Point -> R)
    (compute_angle_between_yaw_and_point : Agent -> Point -> R)
    (is_point_right_of : Agent -> Point -> bool)
    (self : Driver.State) (target : Point) (max_yaw_rate : R)
    (distance : option R) (ignore_max_distance_for_turning : bool) : res R :=
  _get_yaw_rate_to_reach_point _MAX_DISTANCE_FOR_TURNING
    _get_yaw_rate_smoothing_factor distance_to
    compute_angle_between_yaw_and_point is_point_right_of
    (Driver.agent self) target max_yaw_rate distance
    (match Driver.driving_mode self with
     | Driver.DrivingMode.Turning => false
     | _ => true
     end).

End XCrossingDriver.

(** ** The searches of the driver

    [get_current_lane] and [get_lead_vehicle] loop over the individuals
    the world search returns; the [World] record holds their answers.
    Here are the loops themselves, over the list searched and the
    geometric measurements of each individual. *)

(** An object [get_lead_vehicle] looks at, with what the loop reads of
    it. *)
Record SearchedObject : Type := {
  so_obj : nat;
  so_has_geometry : bool;
  so_has_yaw : option R;
  (** [obj.get_geometry().area] *)
  so_area : R;
  (** area of the intersection of its footprint with the current lane *)
  so_area_on_lane : R;
  (** [obj.in_front_of(self)] *)
  so_in_front_of : bool;
  (** [self.drives[0].get_distance(obj)] *)
  so_distance : R
}.

Module Driver_Search.

Definition _MAX_DELTA_T_FOR_LEAD_VEHICLES : R := 10.

Section Current_Lane.

(** area of the intersection of the (driven) footprint with a lane *)
Variable overlap : Lane -> R.

(** The body of the loop of [Driver.get_current_lane] on the pair
    [(cur_lane, largest)]. *)
Definition current_lane_step (st : option Lane * R) (lane : Lane)
    : option Lane * R :=
  let (cur_lane, largest) := st in
  let area := overlap lane in
  if Rltb largest area
     || ((if Req_dec_T largest 0 then true else false) && Rltb (1 / 2) area)
  then (Some lane, area)
  else (cur_lane, largest).

(** [Driver.get_current_lane], given the driveable lanes. *)
Definition get_current_lane (lanes : list Lane) : option Lane :=
  fst (fold_left current_lane_step lanes (None, 0)).

End Current_Lane.

Section Lead_Vehicle.

Variable self : Agent.
(** [self.get_current_lane() is not None and
    self.get_current_lane().has_geometry()] *)
Variable lane_has_geometry : bool.

(** The condition of the loop of [Driver.get_lead_vehicle] on one
    object, against the lead vehicle found so far.  Only its last two
    conjuncts can raise: they index [self.drives] and multiply
    [self.has_speed]. *)
Definition takes_as_lead (lead : option SearchedObject) (obj : SearchedObject)
    : res bool :=
  if so_has_geometry obj && lane_has_geometry
  then
    match so_has_yaw obj, has_yaw self with
    | Some obj_yaw, Some self_yaw =>
        if Rltb 0 (so_area obj)
           && Rltb (1 / 2) (so_area_on_lane obj / so_area obj)
           && so_in_front_of obj
           && (Rltb (-70) (self_yaw - obj_yaw) && Rltb (self_yaw - obj_yaw) 70)
        then
          closer <-
            match lead with
            | None => Ok true
            | Some l =>
                match drives self with
                | [] => Raise IndexError
                | _ :: _ => Ok (Rltb (so_distance obj) (so_distance l))
                end
            end ;;
          if closer : bool
          then
            match drives self with
            | [] => Raise IndexError
            | _ :: _ =>
                match has_speed self with
                | None => Raise TypeError
                | Some v =>
                    Ok (Rltb (so_distance obj)
                          (py_max 2 (_MAX_DELTA_T_FOR_LEAD_VEHICLES * v)))
                end
            end
          else Ok false
        else Ok false
    | _, _ => Ok false
    end
  else Ok false.

(** The loop of [Driver.get_lead_vehicle], started with
    [self.lead_vehicle]. *)
Fixpoint search_lead_vehicle (lead : option SearchedObject)
    (objs : list SearchedObject) : res (option SearchedObject) :=
  match objs with
  | [] => Ok lead
  | obj :: objs' =>
      take <- takes_as_lead lead obj ;;
      search_lead_vehicle (if take : bool then Some obj else lead) objs'
  end.

End Lead_Vehicle.

End Driver_Search.

(** ** The target speed and the searches of the pedestrian *)

(** [Pedestrian.get_target_speed] *)
Definition Pedestrian_get_target_speed (self new_self : Pedestrian.State)
    : option R :=
  match Pedestrian.speed_mode new_self with
  | Pedestrian.SpeedMode.Stopping => Some 0
  | Pedestrian.SpeedMode.Yielding => Some 0
  | Pedestrian.SpeedMode.UnrestrictedWalking =>
      default_get_target_speed (Pedestrian.agent self)
  end.

Module Pedestrian_Search.

Section Walkways.

(** A lane or walkway individual, with what the loops read of it. *)
Variable L : Type.
(** [self.intersects(i)] *)
Variable intersects_self : L -> bool.
(** [Walkway in i.is_a] *)
Variable is_walkway : L -> bool.
(** [i.get_distance(self)] *)
Variable get_distance : L -> R.
(** [i.get_geometry().area] *)
Variable area : L -> R.
(** [str(i)] *)
Variable str : L -> string.

(** The body of the loop of [_get_furthest_walkway_of_current_road] on
    the pair [(walkway, furthest_distance)], both unset at first. *)
Definition furthest_walkway_step (st : option (L * R)) (i : L)
    : option (L * R) :=
  if negb (intersects_self i) && is_walkway i
  then
    let distance := get_distance i in
    match st with
    | None => Some (i, distance)
    | Some (_, furthest_distance) =>
        if Rlt_dec furthest_distance distance then Some (i, distance) else st
    end
  else st.

(** [Pedestrian._get_furthest_walkway_of_current_road]; [has_lane] holds
    the lanes of the intersecting road, [None] when there is no such
    road. *)
Definition _get_furthest_walkway_of_current_road (has_lane : option (list L))
    : res (option L) :=
  match has_lane with
  | None => Raise AttributeError
  | Some lanes =>
      Ok (option_map fst (fold_left furthest_walkway_step lanes None))
  end.

(** The body of the loop of [_get_closest_walkable_walkway] on the pair
    [(closest_walkway, closest_walkway_dist)]; [last] is
    [str(self.last_walkway)]. *)
Definition closest_walkway_step (last : string) (st : option (L * R)) (w : L)
    : option (L * R) :=
  if negb (String.eqb (str w) last)
  then
    let dist := get_distance w in
    if Rleb Pedestrian._MINIMUM_WALKWAY_AREA_FOR_WALKING (area w)
       && match st with
          | None => true
          | Some (_, closest_walkway_dist) => Rltb dist closest_walkway_dist
          end
    then Some (w, dist)
    else st
  else st.

(** [Pedestrian._get_closest_walkable_walkway] *)
Definition _get_closest_walkable_walkway (last_walkway : option L)
    (walkways : list L) : option L :=
  let last := match last_walkway with
              | Some w => str w
              | None => "None"%string
              end in
  option_map fst (fold_left (closest_walkway_step last) walkways None).

End Walkways.

End Pedestrian_Search.

(** ** The bicyclist of the T-crossing *)

(** The profile [TCrossingBicyclist.__init__] sets. *)
Definition TCrossingBicyclist_profile : Driver.Profile :=
  {| Driver.default_target_speed := 45 / 10;
     Driver.crossing_speed := 2;
     Driver.turning_speed := 125 / 100 |}.

Module TCrossingBicyclist.

Definition _PEDESTRIAN_CROSSING_TURNING_THRESHOLD : R := 18 / 10.
Definition _WALKWAY_TURNING_THRESHOLD : R := 5.

Section TCrossingBicyclist_Model.

Variable RNG : Type.
Variable K : Driver.Constants.
Variable W : Driver.World RNG.

(** [x.get_distance(self)] *)
Variable get_distance : Lane -> R.
(** [extras.utils.in_front_of(x.get_geometry().centroid,
    self.get_geometry().centroid, self.has_yaw)], and the same with an
    opening of 60 *)
Variable centroid_in_front : Lane -> bool.
Variable centroid_in_front_60 : Lane -> bool.
(** [x.intersects(self)] *)
Variable intersects_self : Lane -> bool.
(** the pedestrian crossings and the walkways of the world *)
Variable pedestrian_crossings : list Lane.
Variable walkways : list Lane.
(** [self.intersects_pedestrian_crossing()] *)
Variable intersects_pedestrian_crossing : bool.

(** [sorted(..., key=lambda x: x.get_distance(self))] *)
Definition sorted_by_distance (l : list Lane) : list Lane :=
  sorted_with (fun a b => Rltb (get_distance a) (get_distance b)) l.

(** [TCrossingBicyclist._get_close_pedestrian_crossings] *)
Definition _get_close_pedestrian_crossings : list Lane :=
  filter (fun x => Rleb (get_distance x) _PEDESTRIAN_CROSSING_TURNING_THRESHOLD
                   && centroid_in_front x
                   && negb (intersects_self x))
    (sorted_by_distance pedestrian_crossings).

(** [TCrossingBicyclist._get_close_walkways]; two individuals are the
    same when their storids are. *)
Definition _get_close_walkways : res (list Lane) :=
  match Driver.get_current_lane W with
  | None => Raise AttributeError
  | Some cur_lane =>
      if Driver._approaches_end_of_lane W cur_lane
      then Ok (filter (fun x => negb (Nat.eqb (lane_storid x)
                                        (lane_storid cur_lane))
                                && Rleb (get_distance x)
                                     _WALKWAY_TURNING_THRESHOLD
                                && centroid_in_front_60 x)
                 (sorted_by_distance walkways))
      else Ok []
  end.

(** [TCrossingBicyclist._get_next_lane] *)
Definition _get_next_lane (self : Driver.State) (cur_lane : option Lane)
    (rng : RNG) : res (option Lane * Driver.State * RNG) :=
  match Driver.next_lane self with
  | None =>
      match _get_close_pedestrian_crossings with
      | crossing :: _ => Ok (Some crossing, self, rng)
      | [] =>
          close_walkways <- _get_close_walkways ;;
          match close_walkways with
          | walkway :: _ => Ok (Some walkway, self, rng)
          | [] => Driver._get_next_lane W self cur_lane rng
          end
      end
  | Some _ => Driver._get_next_lane W self cur_lane rng
  end.

(** [TCrossingBicyclist._approaches_end_of_lane] *)
Definition _approaches_end_of_lane (lane : Lane) : res bool :=
  match _get_close_pedestrian_crossings with
  | _ :: _ => Ok true
  | [] =>
      close_walkways <- _get_close_walkways ;;
      match close_walkways with
      | _ :: _ => Ok true
      | [] => Ok (Driver._approaches_end_of_lane W lane)
      end
  end.

(** [TCrossingBicyclist.get_target_speed] *)
Definition get_target_speed (self new_self : Driver.State) : res (option R) :=
  s <- Driver.get_target_speed K W self new_self ;;
  if intersects_pedestrian_crossing
  then match s with
       | Some s => Ok (Some (py_min (Driver.crossing_speed (Driver.profile self)) s))
       | None => Raise TypeError
       end
  else Ok s.

End TCrossingBicyclist_Model.

End TCrossingBicyclist.

(** ** The targets that lie ahead *)

(** [Driver._get_target_roaming]; [c] is the centroid of the agent. *)
Definition _get_target_roaming (self : Agent) (c : Point) : Point :=
  match has_yaw self with
  | Some yaw => (5 * cos (radians yaw) + fst c, 5 * sin (radians yaw) + snd c)
  | None => c
  end.

(** ** The generator's loop over the seeds *)

(** What [BenchmarkScenario.generate] does with the benchmark it has
    simulated: it is saved when a file is given and no accident happened
    or accidents are to be saved. *)
Definition saves_benchmark (file_given save_on_accident accident : bool) : bool :=
  file_given && (negb accident || save_on_accident).

(** The loop of [generate.main]: [accident_of seed] is what
    [bm.generate] returns for the benchmark simulated with that seed;
    [accidents] is the command-line flag.  The loop has no bound of its
    own; [fuel] bounds the number of benchmarks simulated. *)
Fixpoint generate_loop (fuel : nat) (accidents : bool)
    (accident_of : nat -> bool) (seed : nat) : option nat :=
  match fuel with
  | O => None
  | S fuel' =>
      let repeat_until_accident_free := negb accidents in
      let accident := accident_of seed in
      if negb repeat_until_accident_free
         || (repeat_until_accident_free && negb accident)
      then Some seed
      else generate_loop fuel' accidents accident_of (S seed)
  end.

(** ** Example individuals *)

Definition Dynamical_Object_class : OntClass :=
  {| cls_name := "physics.Dynamical_Object"%string; cls_attr := fun _ => None |}.

(** The vertex mean, shapely's centroid of a set of points; it stands in
    for the centroid of the world model in the examples. *)
Definition vertex_mean (g : Geometry) : Point :=
  let n := INR (List.length (coords g)) in
  (fold_right (fun p acc => fst p + acc) 0 (coords g) / n,
   fold_right (fun p acc => snd p + acc) 0 (coords g) / n).

Definition unit_square : Geometry :=
  Polygon [(0, 0); (1, 0); (1, 1); (0, 1)].

(** An individual of class [Dynamical_Object] with the given speed and
    yaw, at rest otherwise, and the given own capability values. *)
Definition individual (speed yaw : R) (own : Capability -> option (list R)) : Agent :=
  {| has_speed := Some speed; has_acceleration := Some 0;
     has_yaw_rate := Some 0; has_yaw := Some yaw;
     has_length := Some 1; hasGeometry := Some unit_square;
     drives := []; is_a := [Dynamical_Object_class];
     INDIRECT_is_a := [Dynamical_Object_class];
     own_attr := own |}.

Definition capabilities (max_speed max_acceleration max_deceleration : list R)
    (attr : Capability) : option (list R) :=
  match attr with
  | has_maximum_speed => Some max_speed
  | has_maximum_acceleration => Some max_acceleration
  | has_maximum_deceleration => Some max_deceleration
  | has_maximum_yaw_rate => Some []
  end.

(** ** Example worlds *)

Definition pedestrian_individual (mode : Pedestrian.WalkingMode.t) : Pedestrian.State :=
  {| Pedestrian.agent := individual 1 0 (capabilities [2] [1] [-1]);
     Pedestrian.walking_mode := mode;
     Pedestrian.speed_mode := Pedestrian.SpeedMode.UnrestrictedWalking;
     Pedestrian.selected_crossing_target := None;
     Pedestrian.target_end_of_walkway := None;
     Pedestrian.last_walkway := None |}.

Definition far_walkway : Pedestrian.Walkway :=
  {| Pedestrian.walkway_storid := 2; Pedestrian.walkway_area := 20 |}.

(** A pedestrian beside a road with a walkway on the far side; the
    random source answers every draw with [draw], and the conflict feed
    is [feed]. *)
Definition roadside (draw : R) (feed : list PedCandidate) : Pedestrian.World nat :=
  {| Pedestrian.intersects_target := fun _ => false;
     Pedestrian._close_to_some_driveable_lane := true;
     Pedestrian._get_intersecting_road := Some 1%nat;
     Pedestrian.furthest_walkway_of := fun _ => Some far_walkway;
     Pedestrian._get_intersecting_walkway := None;
     Pedestrian._is_close_to_crossing := false;
     Pedestrian._has_reached_end_of_walkway := false;
     Pedestrian.swept_crossing_target := Some unit_square;
     Pedestrian.walkway_centroid := fun _ => OtherGeometry [(0, 0)];
     Pedestrian.free_end_of_walkway := fun g => ((0, 0), g);
     Pedestrian.get_intersecting_objects := feed;
     Pedestrian.random := fun g => (draw, S g) |}.

(** Another pedestrian, standing still. *)
Definition standing_pedestrian : Other :=
  {| other_is_a := ["l4_core.Pedestrian"%string];
     other_INDIRECT_is_a :=
       ["l4_core.Pedestrian"; "physics.Dynamical_Object"; "owl.Thing"]%string;
     other_has_speed := Some 0 |}.

(** A conflict with it, 6 s ahead for self and 1 s ahead for the other. *)
Definition late_conflict : PedCandidate :=
  {| pc_obj := standing_pedestrian;
     pc_t_self := Some 6;
     pc_t_other := Some 1;
     pc_p_int := (3, 0);
     pc_distance := 3 |}.

(** One tick of a pedestrian as the scheduler sets it up: the world
    model of the tick, the fresh next-tick individual and the state of the
    random source when the pedestrian is simulated. *)
Record PedestrianTick : Type := {
  tick_world : Pedestrian.World nat;
  tick_new_self : Pedestrian.State;
  tick_rng : nat
}.

(** The next-tick individuals of a run of ticks, each one the
    previous-tick individual of the following tick; the run ends early if
    a tick raises. *)
Fixpoint pedestrian_run (self : Pedestrian.State) (ticks : list PedestrianTick)
    : list Pedestrian.State :=
  match ticks with
  | [] => []
  | tk :: ticks' =>
      match Pedestrian.update_state (tick_world tk) self (tick_new_self tk)
              (tick_rng tk) with
      | Ok (_, new_self, _) => new_self :: pedestrian_run new_self ticks'
      | Raise _ => []
      end
  end.

(** The Bernoulli draw of a tick fails. *)
Definition draw_fails (tk : PedestrianTick) : Prop :=
  ~ fst (Pedestrian.random (tick_world tk) (tick_rng tk))
    < Pedestrian._CROSSING_ROAD_PROBABILITY.

(** A junction seen by a driver on [lane_a]: the lane ends here and has
    the successors [succ]; nothing leads, and the conflict feed is
    [feed].  The random source is a counter: it draws the index
    [g mod n] and the number 0.5. *)
Definition lane_a : Lane := {| lane_storid := 1%nat; lane_str := "l1_core.lane_a"%string |}.
Definition lane_b : Lane := {| lane_storid := 2%nat; lane_str := "l1_core.lane_b"%string |}.
Definition lane_c : Lane := {| lane_storid := 3%nat; lane_str := "l1_core.lane_c"%string |}.

Definition junction (feed : list Candidate) (succ : Lane -> list Lane)
    : Driver.World nat :=
  {| Driver.get_current_lane := Some lane_a;
     Driver.has_successor_lane := succ;
     Driver.overlap_fraction := fun _ => 0;
     Driver._approaches_end_of_lane := fun _ => true;
     Driver.get_intersecting_objects := feed;
     Driver.in_front_of := fun _ => true;
     Driver.found_lead_vehicle := None;
     Driver._intersects_some_road_infrastructure := true;
     Driver.close_to_crossing := false;
     Driver.is_lane_left_of := fun _ _ => false;
     Driver.is_lane_right_of := fun _ _ => false;
     Driver._get_target_no_road := (0, 0);
     Driver._get_target_follow_lane := fun _ => (4, 0);
     Driver._get_target_on_lane := fun _ => (4, 1);
     Driver._get_target_end_of_lane := fun _ => (4, 0);
     Driver._get_target_roaming := (5, 0);
     Driver._get_target_yielding := fun _ t => t;
     Driver._get_target_follow_vehicle := fun _ => (2, 0);
     Driver.randbelow := fun g n => (Nat.modulo g n, S g);
     Driver.random := fun g => (1 / 2, S g) |}.

Definition car : Vehicle :=
  {| veh_has_yaw_rate := Some 0;
     veh_has_acceleration := Some 0;
     veh_has_length := Some 4;
     veh_geometry := unit_square;
     veh_INDIRECT_is_a := [] |}.

(** A driver of [car] at 5 m/s, as [__init__] leaves its modes. *)
Definition driver_individual (mode : Driver.DrivingMode.t) : Driver.State :=
  {| Driver.agent :=
       set_drives (individual 5 0 (capabilities [15] [3] [-8])) [car];
     Driver.driving_mode := mode;
     Driver.speed_mode := Driver.SpeedMode.Undefined;
     Driver.next_lane := None;
     Driver.lead_vehicle := None;
     Driver.retained := Driver.no_conflict;
     Driver.profile := Driver.Driver_profile;
     Driver.next_lane_memo := None;
     Driver.signals := [] |}.

(** A conflict 5 s ahead for self and 3 s ahead for the other. *)
Definition crossing_conflict : Candidate :=
  {| cand_obj := 7%nat;
     cand_t_self := Some 5;
     cand_t_other := Some 3;
     cand_p_int := (4, 0) |}.

(** ** Vocabulary of the specification *)

(** The sign of a number: -1, 0 or 1. *)
Definition sign (x : R) : R :=
  if Rlt_dec x 0 then -1 else if Rlt_dec 0 x then 1 else 0.

(** The command as the specification words it: [sign(dv) * dv^2 / distance]
    clamped to [[max_deceleration, max_acceleration]]. *)
Definition clamped_command (v ts distance max_deceleration max_acceleration : R) : R :=
  Rmin (Rmax (sign (ts - v) * (ts - v) ^ 2 / distance) max_deceleration)
       max_acceleration.

(** The claim of C4 as worded: a positive command is dropped as soon as the
    speed is at or above the maximum speed. *)
Definition claimed_acceleration (self : Agent) (v ts d : R) : R :=
  let c := clamped_command v ts (effective_distance d)
             (get_maximum_deceleration self) (get_maximum_acceleration self) in
  if Rlt_dec 0 c
  then if Rle_dec (get_maximum_speed self) v then 0 else c
  else c.

(** The values of a capability asserted on the individual itself. *)
Definition own_values (self : Agent) (attr : Capability) : list R :=
  match own_attr self attr with
  | Some vs => vs
  | None => []
  end.

(** No value of the capability is asserted on the individual, declared on
    a class of its ancestry, or declared on a class of the ancestry of a
    vehicle it drives. *)
Definition undeclared (self : Agent) (attr : Capability) : Prop :=
  own_values self attr = []
  /\ class_values attr (INDIRECT_is_a self) = []
  /\ Forall (fun veh => class_values attr (veh_INDIRECT_is_a veh) = [])
       (drives self).

(** The exceptions of ordinary Python faults, as opposed to the two
    raised for an undefined mode. *)
Definition ordinary (e : exn) : Prop :=
  e = TypeError \/ e = IndexError \/ e = AttributeError.

(** A computation raises no exception outside [P]. *)
Definition raises_only {A : Type} (P : exn -> Prop) (m : res A) : Prop :=
  forall e, m = Raise e -> P e.

(** A driving mode other than [Undefined]. *)
Definition defined_driving_mode (m : Driver.DrivingMode.t) : Prop :=
  m <> Driver.DrivingMode.Undefined.

(** The speed modes [update_state] writes; [get_target_speed] raises for
    the two others. *)
Definition written_speed_mode (m : Driver.SpeedMode.t) : Prop :=
  m = Driver.SpeedMode.Following \/ m = Driver.SpeedMode.Yielding
  \/ m = Driver.SpeedMode.Stopping \/ m = Driver.SpeedMode.Unrestricted.

(** The three clauses of C6 for a candidate with times [t_self] and
    [t_other]. *)
Definition yield_clause (c : PedCandidate) (t_self t_other : R) : Prop :=
  (Pedestrian.is_pedestrian (pc_obj c) = false
   /\ 0 <= t_self - t_other <= Pedestrian._MAX_PET_FOR_YIELDING)
  \/ (Pedestrian.has_type_in Pedestrian._YIELD_FOR_NONMOVING_TYPES (pc_obj c) = true
      /\ (other_has_speed (pc_obj c) = None
          \/ other_has_speed (pc_obj c) = Some 0))
  \/ (Pedestrian.has_type_in Pedestrian._YIELD_FOR_TYPES (pc_obj c) = true
      /\ Rabs (t_self - t_other) <= Pedestrian._MAX_PET_FOR_YIELDING).

(** What a candidate has passed when the loop takes it. *)
Definition acceptable {RNG : Type} (K : Driver.Constants) (W : Driver.World RNG)
    (before : Driver.Retained) (c : Candidate) : Prop :=
  exists t_self t_other,
    cand_t_self c = Some t_self
    /\ cand_t_other c = Some t_other
    /\ t_self + t_other <= Driver._MAX_DISTANCE_FOR_YIELDING_MODE K
    /\ 0 <= t_self - t_other <= Driver._MAX_PET_FOR_BRAKING_WHEN_INTERSECTING K
    /\ (forall s o, Driver.tti_self before = Some s ->
                    Driver.tti_object before = Some o ->
                    t_self + t_other < s + o)
    /\ Driver.in_front_of W (cand_p_int c) = true.

(** ** Vocabulary of the further properties *)

(** The squared distance of two points. *)
Definition dist2 (p q : Point) : R :=
  (fst p - fst q) ^ 2 + (snd p - snd q) ^ 2.

(** [m] is the largest (smallest) element of [l]. *)
Definition is_max_of (m : R) (l : list R) : Prop :=
  In m l /\ Forall (fun x => x <= m) l.

Definition is_min_of (m : R) (l : list R) : Prop :=
  In m l /\ Forall (fun x => m <= x) l.

(** A smoothing curve that stays in [[floor, 1]] and never decreases. *)
Definition smoothing_curve (floor : R) (f : R -> R) : Prop :=
  (forall x, floor <= f x <= 1) /\ (forall x y, x <= y -> f x <= f y).

(** A driver in driving mode [Turning] knows the lane it turns into. *)
Definition turning_has_next_lane (s : Driver.State) : Prop :=
  Driver.driving_mode s = Driver.DrivingMode.Turning ->
  exists l, Driver.next_lane s = Some l.

(** The total time [t_self + t_other] of a candidate and of a retained
    conflict. *)
Definition total_time (c : Candidate) : option R :=
  match cand_t_self c, cand_t_other c with
  | Some t_self, Some t_other => Some (t_self + t_other)
  | _, _ => None
  end.

Definition retained_total_time (r : Driver.Retained) : option R :=
  match Driver.tti_self r, Driver.tti_object r with
  | Some s, Some o => Some (s + o)
  | _, _ => None
  end.

(** What makes an object a possible lead vehicle of [self], apart from
    being nearer than the one found so far. *)
Definition eligible_lead (self : Agent) (obj : SearchedObject) : Prop :=
  so_has_geometry obj = true
  /\ (exists obj_yaw self_yaw,
        so_has_yaw obj = Some obj_yaw /\ has_yaw self = Some self_yaw
        /\ -70 < self_yaw - obj_yaw < 70)
  /\ 0 < so_area obj
  /\ 1 / 2 < so_area_on_lane obj / so_area obj
  /\ so_in_front_of obj = true
  /\ (exists v, has_speed self = Some v
                /\ so_distance obj
                   < Rmax 2 (Driver_Search._MAX_DELTA_T_FOR_LEAD_VEHICLES * v)).

(** A pedestrian in walking mode [CrossingRoad] has a crossing target. *)
Definition crossing_has_target (s : Pedestrian.State) : Prop :=
  Pedestrian.walking_mode s = Pedestrian.WalkingMode.CrossingRoad ->
  exists g, Pedestrian.selected_crossing_target s = Some g.

(** A loop that keeps the first element that passes [ok] and then every
    later one that passes [ok] and whose key is [better] than the key
    kept. *)
Definition keep_best {A : Type} (ok : A -> bool) (key : A -> R)
    (better : R -> R -> bool) (st : option (A * R)) (x : A)
    : option (A * R) :=
  if ok x
  then match st with
       | None => Some (x, key x)
       | Some (_, k) => if better (key x) k then Some (x, key x) else st
       end
  else st.

(** ** Further example individuals and worlds *)

(** The driver of [car] at 5 m/s, as a dynamical object. *)
Definition example_driver : Agent :=
  set_drives (individual 5 0 (capabilities [15] [3] [-8])) [car].

(** A tick of [simulate] with a relevant lowest speed of 0.1, the
    default turning distance and smoothing curve, the target straight
    ahead at 4 m. *)
Definition example_simulate (self new_self : Agent)
    (get_target_speed : res (option R)) (delta_t : R) : res Agent :=
  simulate_from_target (1 / 10) 12 default_yaw_rate_smoothing_factor
    vertex_mean (fun _ _ => 4) (fun _ _ => 0) (fun _ _ => false)
    (fun _ _ => 4) self new_self (4, 0) 4 get_target_speed delta_t.

(** An individual that may turn by 30 degrees per second. *)
Definition turning_capabilities (attr : Capability) : option (list R) :=
  match attr with
  | has_maximum_speed => Some [15]
  | has_maximum_acceleration => Some [3]
  | has_maximum_deceleration => Some [-8]
  | has_maximum_yaw_rate => Some [30]
  end.

(** The yaw rate towards a target 90 degrees to the left, 4 m away. *)
Definition example_new_yaw_rate (self : Agent) : res R :=
  _get_new_yaw_rate (1 / 10) 12 default_yaw_rate_smoothing_factor
    (fun _ _ => 4) (fun _ _ => 90) (fun _ _ => false) self (0, 4) None.

(** A driver in the middle of its turn into [lane_b]. *)
Definition turning_driver : Driver.State :=
  Driver.set_next_lane (driver_individual Driver.DrivingMode.Turning)
    (Some lane_b).

(** A driver that holds the conflict [crossing_conflict]. *)
Definition yielding_driver : Driver.State :=
  Driver.set_retained (driver_individual Driver.DrivingMode.LaneFollowing)
    (Driver.retain crossing_conflict).

(** A pedestrian on its way across the road. *)
Definition crossing_pedestrian : Pedestrian.State :=
  Pedestrian.set_selected_crossing_target
    (pedestrian_individual Pedestrian.WalkingMode.CrossingRoad)
    (Some unit_square).

(** An object ahead on the lane of the driver, heading the same way. *)
Definition object_ahead (obj : nat) (distance : R) : SearchedObject :=
  {| so_obj := obj; so_has_geometry := true; so_has_yaw := Some 0;
     so_area := 4; so_area_on_lane := 4; so_in_front_of := true;
     so_distance := distance |}.

(** The world of [junction] for a driver in the middle of its lane: the
    driver's own [_approaches_end_of_lane] answers [False]. *)
Definition lane_interior : Driver.World nat :=
  let w := junction [] (fun _ => []) in
  {| Driver.get_current_lane := Driver.get_current_lane w;
     Driver.has_successor_lane := Driver.has_successor_lane w;
     Driver.overlap_fraction := Driver.overlap_fraction w;
     Driver._approaches_end_of_lane := fun _ => false;
     Driver.get_intersecting_objects := Driver.get_intersecting_objects w;
     Driver.in_front_of := Driver.in_front_of w;
     Driver.found_lead_vehicle := Driver.found_lead_vehicle w;
     Driver._intersects_some_road_infrastructure :=
       Driver._intersects_some_road_infrastructure w;
     Driver.close_to_crossing := Driver.close_to_crossing w;
     Driver.is_lane_left_of := Driver.is_lane_left_of w;
     Driver.is_lane_right_of := Driver.is_lane_right_of w;
     Driver._get_target_no_road := Driver._get_target_no_road w;
     Driver._get_target_follow_lane := Driver._get_target_follow_lane w;
     Driver._get_target_on_lane := Driver._get_target_on_lane w;
     Driver._get_target_end_of_lane := Driver._get_target_end_of_lane w;
     Driver._get_target_roaming := Driver._get_target_roaming w;
     Driver._get_target_yielding := Driver._get_target_yielding w;
     Driver._get_target_follow_vehicle := Driver._get_target_follow_vehicle w;
     Driver.randbelow := Driver.randbelow w;
     Driver.random := Driver.random w |}.

(** Two pedestrian crossings near the bicyclist: the one of [lane_b] at
    1 m, the one of [lane_c] at 1.5 m. *)
Definition crossing_distance (l : Lane) : R := INR (lane_storid l) / 2.

(** * Theorems *)

(** ** Python primitives *)

Lemma py_max_Rmax (a b : R) : py_max a b = Rmax a b.
Proof.
  unfold py_max, Rmax.
  destruct (Rlt_dec a b), (Rle_dec a b); lra.
Qed.

Lemma py_min_Rmin (a b : R) : py_min a b = Rmin a b.
Proof.
  unfold py_min, Rmin.
  destruct (Rlt_dec b a), (Rle_dec a b); lra.
Qed.

(** ** Rounding and the float remainder *)

Lemma Int_part_floor (z : R) : IZR (Int_part z) <= z < IZR (Int_part z) + 1.
Proof. destruct (base_Int_part z). lra. Qed.

Lemma round_half_even_le (z : R) (n : Z) :
  z <= IZR n -> (round_half_even z <= n)%Z.
Proof.
  intros Hz. unfold round_half_even.
  pose proof (Int_part_floor z) as [Hlo Hhi].
  assert (Hf : (Int_part z <= n)%Z) by (apply le_IZR; lra).
  destruct (Rlt_dec (z - IZR (Int_part z)) (1 / 2)) as [Hd|Hd]; [exact Hf|].
  assert (Hne : Int_part z <> n) by (intros E; rewrite E in Hd; lra).
  destruct (Rlt_dec (1 / 2) (z - IZR (Int_part z))); [lia|].
  destruct (Z.even (Int_part z)); lia.
Qed.

Lemma round_half_even_ge (z : R) (n : Z) :
  IZR n <= z -> (n <= round_half_even z)%Z.
Proof.
  intros Hz. unfold round_half_even.
  pose proof (Int_part_floor z) as [Hlo Hhi].
  assert (Hf : (n <= Int_part z)%Z).
  { apply Z.lt_succ_r. apply lt_IZR. rewrite succ_IZR. lra. }
  destruct (Rlt_dec (z - IZR (Int_part z)) (1 / 2)); [exact Hf|].
  destruct (Rlt_dec (1 / 2) (z - IZR (Int_part z))); [lia|].
  destruct (Z.even (Int_part z)); lia.
Qed.

Lemma ln_2_pos : 0 < ln 2.
Proof. rewrite <- ln_1. apply ln_increasing; lra. Qed.

Lemma binade_lt (x : R) (n : nat) : 0 < x < 2 ^ n -> (binade x < Z.of_nat n)%Z.
Proof.
  intros [Hx Hn]. unfold binade. rewrite Rabs_pos_eq by lra.
  pose proof ln_2_pos as H2.
  pose proof (Int_part_floor (ln x / ln 2)) as [Hlo _].
  apply lt_IZR. rewrite <- INR_IZR_INZ.
  assert (ln x / ln 2 < INR n); [|lra].
  apply Rmult_lt_reg_r with (ln 2); [exact H2|].
  unfold Rdiv. rewrite Rmult_assoc, Rinv_l, Rmult_1_r by lra.
  rewrite <- ln_pow by lra. apply ln_increasing; lra.
Qed.

Lemma binade_ge (x : R) (n : nat) : 2 ^ n <= x -> (Z.of_nat n <= binade x)%Z.
Proof.
  intros Hn. unfold binade.
  assert (Hp : 0 < 2 ^ n) by (apply pow_lt; lra).
  rewrite Rabs_pos_eq by lra.
  pose proof ln_2_pos as H2.
  pose proof (Int_part_floor (ln x / ln 2)) as [_ Hhi].
  apply Z.lt_succ_r. apply lt_IZR. rewrite succ_IZR, <- INR_IZR_INZ.
  assert (INR n <= ln x / ln 2); [|lra].
  apply Rmult_le_reg_r with (ln 2); [exact H2|].
  unfold Rdiv. rewrite Rmult_assoc, Rinv_l, Rmult_1_r by lra.
  rewrite <- ln_pow by lra.
  destruct (Rle_lt_or_eq_dec _ _ Hn) as [Hlt| <-]; [|lra].
  left. apply ln_increasing; lra.
Qed.

Lemma ulp_pos (x : R) : 0 < ulp x.
Proof. apply powerRZ_lt. lra. Qed.

Lemma powerRZ_2_neg (n : nat) : powerRZ 2 (- Z.of_nat n) = / 2 ^ n.
Proof.
  rewrite powerRZ_neg' by lra. rewrite <- pow_powerRZ.
  reflexivity.
Qed.

(** An integer below [2 ^ 53] is a binary64 number, so rounding does not
    carry a number across it. *)
Lemma binary64_le_int (x : R) (b : Z) :
  0 <= x <= IZR b -> IZR b < 2 ^ 53 -> 0 <= binary64 x <= IZR b.
Proof.
  intros [Hlo Hhi] Hb. unfold binary64.
  destruct (Req_dec_T x 0) as [_|Hx0]; [lra|].
  assert (Hx : 0 < x) by lra.
  assert (Hbin : (binade x < 53)%Z).
  { apply (binade_lt x 53). lra. }
  pose proof (ulp_pos x) as Hu. unfold ulp in *.
  set (j := (Z.max (binade x) (-1022) - 52)%Z) in *.
  assert (Hj : j = (- Z.of_nat (Z.to_nat (- j)))%Z) by lia.
  rewrite Hj in *. rewrite powerRZ_2_neg in *.
  set (n := Z.to_nat (- j)) in *.
  assert (Hp : 0 < 2 ^ n) by (apply pow_lt; lra).
  unfold Rdiv. rewrite Rinv_inv.
  assert (Hge : (0 <= round_half_even (x * 2 ^ n))%Z).
  { apply round_half_even_ge. apply Rmult_le_pos; lra. }
  assert (Hle : (round_half_even (x * 2 ^ n) <= b * 2 ^ Z.of_nat n)%Z).
  { apply round_half_even_le. rewrite mult_IZR, <- pow_IZR.
    apply Rmult_le_compat_r; lra. }
  apply IZR_le in Hge, Hle. rewrite mult_IZR, <- pow_IZR in Hle.
  split.
  - apply Rmult_le_pos; [exact Hge | left; apply Rinv_0_lt_compat; exact Hp].
  - apply Rmult_le_reg_r with (2 ^ n); [exact Hp|].
    rewrite Rmult_assoc, Rinv_l, Rmult_1_r by lra. exact Hle.
Qed.

Lemma binary64_near_360 : binary64 (360 - / 10 ^ 14) = 360.
Proof.
  unfold binary64.
  destruct (Req_dec_T (360 - / 10 ^ 14) 0) as [H0|_]; [lra|].
  assert (Hb : binade (360 - / 10 ^ 14) = 8%Z).
  { pose proof (binade_lt (360 - / 10 ^ 14) 9) as Hlt.
    pose proof (binade_ge (360 - / 10 ^ 14) 8) as Hge.
    assert (H1 : (binade (360 - / 10 ^ 14) < Z.of_nat 9)%Z) by (apply Hlt; lra).
    assert (H2 : (Z.of_nat 8 <= binade (360 - / 10 ^ 14))%Z) by (apply Hge; lra).
    lia. }
  unfold ulp. rewrite Hb.
  change (Z.max 8 (-1022) - 52)%Z with (- Z.of_nat 44)%Z.
  rewrite powerRZ_2_neg. unfold Rdiv. rewrite Rinv_inv.
  assert (Hi : Int_part ((360 - / 10 ^ 14) * 2 ^ 44) = 6333186975989759%Z).
  { symmetry. apply Int_part_spec. lra. }
  unfold round_half_even. rewrite Hi.
  destruct (Rlt_dec _ _) as [Hd|_]; [lra|].
  destruct (Rlt_dec _ _) as [_|Hd]; [|lra].
  change (6333186975989759 + 1)%Z with 6333186975989760%Z. lra.
Qed.

Lemma fmod_nonneg (x m : R) :
  0 < m -> 0 <= x ->
  fmod x m = x - m * IZR (Int_part (x / m)) /\ 0 <= fmod x m < m.
Proof.
  intros Hm Hx. unfold fmod, truncate.
  assert (Hq : 0 <= x / m).
  { apply Rmult_le_pos; [exact Hx | left; apply Rinv_0_lt_compat; exact Hm]. }
  destruct (Rle_dec 0 (x / m)) as [_|Hn]; [|contradiction].
  split; [reflexivity|].
  pose proof (Int_part_floor (x / m)) as [Hlo Hhi].
  assert (Heq : x = m * (x / m)) by (field; lra).
  set (k := IZR (Int_part (x / m))) in *.
  split.
  - assert (m * k <= m * (x / m)) by (apply Rmult_le_compat_l; lra). lra.
  - assert (m * (x / m) < m * (k + 1)) by (apply Rmult_lt_compat_l; lra). lra.
Qed.

Lemma fmod_neg (x m : R) : 0 < m -> x < 0 -> - m < fmod x m <= 0.
Proof.
  intros Hm Hx. unfold fmod, truncate.
  assert (Heq : x = m * (x / m)) by (field; lra).
  assert (Hq : x / m < 0).
  { apply Rmult_lt_reg_r with m; [exact Hm|].
    replace (x / m * m) with x by (field; lra). lra. }
  destruct (Rle_dec 0 (x / m)) as [Hn|_]; [lra|].
  pose proof (Int_part_floor (- (x / m))) as [Hlo Hhi].
  rewrite opp_IZR.
  set (k := IZR (Int_part (- (x / m)))) in *.
  split.
  - assert (m * (- (x / m)) < m * (k + 1)) by (apply Rmult_lt_compat_l; lra). lra.
  - assert (m * k <= m * (- (x / m))) by (apply Rmult_le_compat_l; lra). lra.
Qed.

Lemma Rltb_of_not_lt (a b : R) : ~ a < b -> Rltb a b = false.
Proof.
  intros H. unfold Rltb. destruct (Rlt_dec a b); [contradiction | reflexivity].
Qed.

Lemma Rltb_of_lt (a b : R) : a < b -> Rltb a b = true.
Proof.
  intros H. unfold Rltb. destruct (Rlt_dec a b); [reflexivity | contradiction].
Qed.

(** A dividend that is not negative has the exact remainder. *)
Lemma py_mod_nonneg (x m : R) :
  0 < m -> 0 <= x -> py_mod x m = x - m * IZR (Int_part (x / m)).
Proof.
  intros Hm Hx. destruct (fmod_nonneg x m Hm Hx) as [Heq [Hlo Hhi]].
  unfold py_mod. cbv zeta.
  destruct (Req_dec_T (fmod x m) 0) as [H0|H0]; [lra|].
  rewrite (Rltb_of_not_lt m 0), (Rltb_of_not_lt (fmod x m) 0) by lra.
  exact Heq.
Qed.

Lemma py_mod_nonneg_range (x m : R) :
  0 < m -> 0 <= x -> 0 <= py_mod x m < m.
Proof.
  intros Hm Hx. rewrite (py_mod_nonneg x m Hm Hx).
  destruct (fmod_nonneg x m Hm Hx) as [<- H]. exact H.
Qed.


(** The yaw that [% 360] returns: below 360 for a dividend that is not
    negative, and at most 360 for a negative one. *)
Lemma py_mod_360_range (x : R) : 0 <= py_mod x 360 <= 360.
Proof.
  destruct (Rle_lt_dec 0 x) as [Hx|Hx].
  - pose proof (py_mod_nonneg_range x 360). lra.
  - pose proof (fmod_neg x 360) as Hr.
    unfold py_mod. cbv zeta.
    destruct (Req_dec_T (fmod x 360) 0) as [H0|H0]; [lra|].
    rewrite (Rltb_of_not_lt 360 0), (Rltb_of_lt (fmod x 360) 0) by lra.
    cbn [Bool.eqb]. apply (binary64_le_int _ 360); lra.
Qed.

(** [-1e-14 % 360]: the exact remainder [360 - 1e-14] is nearer to 360
    than to the binary64 number below it. *)
Lemma py_mod_360_reached : py_mod (- / 10 ^ 14) 360 = 360.
Proof.
  assert (Hf : fmod (- / 10 ^ 14) 360 = - / 10 ^ 14).
  { unfold fmod, truncate.
    destruct (Rle_dec 0 (- / 10 ^ 14 / 360)) as [H|_]; [lra|].
    assert (Hk : Int_part (- (- / 10 ^ 14 / 360)) = 0%Z).
    { symmetry. apply Int_part_spec. cbn. lra. }
    rewrite Hk. cbn. lra. }
  unfold py_mod. cbv zeta. rewrite Hf.
  destruct (Req_dec_T (- / 10 ^ 14) 0) as [H0|_]; [lra|].
  rewrite (Rltb_of_not_lt 360 0), (Rltb_of_lt (- / 10 ^ 14) 0) by lra.
  cbn [Bool.eqb].
  replace (- / 10 ^ 14 + 360) with (360 - / 10 ^ 14) by lra.
  apply binary64_near_360.
Qed.

(** ** Kinematic integration *)

Section Kinematics_Facts.

Variable eps : R.

(** C1.  The speed that [update_speed] writes into the next-tick agent
    is [max(0, speed + acceleration * delta_t)], which is never negative;
    and when that speed is below the relevant lowest speed, the
    acceleration and the yaw rate of the next-tick agent are both set to
    0 by the same update. *)
Theorem update_speed_spec (self prev_self : Agent) (delta_t v a : R) :
  has_speed prev_self = Some v ->
  has_acceleration self = Some a ->
  exists self',
    update_speed eps self prev_self delta_t = Ok self'
    /\ has_speed self' = Some (Rmax 0 (v + a * delta_t))
    /\ 0 <= Rmax 0 (v + a * delta_t)
    /\ (Rmax 0 (v + a * delta_t) < eps ->
        has_acceleration self' = Some 0 /\ has_yaw_rate self' = Some 0).
Proof.
  intros Hv Ha. unfold update_speed. rewrite Hv, Ha. cbn.
  rewrite py_max_Rmax.
  destruct (Rlt_dec (Rmax 0 (v + a * delta_t)) eps) as [Hlt | Hge]; cbn.
  - eexists. split; [reflexivity|]. cbn.
    repeat split; auto using Rmax_l.
  - eexists. split; [reflexivity|]. cbn.
    repeat split; auto using Rmax_l; contradiction.
Qed.

(** C2.  The yaw does not always stay in [[0, 360)].  For a moving agent
    at the yaw 0 with the yaw rate [-1e-13] and a tick of 0.1 s, the sum
    is [-1e-14]; the remainder [360 - 1e-14] of [% 360] is rounded to the
    nearest float, which is 360, and [update_yaw] sets the yaw 360. *)
Theorem update_yaw_leaves_the_range :
  let prev_self := individual 5 0 (capabilities [] [] []) in
  let self := set_has_yaw_rate prev_self (Some (- / 10 ^ 13)) in
  has_yaw prev_self = Some 0
  /\ 0 <= 0 < 360
  /\ gt_opt (has_speed self) (1 / 10) = Ok true
  /\ update_yaw (1 / 10) self prev_self (1 / 10)
     = Ok (set_has_yaw self (Some 360))
  /\ ~ 0 <= 360 < 360.
Proof.
  cbv zeta.
  assert (Hmov : gt_opt (Some 5) (1 / 10) = Ok true).
  { unfold gt_opt. destruct (Rlt_dec (1 / 10) 5); [reflexivity | lra]. }
  split; [reflexivity|]. split; [lra|]. split; [exact Hmov|].
  split; [|lra].
  unfold update_yaw.
  cbn [individual set_has_yaw_rate has_yaw has_yaw_rate has_speed].
  rewrite Hmov. cbn [bind].
  replace (0 + - / 10 ^ 13 * (1 / 10)) with (- / 10 ^ 14) by lra.
  rewrite py_mod_360_reached. reflexivity.
Qed.

End Kinematics_Facts.

(** ** The acceleration law *)

(** Decides the comparisons of a closed term, innermost first. *)
Ltac r_decide_with a b dec :=
  first
    [ let H := fresh in
      assert (H : a < b) by lra;
      destruct dec as [_ | ?]; [clear H | contradiction]
    | let H := fresh in
      assert (H : ~ a < b) by lra;
      destruct dec as [? | _]; [contradiction | clear H] ].

Ltac r_decide :=
  repeat match goal with
    | |- context [Rlt_dec ?a ?b] => r_decide_with a b (Rlt_dec a b)
    | |- context [Rle_dec ?a ?b] =>
        first
          [ let H := fresh in
            assert (H : a <= b) by lra;
            destruct (Rle_dec a b) as [_ | ?]; [clear H | contradiction]
          | let H := fresh in
            assert (H : ~ a <= b) by lra;
            destruct (Rle_dec a b) as [? | _]; [contradiction | clear H] ]
    | |- context [Req_dec_T ?a ?b] =>
        first
          [ let H := fresh in
            assert (H : a = b) by lra;
            destruct (Req_dec_T a b) as [_ | ?]; [clear H | contradiction]
          | let H := fresh in
            assert (H : a <> b) by lra;
            destruct (Req_dec_T a b) as [? | _]; [contradiction | clear H] ]
    end.

Lemma effective_distance_pos (d : R) : 0 <= d -> 0 < effective_distance d.
Proof. intros H. unfold effective_distance. destruct (Req_dec_T d 0); lra. Qed.

Lemma sq_div_nonneg (x d : R) : 0 < d -> 0 <= x ^ 2 / d.
Proof.
  intros Hd. apply Rmult_le_pos.
  - apply pow2_ge_0.
  - left. apply Rinv_0_lt_compat. exact Hd.
Qed.

Lemma sq_div_pos (x d : R) : 0 < d -> x <> 0 -> 0 < x ^ 2 / d.
Proof.
  intros Hd Hx. apply Rmult_lt_0_compat.
  - assert (0 < x * x) by (destruct (Rlt_dec x 0); nra). nra.
  - apply Rinv_0_lt_compat. exact Hd.
Qed.

(** What [_get_new_acceleration] computes before the maximum-speed test,
    for a resolvable target speed and well-signed capability bounds. *)
Lemma command_is_clamped (v ts d D A : R) :
  0 < d -> D <= 0 <= A ->
  (if Rlt_dec 0 (if Rlt_dec (ts - v) 0
                 then py_max (- ((ts - v) ^ 2 / d)) D
                 else (ts - v) ^ 2 / d)
   then py_min (if Rlt_dec (ts - v) 0
                then py_max (- ((ts - v) ^ 2 / d)) D
                else (ts - v) ^ 2 / d) A
   else if Rlt_dec (ts - v) 0
        then py_max (- ((ts - v) ^ 2 / d)) D
        else (ts - v) ^ 2 / d)
  = clamped_command v ts d D A.
Proof.
  intros Hd [HD HA]. unfold clamped_command, sign.
  rewrite !py_max_Rmax.
  destruct (Rlt_dec (ts - v) 0) as [Hneg | Hnneg].
  - pose proof (sq_div_nonneg (ts - v) d Hd) as Hq.
    replace (-1 * (ts - v) ^ 2 / d) with (- ((ts - v) ^ 2 / d)) by (field; lra).
    set (q := (ts - v) ^ 2 / d) in *.
    assert (Hm : Rmax (- q) D <= 0) by (apply Rmax_lub; lra).
    destruct (Rlt_dec 0 (Rmax (- q) D)); [lra|].
    rewrite Rmin_left by lra. reflexivity.
  - destruct (Rlt_dec 0 (ts - v)) as [Hpos | Hzero].
    + pose proof (sq_div_pos (ts - v) d Hd ltac:(lra)) as Hq.
      replace (1 * (ts - v) ^ 2 / d) with ((ts - v) ^ 2 / d) by (field; lra).
      set (q := (ts - v) ^ 2 / d) in *.
      destruct (Rlt_dec 0 q); [|lra].
      rewrite py_min_Rmin. rewrite (Rmax_left q D) by lra. reflexivity.
    + assert (Hz : ts - v = 0) by lra. rewrite Hz.
      replace (0 ^ 2 / d) with 0 by (field; lra).
      replace (0 * 0 ^ 2 / d) with 0 by (field; lra).
      destruct (Rlt_dec 0 0); [lra|].
      rewrite (Rmax_left 0 D) by lra. rewrite Rmin_left by lra. reflexivity.
Qed.

(** C4, as amended.  For a resolvable target speed, a non-negative distance
    and capability bounds with [max_deceleration <= 0 <= max_acceleration],
    the commanded acceleration is [sign(dv) * dv^2 / distance] clamped to
    [[max_deceleration, max_acceleration]], where [dv = target_speed - speed]
    and a zero distance is replaced by 0.001; a positive command is forced
    to 0 when the speed is strictly above the maximum speed, and is kept
    when the speed is at most the maximum speed. *)
Theorem get_new_acceleration_spec (self : Agent) (v ts d los : R) :
  has_speed self = Some v ->
  0 <= d ->
  get_maximum_deceleration self <= 0 <= get_maximum_acceleration self ->
  let c := clamped_command v ts (effective_distance d)
             (get_maximum_deceleration self) (get_maximum_acceleration self) in
  get_maximum_deceleration self <= c <= get_maximum_acceleration self
  /\ _get_new_acceleration self (Some ts) (Some d) los
     = Ok (if Rlt_dec 0 c
           then if Rlt_dec (get_maximum_speed self) v then 0 else c
           else c).
Proof.
  intros Hv Hd Hsigns c. split.
  - subst c. unfold clamped_command. split.
    + apply Rmin_glb; [apply Rmax_r | lra].
    + apply Rmin_r.
  - unfold _get_new_acceleration. rewrite Hv. cbv zeta.
    rewrite (command_is_clamped v ts (effective_distance d) _ _
               (effective_distance_pos d Hd) Hsigns).
    fold c. destruct (Rlt_dec 0 c); [|reflexivity].
    unfold has_reached_maximum_speed, gt_opt. rewrite Hv. cbn.
    destruct (Rlt_dec (get_maximum_speed self) v); reflexivity.
Qed.

Lemma capabilities_resolved (v yaw ms ma md : R) :
  let a := individual v yaw (capabilities [ms] [ma] [md]) in
  get_maximum_speed a = ms /\ get_maximum_acceleration a = ma
  /\ get_maximum_deceleration a = md.
Proof. repeat split. Qed.

(** C4 fails as worded.  (1) An agent driving at exactly its maximum speed
    of 10 with a target speed of 12 at distance 4 is commanded 1, not 0.
    (2) An agent at its target speed whose maximum deceleration is declared
    as the positive number 2 is commanded 0, where clamping to [[2, 3]]
    gives 2. *)
Lemma get_new_acceleration_not_as_claimed :
  (let a := individual 10 0 (capabilities [10] [3] [-8]) in
   _get_new_acceleration a (Some 12) (Some 4) 0 = Ok 1
   /\ claimed_acceleration a 10 12 4 = 0)
  /\ (let a := individual 5 0 (capabilities [10] [3] [2]) in
      _get_new_acceleration a (Some 5) (Some 4) 0 = Ok 0
      /\ claimed_acceleration a 5 5 4 = 2).
Proof.
  split; cbv zeta.
  - split.
    + unfold _get_new_acceleration, has_reached_maximum_speed, gt_opt.
      destruct (capabilities_resolved 10 0 10 3 (-8)) as (-> & -> & ->).
      cbn [has_speed individual bind]. unfold effective_distance, py_min, py_max.
      r_decide. first [reflexivity | f_equal; lra].
    + unfold claimed_acceleration.
      destruct (capabilities_resolved 10 0 10 3 (-8)) as (-> & -> & ->).
      unfold clamped_command, effective_distance, sign, Rmin, Rmax.
      r_decide; lra.
  - split.
    + unfold _get_new_acceleration, has_reached_maximum_speed, gt_opt.
      destruct (capabilities_resolved 5 0 10 3 2) as (-> & -> & ->).
      cbn [has_speed individual bind]. unfold effective_distance, py_min, py_max.
      r_decide. first [reflexivity | f_equal; lra].
    + unfold claimed_acceleration.
      destruct (capabilities_resolved 5 0 10 3 2) as (-> & -> & ->).
      unfold clamped_command, effective_distance, sign, Rmin, Rmax.
      r_decide; lra.
Qed.

(** ** Capability resolution *)

Lemma flat_map_const_nil {A B : Type} (l : list A) :
  flat_map (fun _ : A => @nil B) l = [].
Proof. induction l; cbn; auto. Qed.

Lemma flat_map_all_nil {A B : Type} (f : A -> list B) (l : list A) :
  Forall (fun x => f x = []) l -> flat_map f l = [].
Proof.
  induction 1 as [| x l Hx _ IH]; cbn; [reflexivity|].
  rewrite Hx, IH. reflexivity.
Qed.

Lemma get_optimized_attr_undeclared (self : Agent) (attr : Capability)
    (opt_func : R -> R -> R) :
  undeclared self attr -> get_optimized_attr self attr opt_func = 0.
Proof.
  intros (Hown & Hcls & Hveh). unfold get_optimized_attr.
  unfold own_values in Hown.
  destruct (own_attr self attr) as [own |]; [|reflexivity].
  subst own. rewrite flat_map_const_nil. rewrite Hcls.
  rewrite (flat_map_all_nil _ _ Hveh). reflexivity.
Qed.

(** C10, as amended.  When no maximum deceleration is asserted on the
    agent itself nor declared on its type ancestry or on that of a driven
    vehicle, the capability resolves to 0.  Then, for a resolvable target
    speed and a non-negative distance: a target speed below the current
    speed is answered by the command [max(-ac, 0) = 0], and with a
    non-negative maximum acceleration the command is never negative. *)
Theorem no_deceleration_never_brakes (self : Agent) (v ts d los : R) :
  undeclared self has_maximum_deceleration ->
  has_speed self = Some v ->
  0 <= d ->
  get_maximum_deceleration self = 0
  /\ (exists ac, _get_new_acceleration self (Some ts) (Some d) los = Ok ac
      /\ (ts < v -> ac = 0)
      /\ (0 <= get_maximum_acceleration self -> 0 <= ac)).
Proof.
  intros Hno Hv Hd.
  assert (HD : get_maximum_deceleration self = 0)
    by (apply get_optimized_attr_undeclared; exact Hno).
  split; [exact HD|].
  unfold _get_new_acceleration. rewrite Hv, HD. cbv zeta.
  pose proof (effective_distance_pos d Hd) as Hpos.
  pose proof (sq_div_nonneg (ts - v) _ Hpos) as Hq.
  set (q := (ts - v) ^ 2 / effective_distance d) in *.
  set (A := get_maximum_acceleration self).
  unfold has_reached_maximum_speed, gt_opt. rewrite Hv. cbn [bind].
  destruct (Rlt_dec (ts - v) 0) as [Hbrake | Hnobrake].
  - assert (Hm : py_max (- q) 0 = 0).
    { unfold py_max. destruct (Rlt_dec (- q) 0); lra. }
    rewrite Hm. r_decide.
    exists 0. repeat split; intros; lra.
  - destruct (Rlt_dec 0 q) as [Hqpos | Hqz].
    + destruct (Rlt_dec 0 (py_min q A)) as [Hp | Hnp].
      * eexists. split; [reflexivity|].
        split; [intros; lra|]. intros _.
        destruct (Rlt_dec (get_maximum_speed self) v); lra.
      * eexists. split; [reflexivity|].
        split; [intros; lra|]. intros HA.
        unfold py_min in *. destruct (Rlt_dec A q); lra.
    + destruct (Rlt_dec 0 q); [lra|].
      exists q. repeat split; intros; lra.
Qed.

(** C10 fails as worded.  (1) An agent whose classes declare no maximum
    deceleration but which itself carries the value -5 resolves to -5 and
    is commanded -5 when told to stop from speed 10.  (2) With nothing
    declared at all, an unresolvable target speed is answered by
    [-speed^2 / distance = -10].  (3) With nothing declared and a maximum
    acceleration of -1, speeding up from rest is answered by -1. *)
Lemma no_deceleration_not_as_claimed :
  (let a := individual 10 0 (capabilities [] [3] [-5]) in
   class_values has_maximum_deceleration (INDIRECT_is_a a) = []
   /\ get_maximum_deceleration a = -5
   /\ _get_new_acceleration a (Some 0) (Some 10) 0 = Ok (-5))
  /\ (let a := individual 10 0 (capabilities [] [3] []) in
      undeclared a has_maximum_deceleration
      /\ _get_new_acceleration a None (Some 10) 0 = Ok (-10))
  /\ (let a := individual 0 0 (capabilities [] [-1] []) in
      undeclared a has_maximum_deceleration
      /\ _get_new_acceleration a (Some 10) (Some 10) 0 = Ok (-1)).
Proof.
  assert (Hres : forall v ms ma md,
    let a := individual v 0 (capabilities ms [ma] [md]) in
    get_maximum_acceleration a = ma /\ get_maximum_deceleration a = md)
    by (intros; split; reflexivity).
  assert (Hno : forall v ms ma,
    undeclared (individual v 0 (capabilities ms ma [])) has_maximum_deceleration)
    by (intros; repeat split; constructor).
  split; [|split]; cbv zeta.
  - split; [reflexivity|]. split; [reflexivity|].
    unfold _get_new_acceleration.
    destruct (Hres 10 (@nil R) 3 (-5)) as (-> & ->).
    cbn [has_speed individual bind]. unfold effective_distance, py_min, py_max.
    r_decide. first [reflexivity | f_equal; lra].
  - split; [apply Hno|].
    unfold _get_new_acceleration.
    cbn [has_speed individual bind]. unfold effective_distance.
    r_decide. first [reflexivity | f_equal; lra].
  - split; [apply Hno|].
    unfold _get_new_acceleration.
    replace (get_maximum_deceleration (individual 0 0 (capabilities [] [-1] [])))
      with 0 by reflexivity.
    replace (get_maximum_acceleration (individual 0 0 (capabilities [] [-1] [])))
      with (-1) by reflexivity.
    cbn [has_speed individual bind]. unfold effective_distance, py_min, py_max.
    r_decide. first [reflexivity | f_equal; lra].
Qed.

(** ** Position update *)

Lemma py_mod_small (x m : R) : 0 <= x < m -> py_mod x m = x.
Proof.
  intros [Hlo Hhi].
  assert (Hm : 0 < m) by lra.
  rewrite (py_mod_nonneg x m Hm Hlo).
  assert (Hk : Int_part (x / m) = 0%Z).
  { symmetry. apply Int_part_spec. cbn.
    assert (0 <= x / m) by (apply Rmult_le_pos; [lra | left; apply Rinv_0_lt_compat; lra]).
    assert (x / m < 1).
    { apply (Rmult_lt_reg_r m); [lra|].
      replace (x / m * m) with x by (field; lra). lra. }
    lra. }
  rewrite Hk. cbn. lra.
Qed.

(** For a yaw in [[0, 360)] the direction [inv_yaw] is the reversed
    heading. *)
Lemma inv_yaw_reversed (yaw : R) :
  0 <= yaw < 360 ->
  py_mod (radians (yaw + 180)) 360 = radians yaw + PI.
Proof.
  intros [Hlo Hhi].
  assert (Heq : radians (yaw + 180) = radians yaw + PI)
    by (unfold radians; field).
  rewrite Heq. apply py_mod_small.
  pose proof PI_RGT_0. pose proof PI_4.
  unfold radians. split; nra.
Qed.

Lemma displacement_magnitude (yaw v delta_t : R) :
  sqrt ((cos (radians yaw) * v * delta_t) ^ 2
        + (sin (radians yaw) * v * delta_t) ^ 2) = Rabs (v * delta_t).
Proof.
  pose proof (sin2_cos2 (radians yaw)) as H. unfold Rsqr in H.
  replace ((cos (radians yaw) * v * delta_t) ^ 2
           + (sin (radians yaw) * v * delta_t) ^ 2)
    with (Rsqr (v * delta_t)).
  - apply sqrt_Rsqr_abs.
  - unfold Rsqr. nra.
Qed.

Section Position_Facts.

Variable eps : R.
Variable centroid : Geometry -> Point.

(** C9, as amended.  When the new speed exceeds the relevant lowest
    speed (and yaw and geometry are defined, the new yaw in [[0, 360)]),
    [update_position] rotates the footprint by [yaw' - yaw] about the
    pivot and then translates it by [speed' * delta_t] along the new yaw;
    the displacement has magnitude [|speed' * delta_t|].  The pivot lies
    [0.4 * length] behind the centroid of the reference footprint (that of
    the first driven vehicle, else the agent's own) along the new heading
    when that footprint is a polygon, and is its centroid otherwise. *)
Theorem update_position_spec (self prev_self : Agent)
    (delta_t yaw' yaw v : R) (s_geo : Geometry) :
  has_yaw self = Some yaw' ->
  0 <= yaw' < 360 ->
  has_speed self = Some v ->
  eps < v ->
  hasGeometry self = Some s_geo ->
  has_yaw prev_self = Some yaw ->
  let heading := (cos (radians yaw'), sin (radians yaw')) in
  let d_geo := match drives self with
               | veh :: _ => veh_geometry veh
               | [] => s_geo
               end in
  let pivot :=
    match d_geo with
    | Polygon _ =>
        (fst (centroid d_geo) - 4 / 10 * footprint_length self * fst heading,
         snd (centroid d_geo) - 4 / 10 * footprint_length self * snd heading)
    | OtherGeometry _ => centroid d_geo
    end in
  let xoff := v * delta_t * fst heading in
  let yoff := v * delta_t * snd heading in
  update_position eps centroid self prev_self delta_t
  = Ok (set_hasGeometry self
          (Some (translate (rotate s_geo (yaw' - yaw) pivot) xoff yoff)))
  /\ sqrt (xoff ^ 2 + yoff ^ 2) = Rabs (v * delta_t).
Proof.
  intros Hyaw' Hrange Hv Hmov Hgeo Hyaw heading d_geo pivot xoff yoff.
  split.
  - unfold update_position. rewrite Hyaw', Hv, Hgeo, Hyaw.
    destruct (Rlt_dec eps v) as [_ | Hn]; [|contradiction].
    fold d_geo.
    assert (Hpivot : rotation_center centroid self yaw' d_geo = pivot).
    { unfold rotation_center, pivot.
      destruct d_geo; [|reflexivity].
      rewrite (inv_yaw_reversed yaw' Hrange), neg_cos, neg_sin.
      subst heading. cbn [fst snd]. f_equal; ring. }
    rewrite Hpivot.
    replace (cos (radians yaw') * v * delta_t) with xoff
      by (subst xoff heading; cbn [fst snd]; ring).
    replace (sin (radians yaw') * v * delta_t) with yoff
      by (subst yoff heading; cbn [fst snd]; ring).
    reflexivity.
  - subst xoff yoff heading. cbn [fst snd].
    rewrite <- (displacement_magnitude yaw' v delta_t).
    f_equal. ring.
Qed.

End Position_Facts.

(** C9 fails as worded: with a relevant lowest speed of 0.1, an agent whose
    new speed is the positive 0.05 is not moved at all. *)
Lemma update_position_slow_agent_stays :
  let self := individual (1 / 20) 0 (capabilities [] [] []) in
  0 < 1 / 20
  /\ update_position (1 / 10) vertex_mean self self 1 = Ok self.
Proof.
  cbv zeta. split; [lra|].
  unfold update_position. cbn [has_yaw has_speed hasGeometry individual].
  r_decide. reflexivity.
Qed.

(** ** Sorting by a textual key *)

Section Sorted_By_Key_Facts.

Variable A : Type.
Variable key : A -> string.

Let key_lt (a b : A) : Prop := String_as_OT.lt (key a) (key b).

Lemma str_ltb_spec (a b : A) : str_ltb key a b = true <-> key_lt a b.
Proof.
  unfold str_ltb, key_lt, String_as_OT.lt.
  destruct (String_as_OT.compare (key a) (key b)); split; congruence.
Qed.

Lemma key_lt_trans (a b c : A) : key_lt a b -> key_lt b c -> key_lt a c.
Proof. unfold key_lt. apply String_as_OT.lt_strorder. Qed.

Lemma key_lt_irrefl (a : A) : ~ key_lt a a.
Proof. unfold key_lt. apply String_as_OT.lt_strorder. Qed.

Lemma key_lt_total (a b : A) : key a <> key b -> key_lt a b \/ key_lt b a.
Proof.
  intros Hne. unfold key_lt.
  destruct (String_as_OT.compare_spec (key a) (key b)) as [Heq | Hlt | Hgt].
  - contradiction.
  - left. exact Hlt.
  - right. exact Hgt.
Qed.

Lemma insert_sorted_perm (ltb : A -> A -> bool) (x : A) (l : list A) :
  Permutation (insert_sorted ltb x l) (x :: l).
Proof.
  induction l as [| y l IH]; cbn.
  - apply Permutation_refl.
  - destruct (ltb y x).
    + apply perm_trans with (y :: x :: l).
      * apply perm_skip. exact IH.
      * apply perm_swap.
    + apply Permutation_refl.
Qed.

Lemma sorted_with_perm (ltb : A -> A -> bool) (l : list A) :
  Permutation (sorted_with ltb l) l.
Proof.
  induction l as [| x l IH]; cbn.
  - apply Permutation_refl.
  - apply perm_trans with (x :: sorted_with ltb l).
    + apply insert_sorted_perm.
    + apply perm_skip. exact IH.
Qed.

Lemma insert_strongly_sorted (x : A) (l : list A) :
  StronglySorted key_lt l ->
  ~ In (key x) (map key l) ->
  StronglySorted key_lt (insert_sorted (str_ltb key) x l).
Proof.
  induction 1 as [| y l Hl IH Hy]; intros Hnew; cbn.
  - constructor; constructor.
  - cbn in Hnew.
    destruct (str_ltb key y x) eqn:Hyx.
    + apply str_ltb_spec in Hyx. constructor.
      * apply IH. tauto.
      * eapply Permutation_Forall.
        -- apply Permutation_sym, insert_sorted_perm.
        -- constructor; assumption.
    + assert (Hxy : key_lt x y).
      { destruct (key_lt_total x y) as [H | H]; [intuition congruence | exact H |].
        apply str_ltb_spec in H. congruence. }
      constructor.
      * constructor; assumption.
      * constructor; [exact Hxy|].
        eapply Forall_impl; [|exact Hy].
        intros z Hz. eapply key_lt_trans; eassumption.
Qed.

Lemma sorted_by_key_strongly_sorted (l : list A) :
  NoDup (map key l) ->
  StronglySorted key_lt (sorted_by_key key l).
Proof.
  unfold sorted_by_key.
  induction l as [| x l IH]; cbn; intros Hnd.
  - constructor.
  - inversion Hnd as [| ? ? Hnotin Hnd']; subst.
    apply insert_strongly_sorted.
    + apply IH. exact Hnd'.
    + intros Hin. apply Hnotin.
      eapply Permutation_in; [|exact Hin].
      apply Permutation_map, sorted_with_perm.
Qed.

Lemma strongly_sorted_unique (l1 l2 : list A) :
  StronglySorted key_lt l1 ->
  StronglySorted key_lt l2 ->
  Permutation l1 l2 ->
  l1 = l2.
Proof.
  intros H1. revert l2.
  induction H1 as [| a l1 Hs1 IH Ha]; intros l2 H2 Hperm.
  - apply Permutation_nil in Hperm. congruence.
  - destruct H2 as [| b l2 Hs2 Hb].
    + apply Permutation_sym, Permutation_nil in Hperm. discriminate.
    + assert (Hab : a = b).
      { assert (Hin_a : In a (b :: l2))
          by (eapply Permutation_in; [exact Hperm | left; reflexivity]).
        assert (Hin_b : In b (a :: l1))
          by (eapply Permutation_in;
              [apply Permutation_sym; exact Hperm | left; reflexivity]).
        destruct Hin_a as [Heq | Hin_a]; [congruence|].
        destruct Hin_b as [Heq | Hin_b]; [congruence|].
        rewrite Forall_forall in Ha, Hb.
        exfalso. apply (key_lt_irrefl a).
        eapply key_lt_trans; [apply Ha | apply Hb]; assumption. }
      subst b. f_equal. apply IH; [exact Hs2|].
      eapply Permutation_cons_inv. exact Hperm.
Qed.

(** Sorting by a key without duplicates forgets the order in which the
    elements were handed over. *)
Lemma sorted_by_key_perm_eq (l1 l2 : list A) :
  Permutation l1 l2 ->
  NoDup (map key l1) ->
  sorted_by_key key l1 = sorted_by_key key l2.
Proof.
  intros Hperm Hnd.
  apply strongly_sorted_unique.
  - apply sorted_by_key_strongly_sorted. exact Hnd.
  - apply sorted_by_key_strongly_sorted.
    eapply Permutation_NoDup; [|exact Hnd].
    apply Permutation_map. exact Hperm.
  - unfold sorted_by_key.
    eapply perm_trans; [apply sorted_with_perm|].
    eapply perm_trans; [exact Hperm|].
    apply Permutation_sym, sorted_with_perm.
Qed.

End Sorted_By_Key_Facts.

(** ** Reproducibility of the driver's tick *)

Section Reproducibility.

Variable RNG : Type.
Variable K : Driver.Constants.
Variable W : Driver.World RNG.
Variables succ1 succ2 : Lane -> list Lane.

Hypothesis same_successors : forall l, Permutation (succ1 l) (succ2 l).
Hypothesis stable_identifiers : forall l, NoDup (map lane_str (succ1 l)).

Let W1 := Driver.with_successors W succ1.
Let W2 := Driver.with_successors W succ2.

Lemma get_next_lane_reproducible (self : Driver.State)
    (cur_lane : option Lane) (rng : RNG) :
  Driver._get_next_lane W1 self cur_lane rng
  = Driver._get_next_lane W2 self cur_lane rng.
Proof.
  unfold Driver._get_next_lane.
  destruct (Driver.next_lane_memo self); [reflexivity|].
  destruct (Driver.next_lane self); [reflexivity|].
  destruct cur_lane as [cur |]; [|reflexivity].
  cbn [Driver.has_successor_lane Driver.randbelow W1 W2 Driver.with_successors].
  pose proof (same_successors cur) as Hperm.
  pose proof (stable_identifiers cur) as Hnd.
  pose proof (sorted_by_key_perm_eq _ lane_str _ _ Hperm Hnd) as Hsort.
  pose proof (Permutation_length Hperm) as Hlen.
  destruct (succ1 cur) as [| a l1], (succ2 cur) as [| b l2].
  - reflexivity.
  - apply Permutation_nil in Hperm. discriminate.
  - apply Permutation_sym, Permutation_nil in Hperm. discriminate.
  - rewrite Hsort, Hlen. reflexivity.
Qed.

Lemma update_state_reproducible (self new_self : Driver.State)
    (cur_lane : option Lane) (rng : RNG) :
  Driver.update_state K W1 self new_self cur_lane rng
  = Driver.update_state K W2 self new_self cur_lane rng.
Proof.
  unfold Driver.update_state, Driver.update_driving_mode.
  rewrite get_next_lane_reproducible. reflexivity.
Qed.

Lemma target_by_mode_reproducible (self new_self : Driver.State)
    (cur_lane : option Lane) (rng : RNG) :
  Driver.target_by_mode K W1 self new_self cur_lane rng
  = Driver.target_by_mode K W2 self new_self cur_lane rng.
Proof.
  unfold Driver.target_by_mode, Driver.set_turn_signal.
  rewrite get_next_lane_reproducible.
  destruct (Driver._get_next_lane W2 self cur_lane rng) as [[[suc s] g] | e];
    cbn [bind]; [|reflexivity].
  rewrite get_next_lane_reproducible. reflexivity.
Qed.

Lemma get_target_reproducible (distance_to : Geometry -> Point -> R)
    (self new_self : Driver.State) (rng : RNG) :
  Driver.get_target K W1 distance_to self new_self rng
  = Driver.get_target K W2 distance_to self new_self rng.
Proof.
  unfold Driver.get_target.
  rewrite update_state_reproducible.
  change (Driver.get_current_lane W1) with (Driver.get_current_lane W2).
  destruct (Driver.update_state K W2 self new_self
              (Driver.get_current_lane W2) rng) as [[[s n] g] | e];
    cbn [bind]; [|reflexivity].
  rewrite target_by_mode_reproducible. reflexivity.
Qed.

(** C3.  Two runs of [simulate] on the same driver, from the same
    previous-tick snapshot, tick duration and state of the seeded random
    source, give the same result: the same next-tick individual with its
    mode fields and integrated speed, yaw and position, the same target
    point and distance, the same target speed, and the same state of the
    random source.  The runs may be handed the successor lanes in any
    order: the choice among them is made from the candidates sorted by
    their textual identifier. *)
Theorem simulate_reproducible
    (distance_to : Geometry -> Point -> R)
    (_RELEVANT_LOWEST_SPEED _MAX_DISTANCE_FOR_TURNING : R)
    (_get_yaw_rate_smoothing_factor : R -> R)
    (centroid : Geometry -> Point)
    (compute_angle_between_yaw_and_point : Agent -> Point -> R)
    (is_point_right_of : Agent -> Point -> bool)
    (line_of_sight_distance : Agent -> Point -> R)
    (self new_self : Driver.State) (delta_t : R) (rng : RNG) :
  Driver.simulate K W1 distance_to _RELEVANT_LOWEST_SPEED
    _MAX_DISTANCE_FOR_TURNING _get_yaw_rate_smoothing_factor centroid
    compute_angle_between_yaw_and_point is_point_right_of
    line_of_sight_distance self new_self delta_t rng
  = Driver.simulate K W2 distance_to _RELEVANT_LOWEST_SPEED
      _MAX_DISTANCE_FOR_TURNING _get_yaw_rate_smoothing_factor centroid
      compute_angle_between_yaw_and_point is_point_right_of
      line_of_sight_distance self new_self delta_t rng
  /\ Driver.get_target K W1 distance_to self new_self rng
     = Driver.get_target K W2 distance_to self new_self rng
  /\ (forall s n : Driver.State,
      Driver.get_target_speed K W1 s n = Driver.get_target_speed K W2 s n)
  /\ (forall cur_lane : option Lane,
      Driver._get_next_lane W1 self cur_lane rng
      = Driver._get_next_lane W2 self cur_lane rng).
Proof.
  split; [|split; [|split]].
  - unfold Driver.simulate. rewrite get_target_reproducible. reflexivity.
  - apply get_target_reproducible.
  - reflexivity.
  - intros cur_lane. apply get_next_lane_reproducible.
Qed.

End Reproducibility.

(** ** Conflict retention of the driver *)

Lemma Rleb_true (a b : R) : Rleb a b = true <-> a <= b.
Proof. unfold Rleb. destruct (Rle_dec a b); split; auto; discriminate. Qed.

Lemma Rltb_true (a b : R) : Rltb a b = true <-> a < b.
Proof. unfold Rltb. destruct (Rlt_dec a b); split; auto; discriminate. Qed.

Section Conflict_Retention.

Variable RNG : Type.
Variable K : Driver.Constants.
Variable W : Driver.World RNG.

Lemma accepts_true (r : Driver.Retained) (c : Candidate) :
  Driver.accepts K W r c = Ok true -> acceptable K W r c.
Proof.
  unfold Driver.accepts, acceptable.
  destruct (cand_t_self c) as [t_self |]; [|discriminate].
  destruct (cand_t_other c) as [t_other |]; [|discriminate].
  destruct (Rleb (t_self + t_other) _) eqn:Hsum; cbn [andb]; [|discriminate].
  destruct (Rleb 0 (t_self - t_other)) eqn:Hlo; cbn [andb]; [|discriminate].
  destruct (Rleb (t_self - t_other) _) eqn:Hhi; [|discriminate].
  apply Rleb_true in Hsum, Hlo, Hhi.
  intros Hacc. exists t_self, t_other.
  split; [reflexivity|]. split; [reflexivity|].
  split; [exact Hsum|]. split; [split; assumption|].
  destruct (Driver.tti_self r) as [s |].
  - destruct (Driver.tti_object r) as [o |]; [|discriminate].
    cbn [bind] in Hacc. injection Hacc as Hacc.
    apply andb_prop in Hacc as [Hlt Hfront]. apply Rltb_true in Hlt.
    split; [|exact Hfront].
    intros s' o' Hs Ho. injection Hs as <-. injection Ho as <-. exact Hlt.
  - cbn [bind andb] in Hacc. injection Hacc as Hacc.
    split; [|exact Hacc]. intros s o Hs. discriminate.
Qed.

(** The loop ends with the conflict it started with, or with the last
    candidate it took. *)
Lemma scan_candidates_result (feed : list Candidate) :
  forall r r' : Driver.Retained,
    Driver.scan_candidates K W r feed = Ok r' ->
    r' = r
    \/ exists pre c post before,
         feed = pre ++ c :: post
         /\ Driver.scan_candidates K W r pre = Ok before
         /\ Driver.accepts K W before c = Ok true
         /\ r' = Driver.retain c.
Proof.
  induction feed as [| c feed IH]; intros r r' Hscan; cbn in Hscan.
  - left. congruence.
  - destruct (Driver.accepts K W r c) as [take | e] eqn:Hacc; [|discriminate].
    cbn [bind] in Hscan.
    destruct (IH _ _ Hscan) as [Heq | (pre & c' & post & before & Hf & Hp & Ha & Hr)].
    + destruct take.
      * right. exists [], c, feed, r. repeat split; assumption.
      * left. exact Heq.
    + right. exists (c :: pre), c', post, before.
      split; [rewrite Hf; reflexivity|].
      split; [|split; assumption].
      cbn. rewrite Hacc. cbn [bind]. exact Hp.
Qed.

(** C5.  A driver without a retained conflict ends [get_intersecting_object]
    with a yield target only if that target is a candidate of the conflict
    feed for which: the two times to reach sum to at most the yielding
    horizon; the gap [t_self - t_other] is in [[0, max PET for braking]];
    the sum is strictly smaller than the total time of the conflict
    retained when the candidate was examined; and the intersection point
    lies in front of the agent. *)
Theorem conflict_accepted_only_if (self self' : Driver.State) (obj : nat) :
  Driver.intersecting_object (Driver.retained self) = None ->
  Driver.get_intersecting_object K W self = Ok self' ->
  Driver.intersecting_object (Driver.retained self') = Some obj ->
  exists pre c post before,
    Driver.get_intersecting_objects W = pre ++ c :: post
    /\ Driver.scan_candidates K W (Driver.retained self) pre = Ok before
    /\ Driver.retained self' = Driver.retain c
    /\ cand_obj c = obj
    /\ acceptable K W before c.
Proof.
  intros Hnone Hget Hobj. unfold Driver.get_intersecting_object in Hget.
  rewrite Hnone in Hget.
  destruct (drives (Driver.agent self)) as [| veh vehs].
  - injection Hget as <-. congruence.
  - destruct (Driver.scan_candidates K W (Driver.retained self)
                (Driver.get_intersecting_objects W)) as [r |] eqn:Hscan;
      [|discriminate].
    cbn [bind] in Hget. injection Hget as <-. cbn in Hobj |- *.
    destruct (scan_candidates_result _ _ _ Hscan)
      as [Heq | (pre & c & post & before & Hf & Hp & Ha & Hr)].
    + subst r. congruence.
    + exists pre, c, post, before. subst r. cbn in Hobj.
      repeat split; try assumption.
      * congruence.
      * apply accepts_true. exact Ha.
Qed.

End Conflict_Retention.

(** ** The undefined modes of the driver *)

Lemma raises_only_Ok {A : Type} (P : exn -> Prop) (a : A) :
  raises_only P (Ok a).
Proof. intros e H. discriminate. Qed.

Lemma raises_only_Raise {A : Type} (P : exn -> Prop) (e : exn) :
  P e -> raises_only P (@Raise A e).
Proof. intros HP e' H. injection H as <-. exact HP. Qed.

Lemma raises_only_bind {A B : Type} (P : exn -> Prop) (m : res A)
    (k : A -> res B) :
  raises_only P m ->
  (forall a, m = Ok a -> raises_only P (k a)) ->
  raises_only P (bind m k).
Proof.
  intros Hm Hk e. destruct m as [a | e']; cbn.
  - apply Hk. reflexivity.
  - intros H. injection H as <-. apply Hm. reflexivity.
Qed.

Lemma raises_only_weaken {A : Type} (P Q : exn -> Prop) (m : res A) :
  (forall e, P e -> Q e) -> raises_only P m -> raises_only Q m.
Proof. intros HPQ Hm e He. apply HPQ, Hm, He. Qed.

(** Walks through a definition built from [bind], [match] and [if]. *)
Ltac raises_step :=
  match goal with
  | |- raises_only _ (Ok _) => apply raises_only_Ok
  | |- raises_only _ (Raise _) =>
      apply raises_only_Raise; unfold ordinary; auto
  | |- raises_only _ (bind _ _) =>
      apply raises_only_bind; [| intros ? ?]
  | |- raises_only _ (match ?x with _ => _ end) => destruct x eqn:?
  | |- raises_only _ (let _ := _ in _) => cbv zeta
  end.

Ltac raises_walk := repeat raises_step.

Section Ordinary_Faults.

Variable _RELEVANT_LOWEST_SPEED : R.
Variable _MAX_DISTANCE_FOR_TURNING : R.
Variable _get_yaw_rate_smoothing_factor : R -> R.
Variable centroid : Geometry -> Point.
Variable distance_to : Geometry -> Point -> R.
Variable compute_angle_between_yaw_and_point : Agent -> Point -> R.
Variable is_point_right_of : Agent -> Point -> bool.
Variable line_of_sight_distance : Agent -> Point -> R.

Lemma get_new_yaw_rate_ordinary (self : Agent) (target : Point)
    (distance : option R) :
  raises_only ordinary
    (_get_new_yaw_rate _RELEVANT_LOWEST_SPEED _MAX_DISTANCE_FOR_TURNING
       _get_yaw_rate_smoothing_factor distance_to
       compute_angle_between_yaw_and_point is_point_right_of
       self target distance).
Proof.
  unfold _get_new_yaw_rate, _get_yaw_rate_to_reach_point, get_geometry.
  raises_walk.
Qed.

Lemma get_new_acceleration_ordinary (self : Agent) (ts d : option R) (los : R) :
  raises_only ordinary (_get_new_acceleration self ts d los).
Proof.
  unfold _get_new_acceleration, has_reached_maximum_speed, gt_opt.
  raises_walk.
Qed.

Lemma update_speed_ordinary (self prev_self : Agent) (delta_t : R) :
  raises_only ordinary (update_speed _RELEVANT_LOWEST_SPEED self prev_self delta_t).
Proof. unfold update_speed, lt_opt. raises_walk. Qed.

Lemma update_yaw_ordinary (self prev_self : Agent) (delta_t : R) :
  raises_only ordinary (update_yaw _RELEVANT_LOWEST_SPEED self prev_self delta_t).
Proof. unfold update_yaw, gt_opt. raises_walk. Qed.

Lemma update_position_ordinary (self prev_self : Agent) (delta_t : R) :
  raises_only ordinary
    (update_position _RELEVANT_LOWEST_SPEED centroid self prev_self delta_t).
Proof. unfold update_position. raises_walk. Qed.

(** The kinematic part of [simulate] raises an exception of its own only
    for an ordinary fault; any other one comes from [get_target_speed]. *)
Lemma simulate_from_target_faults (P : exn -> Prop) (self new_self : Agent)
    (target : Point) (distance : R) (get_target_speed : res (option R))
    (delta_t : R) :
  (forall e, ordinary e -> P e) ->
  raises_only P get_target_speed ->
  raises_only P
    (simulate_from_target _RELEVANT_LOWEST_SPEED _MAX_DISTANCE_FOR_TURNING
       _get_yaw_rate_smoothing_factor centroid distance_to
       compute_angle_between_yaw_and_point is_point_right_of
       line_of_sight_distance self new_self target distance
       get_target_speed delta_t).
Proof.
  intros Hord Hts. unfold simulate_from_target.
  apply raises_only_bind.
  { apply (raises_only_weaken ordinary); [exact Hord|].
    unfold gt_opt. raises_walk. }
  intros moving _. apply raises_only_bind.
  { destruct moving; [|apply raises_only_Ok].
    apply raises_only_bind; [|intros; apply raises_only_Ok].
    apply (raises_only_weaken ordinary); [exact Hord|].
    apply get_new_yaw_rate_ordinary. }
  intros new_self1 _. apply raises_only_bind; [exact Hts|].
  intros ts _. apply raises_only_bind.
  { apply (raises_only_weaken ordinary); [exact Hord|].
    apply get_new_acceleration_ordinary. }
  intros acc _. cbv zeta. apply raises_only_bind.
  { apply (raises_only_weaken ordinary); [exact Hord|].
    apply update_speed_ordinary. }
  intros a1 _. apply raises_only_bind.
  { apply (raises_only_weaken ordinary); [exact Hord|].
    apply update_yaw_ordinary. }
  intros a2 _.
  apply (raises_only_weaken ordinary); [exact Hord|].
  apply update_position_ordinary.
Qed.

End Ordinary_Faults.

(** Unfolds a hypothesis [m = Ok a] along the branches of [m]. *)
Ltac ok_cases H :=
  repeat match type of H with
    | Raise _ = Ok _ => discriminate H
    | bind ?m _ = Ok _ => destruct m eqn:?; cbn [bind] in H
    | (match ?x with _ => _ end) = Ok _ => destruct x eqn:?
    | (let _ := _ in _) = Ok _ => cbv zeta in H
    end.

Section Undefined_Modes.

Variable RNG : Type.
Variable K : Driver.Constants.
Variable W : Driver.World RNG.

Lemma accepts_ordinary (r : Driver.Retained) (c : Candidate) :
  raises_only ordinary (Driver.accepts K W r c).
Proof. unfold Driver.accepts. raises_walk. Qed.

Lemma scan_candidates_ordinary (feed : list Candidate) :
  forall r, raises_only ordinary (Driver.scan_candidates K W r feed).
Proof.
  induction feed as [| c feed IH]; intros r; cbn.
  - apply raises_only_Ok.
  - apply raises_only_bind; [apply accepts_ordinary|].
    intros take _. apply IH.
Qed.

Lemma get_intersecting_object_ordinary (self : Driver.State) :
  raises_only ordinary (Driver.get_intersecting_object K W self).
Proof.
  unfold Driver.get_intersecting_object.
  destruct (Driver.intersecting_object _); [apply raises_only_Ok|].
  destruct (drives _); [apply raises_only_Ok|].
  apply raises_only_bind; [apply scan_candidates_ordinary|].
  intros; apply raises_only_Ok.
Qed.

Lemma get_next_lane_ordinary (self : Driver.State) (cur_lane : option Lane)
    (rng : RNG) :
  raises_only ordinary (Driver._get_next_lane W self cur_lane rng).
Proof. unfold Driver._get_next_lane. raises_walk. Qed.

Lemma update_driving_mode_ordinary (self new_self : Driver.State)
    (cur_lane : option Lane) (rng : RNG) :
  raises_only ordinary (Driver.update_driving_mode W self new_self cur_lane rng).
Proof.
  unfold Driver.update_driving_mode.
  raises_walk; try apply get_next_lane_ordinary; raises_walk.
Qed.

Lemma update_driving_mode_defined (self new_self self' new_self' : Driver.State)
    (cur_lane : option Lane) (rng rng' : RNG) :
  Driver.update_driving_mode W self new_self cur_lane rng
  = Ok (self', new_self', rng') ->
  defined_driving_mode (Driver.driving_mode new_self').
Proof.
  unfold Driver.update_driving_mode, defined_driving_mode. intros H.
  ok_cases H; injection H as <- <- <-; cbn; discriminate.
Qed.

Lemma update_speed_mode_ordinary (self new_self : Driver.State) :
  raises_only ordinary (Driver.update_speed_mode K W self new_self).
Proof.
  unfold Driver.update_speed_mode.
  apply raises_only_bind; [apply get_intersecting_object_ordinary|].
  intros; apply raises_only_Ok.
Qed.

Lemma update_speed_mode_written (self new_self self' new_self' : Driver.State) :
  Driver.update_speed_mode K W self new_self = Ok (self', new_self') ->
  written_speed_mode (Driver.speed_mode new_self')
  /\ Driver.driving_mode new_self' = Driver.driving_mode new_self.
Proof.
  unfold Driver.update_speed_mode, written_speed_mode. intros H.
  destruct (Driver.get_intersecting_object K W self) as [s |]; [|discriminate].
  cbn [bind] in H. cbv zeta in H. injection H as _ <-.
  cbn [Driver.speed_mode Driver.driving_mode Driver.set_speed_mode].
  split.
  - repeat match goal with
      | |- context [if ?b then _ else _] => destruct b
      | |- context [match ?x with _ => _ end] => destruct x
      end; tauto.
  - destruct (match Driver.intersecting_object (Driver.retained s) with
              | Some o => _
              | None => false
              end); reflexivity.
Qed.

Lemma update_state_ordinary (self new_self : Driver.State)
    (cur_lane : option Lane) (rng : RNG) :
  raises_only ordinary (Driver.update_state K W self new_self cur_lane rng).
Proof.
  unfold Driver.update_state.
  apply raises_only_bind; [apply update_driving_mode_ordinary|].
  intros [[s n] g] _.
  apply raises_only_bind; [apply update_speed_mode_ordinary|].
  intros; apply raises_only_Ok.
Qed.

Lemma update_state_modes (self new_self self' new_self' : Driver.State)
    (cur_lane : option Lane) (rng rng' : RNG) :
  Driver.update_state K W self new_self cur_lane rng
  = Ok (self', new_self', rng') ->
  defined_driving_mode (Driver.driving_mode new_self')
  /\ written_speed_mode (Driver.speed_mode new_self').
Proof.
  unfold Driver.update_state. intros H.
  destruct (Driver.update_driving_mode W self new_self cur_lane rng)
    as [[[s n] g] |] eqn:Hdm; [|discriminate].
  cbn [bind] in H.
  destruct (Driver.update_speed_mode K W s n) as [[s2 n2] |] eqn:Hsm;
    [|discriminate].
  cbn in H. injection H as <- <- <-.
  apply update_driving_mode_defined in Hdm.
  apply update_speed_mode_written in Hsm as [Hw Heq].
  split; [rewrite Heq; exact Hdm | exact Hw].
Qed.

End Undefined_Modes.

Section Undefined_Modes_Unreachable.

Variable RNG : Type.
Variable K : Driver.Constants.
Variable W : Driver.World RNG.
Variable distance_to : Geometry -> Point -> R.
Variable _RELEVANT_LOWEST_SPEED : R.
Variable _MAX_DISTANCE_FOR_TURNING : R.
Variable _get_yaw_rate_smoothing_factor : R -> R.
Variable centroid : Geometry -> Point.
Variable compute_angle_between_yaw_and_point : Agent -> Point -> R.
Variable is_point_right_of : Agent -> Point -> bool.
Variable line_of_sight_distance : Agent -> Point -> R.

Lemma set_turn_signal_ordinary (self : Driver.State) (cur_lane : option Lane)
    (rng : RNG) :
  raises_only ordinary (Driver.set_turn_signal K W self cur_lane rng).
Proof.
  unfold Driver.set_turn_signal.
  apply raises_only_bind; [apply get_next_lane_ordinary|].
  intros [[suc s] g] _. raises_walk.
Qed.

Lemma target_by_mode_ordinary (self new_self : Driver.State)
    (cur_lane : option Lane) (rng : RNG) :
  defined_driving_mode (Driver.driving_mode new_self) ->
  raises_only ordinary (Driver.target_by_mode K W self new_self cur_lane rng).
Proof.
  unfold Driver.target_by_mode, defined_driving_mode. intros Hdef.
  destruct (negb _); [apply raises_only_Ok|].
  destruct (Driver.driving_mode new_self) eqn:Hmode;
    [raises_walk | | raises_walk | raises_walk | congruence].
  apply raises_only_bind; [apply get_next_lane_ordinary|].
  intros [[suc s] g] _. destruct suc; [|raises_walk].
  apply raises_only_bind; [apply set_turn_signal_ordinary|].
  intros; apply raises_only_Ok.
Qed.

Lemma target_distance_ordinary (self new_self : Driver.State) (t : Point) :
  raises_only ordinary (Driver.target_distance K W distance_to self new_self t).
Proof.
  unfold Driver.target_distance.
  apply raises_only_bind; [raises_walk|].
  intros g _. cbv zeta.
  destruct (Driver.speed_mode new_self); try apply raises_only_Ok.
  - raises_walk.
  - apply raises_only_bind; [apply get_intersecting_object_ordinary|].
    intros; apply raises_only_Ok.
Qed.

Lemma get_target_speed_ordinary (self new_self : Driver.State) :
  written_speed_mode (Driver.speed_mode new_self) ->
  raises_only ordinary (Driver.get_target_speed K W self new_self).
Proof.
  unfold Driver.get_target_speed, written_speed_mode. intros Hw.
  apply raises_only_bind; [|intros; raises_walk].
  destruct (Driver.speed_mode new_self);
    try (exfalso; intuition discriminate).
  - apply raises_only_Ok.
  - raises_walk.
  - apply raises_only_bind; [apply get_intersecting_object_ordinary|].
    intros; apply raises_only_Ok.
  - apply raises_only_Ok.
Qed.

Lemma not_ordinary_undefined :
  ~ ordinary UndefinedDrivingMode /\ ~ ordinary UndefinedSpeedMode.
Proof. unfold ordinary. split; intros [H | [H | H]]; discriminate. Qed.

Lemma simulate_ordinary (self new_self : Driver.State) (delta_t : R) (rng : RNG) :
  raises_only ordinary
    (Driver.simulate K W distance_to _RELEVANT_LOWEST_SPEED
       _MAX_DISTANCE_FOR_TURNING _get_yaw_rate_smoothing_factor centroid
       compute_angle_between_yaw_and_point is_point_right_of
       line_of_sight_distance self new_self delta_t rng).
Proof.
  unfold Driver.simulate, Driver.get_target.
  apply raises_only_bind.
  - apply raises_only_bind; [apply update_state_ordinary|].
    intros [[s n] g] Hupd. apply update_state_modes in Hupd as [Hdm _].
    apply raises_only_bind; [apply target_by_mode_ordinary; exact Hdm|].
    intros [[t s1] g1] _.
    apply raises_only_bind; [apply target_distance_ordinary|].
    intros [[t2 d] s2] _. apply raises_only_Ok.
  - intros [[[[t d] s] n] g] Hget.
    assert (Hw : written_speed_mode (Driver.speed_mode n)).
    { cbv zeta in Hget.
      destruct (Driver.update_state K W self new_self
                  (Driver.get_current_lane W) rng)
        as [[[s0 n0] g0] |] eqn:Hupd; [|discriminate].
      cbn [bind] in Hget.
      apply update_state_modes in Hupd as [_ Hw].
      destruct (Driver.target_by_mode K W s0 n0 (Driver.get_current_lane W) g0)
        as [[[t1 s1] g1] |]; [|discriminate].
      cbn [bind] in Hget.
      destruct (Driver.target_distance K W distance_to s1 n0 t1)
        as [[[t2 d2] s2] |]; [|discriminate].
      cbn [bind] in Hget. injection Hget as _ _ _ <- _. exact Hw. }
    apply raises_only_bind; [|intros; apply raises_only_Ok].
    apply simulate_from_target_faults; [auto|].
    apply get_target_speed_ordinary. exact Hw.
Qed.

(** C8.  When the driving mode read by the target derivation is
    [Undefined] the derivation raises, and when the speed mode read by
    [get_target_speed] is [Undefined] it raises and the tick does not
    complete: nothing is defaulted.  On every path on which [update_state]
    returns, it has written a driving mode other than [Undefined] and one
    of the speed modes [Following], [Yielding], [Stopping] and
    [Unrestricted] into the next-tick individual; and [simulate], which
    runs [update_state] first, never raises one of the two exceptions of
    the undefined modes. *)
Theorem undefined_modes_raise_and_are_unreachable :
  (forall (self new_self : Driver.State) (cur_lane : option Lane) (rng : RNG),
      Driver._intersects_some_road_infrastructure W = true ->
      Driver.driving_mode new_self = Driver.DrivingMode.Undefined ->
      Driver.target_by_mode K W self new_self cur_lane rng
      = Raise UndefinedDrivingMode)
  /\ (forall (self new_self : Driver.State),
      Driver.speed_mode new_self = Driver.SpeedMode.Undefined ->
      Driver.get_target_speed K W self new_self = Raise UndefinedSpeedMode
      /\ forall (a new_a : Agent) (t : Point) (d delta_t : R),
           exists e,
             simulate_from_target _RELEVANT_LOWEST_SPEED
               _MAX_DISTANCE_FOR_TURNING _get_yaw_rate_smoothing_factor
               centroid distance_to compute_angle_between_yaw_and_point
               is_point_right_of line_of_sight_distance a new_a t d
               (Driver.get_target_speed K W self new_self) delta_t
             = Raise e)
  /\ (forall (self new_self self' new_self' : Driver.State)
             (cur_lane : option Lane) (rng rng' : RNG),
      Driver.update_state K W self new_self cur_lane rng
      = Ok (self', new_self', rng') ->
      Driver.driving_mode new_self' <> Driver.DrivingMode.Undefined
      /\ written_speed_mode (Driver.speed_mode new_self'))
  /\ (forall (self new_self : Driver.State) (delta_t : R) (rng : RNG),
      let run := Driver.simulate K W distance_to _RELEVANT_LOWEST_SPEED
                   _MAX_DISTANCE_FOR_TURNING _get_yaw_rate_smoothing_factor
                   centroid compute_angle_between_yaw_and_point
                   is_point_right_of line_of_sight_distance
                   self new_self delta_t rng in
      run <> Raise UndefinedDrivingMode /\ run <> Raise UndefinedSpeedMode).
Proof.
  split; [|split; [|split]].
  - intros self new_self cur_lane rng Hroad Hmode.
    unfold Driver.target_by_mode. rewrite Hroad, Hmode. reflexivity.
  - intros self new_self Hmode.
    assert (Hraise : Driver.get_target_speed K W self new_self
                     = Raise UndefinedSpeedMode).
    { unfold Driver.get_target_speed. rewrite Hmode. reflexivity. }
    split; [exact Hraise|].
    intros a new_a t d delta_t. rewrite Hraise.
    unfold simulate_from_target.
    destruct (gt_opt (has_speed a) _RELEVANT_LOWEST_SPEED) as [moving | e];
      [|exists e; reflexivity].
    cbn [bind]. destruct moving.
    + destruct (_get_new_yaw_rate _ _ _ _ _ _ a t None) as [yr | e];
        [|exists e; reflexivity].
      exists UndefinedSpeedMode. reflexivity.
    + exists UndefinedSpeedMode. reflexivity.
  - intros self new_self self' new_self' cur_lane rng rng' Hupd.
    apply (update_state_modes _ K W _ _ _ _ _ _ _ Hupd).
  - intros self new_self delta_t rng run.
    pose proof (simulate_ordinary self new_self delta_t rng) as Hord.
    fold run in Hord.
    destruct not_ordinary_undefined as [Hd Hs].
    split; intros Hrun; [apply Hd | apply Hs]; apply Hord; exact Hrun.
Qed.

End Undefined_Modes_Unreachable.

(** ** The yield check of the pedestrian *)

(** Any object at speed 0 within the horizon passes the test, whatever
    its type. *)
Lemma yields_to_any_stationary (c : PedCandidate) (t_self t_other : R) :
  pc_t_self c = Some t_self ->
  pc_t_other c = Some t_other ->
  t_self + t_other <= Pedestrian._MAX_DISTANCE_FOR_YIELDING_MODE ->
  other_has_speed (pc_obj c) = Some 0 ->
  Pedestrian.yields_to c = Ok true.
Proof.
  intros Hs Ho Hsum Hrest. unfold Pedestrian.yields_to.
  rewrite Hs, Ho. f_equal.
  apply (proj2 (Rleb_true _ _)) in Hsum. rewrite Hsum.
  unfold Pedestrian.speed_is_zero. rewrite Hrest.
  destruct (Req_dec_T 0 0) as [_ | Hne]; [|contradiction].
  cbn [andb]. rewrite !orb_true_r. reflexivity.
Qed.

(** C6 on the code: a pedestrian that stands still, met 6 s ahead for
    self and 1 s ahead for it, satisfies none of the three clauses and is
    within the horizon; the yield check returns its intersection point and
    [update_state] sets the speed mode to [Yielding]. *)
Theorem standing_pedestrian_forces_yielding :
  let world := roadside 1 [late_conflict] in
  let self := pedestrian_individual Pedestrian.WalkingMode.UnrestrictedWalking in
  6 + 1 <= Pedestrian._MAX_DISTANCE_FOR_YIELDING_MODE
  /\ ~ yield_clause late_conflict 6 1
  /\ Pedestrian._get_yielding_intersection_point world = Ok (Some (3, 0))
  /\ exists self' new_self' rng',
       Pedestrian.update_state world self self 0%nat = Ok (self', new_self', rng')
       /\ Pedestrian.speed_mode new_self' = Pedestrian.SpeedMode.Yielding.
Proof.
  cbv zeta.
  assert (Hhor : 6 + 1 <= Pedestrian._MAX_DISTANCE_FOR_YIELDING_MODE)
    by (unfold Pedestrian._MAX_DISTANCE_FOR_YIELDING_MODE; lra).
  assert (Hyield : Pedestrian._get_yielding_intersection_point
                     (roadside 1 [late_conflict]) = Ok (Some (3, 0))).
  { unfold Pedestrian._get_yielding_intersection_point.
    cbn [roadside Pedestrian.get_intersecting_objects sorted_with fold_right
         insert_sorted Pedestrian.first_yielding].
    rewrite (yields_to_any_stationary late_conflict 6 1);
      [reflexivity | reflexivity | reflexivity | exact Hhor | reflexivity]. }
  split; [exact Hhor|]. split; [|split; [exact Hyield|]].
  - unfold yield_clause, Pedestrian._MAX_PET_FOR_YIELDING.
    intros [[Hped _] | [[Htype _] | [_ Hpet]]].
    + discriminate Hped.
    + discriminate Htype.
    + rewrite Rabs_right in Hpet; lra.
  - unfold Pedestrian.update_state, Pedestrian.update_walking_mode.
    cbn [pedestrian_individual Pedestrian.walking_mode bind].
    unfold Pedestrian.decides_to_cross.
    cbn [roadside Pedestrian._close_to_some_driveable_lane Pedestrian.random
         Pedestrian._get_intersecting_walkway].
    unfold Rltb, Pedestrian._CROSSING_ROAD_PROBABILITY.
    destruct (Rlt_dec 1 (7 / 1000)) as [Hlt | _]; [lra|].
    cbn [bind]. rewrite Hyield. cbn [bind].
    do 3 eexists. split; reflexivity.
Qed.

(** ** Road crossing of the pedestrian *)

Section Crossing.

Variable RNG : Type.
Variable W : Pedestrian.World RNG.

Lemma decides_to_cross_needs_draw (self : Pedestrian.State) (rng rng' : RNG) :
  Pedestrian.decides_to_cross W self rng = Ok (true, rng') ->
  Pedestrian._close_to_some_driveable_lane W = true
  /\ fst (Pedestrian.random W rng) < Pedestrian._CROSSING_ROAD_PROBABILITY
  /\ (Pedestrian.walking_mode self = Pedestrian.WalkingMode.WalkwayWalking
      \/ Pedestrian.walking_mode self = Pedestrian.WalkingMode.CrossingRoad)
  /\ exists road wk,
       Pedestrian._get_intersecting_road W = Some road
       /\ Pedestrian.furthest_walkway_of W road = Some wk.
Proof.
  unfold Pedestrian.decides_to_cross,
    Pedestrian._get_furthest_walkway_of_current_road. intros H.
  destruct (Pedestrian._close_to_some_driveable_lane W); [|discriminate].
  destruct (Pedestrian.random W rng) as [u g]. cbn [fst].
  destruct (Rltb u Pedestrian._CROSSING_ROAD_PROBABILITY) eqn:Hu;
    [|discriminate].
  apply Rltb_true in Hu.
  destruct (Pedestrian._get_intersecting_road W) as [road |] eqn:Hroad.
  - cbn [bind] in H.
    destruct (Pedestrian.furthest_walkway_of W road) as [wk |] eqn:Hwk.
    + destruct (Pedestrian.walking_mode self); try discriminate;
        repeat split; eauto.
    + destruct (Pedestrian.walking_mode self); discriminate.
  - destruct (Pedestrian.walking_mode self); discriminate.
Qed.

(** The walking mode that [update_state] writes is [CrossingRoad] only
    for a pedestrian that was crossing already or whose draw succeeded. *)
Lemma update_walking_mode_crossing
    (self new_self self' new_self' : Pedestrian.State) (rng rng' : RNG) :
  Pedestrian.update_walking_mode W self new_self rng
  = Ok (self', new_self', rng') ->
  Pedestrian.walking_mode new_self' = Pedestrian.WalkingMode.CrossingRoad ->
  Pedestrian.walking_mode self = Pedestrian.WalkingMode.CrossingRoad
  \/ fst (Pedestrian.random W rng) < Pedestrian._CROSSING_ROAD_PROBABILITY.
Proof.
  unfold Pedestrian.update_walking_mode. intros H Hmode.
  destruct (Pedestrian.walking_mode self) eqn:Hself; auto; right.
  all: cbn [bind] in H.
  all: destruct (Pedestrian.decides_to_cross W self rng) as [[cross g] |] eqn:Hc;
    [|discriminate].
  all: destruct cross;
    [apply decides_to_cross_needs_draw in Hc; tauto|].
  all: exfalso; cbn [bind] in H.
  all: ok_cases H.
  all: injection H as <- <- <-.
  all: cbn in Hmode; discriminate.
Qed.

Lemma update_state_walking_mode
    (self new_self self' new_self' : Pedestrian.State) (rng rng' : RNG) :
  Pedestrian.update_state W self new_self rng = Ok (self', new_self', rng') ->
  exists mid,
    Pedestrian.update_walking_mode W self new_self rng = Ok (self', mid, rng')
    /\ Pedestrian.walking_mode new_self' = Pedestrian.walking_mode mid.
Proof.
  unfold Pedestrian.update_state. intros H.
  destruct (Pedestrian.update_walking_mode W self new_self rng)
    as [[[s n] g] |]; [|discriminate].
  cbn [bind] in H.
  destruct (Pedestrian._get_yielding_intersection_point W) as [y |];
    [|discriminate].
  cbn [bind] in H. cbv zeta in H. injection H as <- <- <-.
  exists n. split; [reflexivity|].
  destruct y; cbn;
    repeat match goal with
      | |- context [match ?x with _ => _ end] => destruct x
      end; reflexivity.
Qed.

Lemma update_state_crossing
    (self new_self self' new_self' : Pedestrian.State) (rng rng' : RNG) :
  Pedestrian.update_state W self new_self rng = Ok (self', new_self', rng') ->
  Pedestrian.walking_mode new_self' = Pedestrian.WalkingMode.CrossingRoad ->
  Pedestrian.walking_mode self = Pedestrian.WalkingMode.CrossingRoad
  \/ fst (Pedestrian.random W rng) < Pedestrian._CROSSING_ROAD_PROBABILITY.
Proof.
  intros H Hmode.
  apply update_state_walking_mode in H as (mid & Hw & Heq).
  rewrite Heq in Hmode.
  eapply update_walking_mode_crossing; eassumption.
Qed.

(** With the draw succeeding for a pedestrian in [WalkwayWalking] mode
    beside a road that has a far walkway, the walking mode written is
    [CrossingRoad]. *)
Lemma update_state_starts_crossing (self new_self : Pedestrian.State)
    (rng : RNG) (road : nat) (wk : Pedestrian.Walkway) (y : option Point) :
  Pedestrian.walking_mode self = Pedestrian.WalkingMode.WalkwayWalking ->
  Pedestrian._close_to_some_driveable_lane W = true ->
  fst (Pedestrian.random W rng) < Pedestrian._CROSSING_ROAD_PROBABILITY ->
  Pedestrian._get_intersecting_road W = Some road ->
  Pedestrian.furthest_walkway_of W road = Some wk ->
  Pedestrian._get_yielding_intersection_point W = Ok y ->
  exists self' new_self' rng',
    Pedestrian.update_state W self new_self rng = Ok (self', new_self', rng')
    /\ Pedestrian.walking_mode new_self' = Pedestrian.WalkingMode.CrossingRoad.
Proof.
  intros Hmode Hclose Hdraw Hroad Hwk Hyield.
  unfold Pedestrian.update_state, Pedestrian.update_walking_mode,
    Pedestrian.decides_to_cross, Pedestrian._get_crossing_target,
    Pedestrian._get_furthest_walkway_of_current_road.
  rewrite Hmode, Hclose, Hroad, Hwk. cbn [bind].
  destruct (Pedestrian.random W rng) as [u g]. cbn [fst] in Hdraw.
  apply Rltb_true in Hdraw. rewrite Hdraw. cbn [bind].
  destruct (Pedestrian.selected_crossing_target self) as [t |].
  - destruct (Pedestrian.intersects_target W t); cbn [bind fst snd];
      rewrite Hyield; cbn [bind]; cbv zeta;
      do 3 eexists; (split; [reflexivity|]);
      destruct y; cbn;
      repeat match goal with
        | |- context [match ?x with _ => _ end] => destruct x
        end; reflexivity.
  - destruct (Pedestrian.swept_crossing_target W); cbn [bind fst snd];
      rewrite Hyield; cbn [bind]; cbv zeta;
      do 3 eexists; (split; [reflexivity|]);
      destruct y; cbn;
      repeat match goal with
        | |- context [match ?x with _ => _ end] => destruct x
        end; reflexivity.
Qed.

End Crossing.

(** C7, as amended.  A pedestrian that is not in [CrossingRoad] mode and
    whose Bernoulli draw fails on every tick of a run is never in
    [CrossingRoad] mode during the run.  On a tick on which the pedestrian
    is in [WalkwayWalking] mode (the mode that is neither [CrossingRoad]
    nor [UnrestrictedWalking] nor [Stopping]), is near a driveable lane,
    draws successfully, intersects a road and has a far-side walkway, the
    next-tick walking mode is [CrossingRoad]. *)
Theorem crossing_needs_draw_and_walkway_mode :
  (forall (self : Pedestrian.State) (ticks : list PedestrianTick),
      Pedestrian.walking_mode self <> Pedestrian.WalkingMode.CrossingRoad ->
      Forall draw_fails ticks ->
      Forall (fun s => Pedestrian.walking_mode s
                       <> Pedestrian.WalkingMode.CrossingRoad)
        (pedestrian_run self ticks))
  /\ (forall (tk : PedestrianTick) (self : Pedestrian.State)
             (road : nat) (wk : Pedestrian.Walkway) (y : option Point),
      Pedestrian.walking_mode self = Pedestrian.WalkingMode.WalkwayWalking ->
      Pedestrian._close_to_some_driveable_lane (tick_world tk) = true ->
      ~ draw_fails tk ->
      Pedestrian._get_intersecting_road (tick_world tk) = Some road ->
      Pedestrian.furthest_walkway_of (tick_world tk) road = Some wk ->
      Pedestrian._get_yielding_intersection_point (tick_world tk) = Ok y ->
      exists new_self,
        pedestrian_run self [tk] = [new_self]
        /\ Pedestrian.walking_mode new_self
           = Pedestrian.WalkingMode.CrossingRoad).
Proof.
  split.
  - intros self ticks. revert self.
    induction ticks as [| tk ticks IH]; intros self Hself Hfail; cbn.
    + constructor.
    + inversion Hfail as [| ? ? Htk Hrest]; subst.
      destruct (Pedestrian.update_state (tick_world tk) self
                  (tick_new_self tk) (tick_rng tk))
        as [[[s n] g] |] eqn:Hupd; [|constructor].
      assert (Hn : Pedestrian.walking_mode n
                   <> Pedestrian.WalkingMode.CrossingRoad).
      { intros Hcross.
        destruct (update_state_crossing _ _ _ _ _ _ _ _ Hupd Hcross)
          as [Hwas | Hdraw]; [contradiction | exact (Htk Hdraw)]. }
      constructor; [exact Hn | apply IH; assumption].
  - intros tk self road wk y Hmode Hclose Hdraw Hroad Hwk Hyield.
    assert (Hlt : fst (Pedestrian.random (tick_world tk) (tick_rng tk))
                  < Pedestrian._CROSSING_ROAD_PROBABILITY).
    { unfold draw_fails in Hdraw.
      destruct (Rlt_dec (fst (Pedestrian.random (tick_world tk) (tick_rng tk)))
                  Pedestrian._CROSSING_ROAD_PROBABILITY); tauto. }
    destruct (update_state_starts_crossing _ (tick_world tk) self
                (tick_new_self tk) (tick_rng tk) road wk y
                Hmode Hclose Hlt Hroad Hwk Hyield)
      as (s & n & g & Hupd & Hn).
    exists n. cbn. rewrite Hupd. split; [reflexivity | exact Hn].
Qed.

(** C7 fails as worded: a pedestrian in [UnrestrictedWalking] mode beside
    a road with a far walkway, whose draw of 0.001 succeeds, stays in
    [UnrestrictedWalking] mode. *)
Lemma successful_draw_not_enough :
  let world := roadside (1 / 1000) [] in
  let self := pedestrian_individual Pedestrian.WalkingMode.UnrestrictedWalking in
  Pedestrian._close_to_some_driveable_lane world = true
  /\ fst (Pedestrian.random world 0%nat) < Pedestrian._CROSSING_ROAD_PROBABILITY
  /\ Pedestrian._get_intersecting_road world = Some 1%nat
  /\ Pedestrian.furthest_walkway_of world 1%nat = Some far_walkway
  /\ exists self' new_self' rng',
       Pedestrian.update_state world self self 0%nat
       = Ok (self', new_self', rng')
       /\ Pedestrian.walking_mode new_self'
          = Pedestrian.WalkingMode.UnrestrictedWalking.
Proof.
  cbv zeta.
  assert (Hdraw : 1 / 1000 < Pedestrian._CROSSING_ROAD_PROBABILITY)
    by (unfold Pedestrian._CROSSING_ROAD_PROBABILITY; lra).
  split; [reflexivity|]. split; [exact Hdraw|].
  split; [reflexivity|]. split; [reflexivity|].
  unfold Pedestrian.update_state, Pedestrian.update_walking_mode,
    Pedestrian.decides_to_cross.
  cbn [pedestrian_individual Pedestrian.walking_mode bind roadside
       Pedestrian._close_to_some_driveable_lane Pedestrian.random].
  apply Rltb_true in Hdraw. rewrite Hdraw. cbn [bind].
  do 3 eexists. split; reflexivity.
Qed.

(** * The theorems at concrete inputs *)

Lemma update_speed_spec_witness :
  let self := individual 0 0 (capabilities [] [] []) in
  let prev_self := individual 2 0 (capabilities [] [] []) in
  has_speed prev_self = Some 2
  /\ has_acceleration self = Some 0
  /\ exists self',
       update_speed (1 / 10) self prev_self 1 = Ok self'
       /\ has_speed self' = Some (Rmax 0 (2 + 0 * 1))
       /\ 0 <= Rmax 0 (2 + 0 * 1)
       /\ (Rmax 0 (2 + 0 * 1) < 1 / 10 ->
           has_acceleration self' = Some 0 /\ has_yaw_rate self' = Some 0).
Proof.
  cbv zeta. split; [reflexivity|]. split; [reflexivity|].
  apply (update_speed_spec (1 / 10) (individual 0 0 (capabilities [] [] []))
           (individual 2 0 (capabilities [] [] [])) 1 2 0);
    reflexivity.
Defined.

Lemma get_new_acceleration_spec_witness :
  let a := individual 10 0 (capabilities [10] [3] [-8]) in
  has_speed a = Some 10
  /\ 0 <= 4
  /\ get_maximum_deceleration a <= 0 <= get_maximum_acceleration a
  /\ (let c := clamped_command 10 12 (effective_distance 4)
                 (get_maximum_deceleration a) (get_maximum_acceleration a) in
      get_maximum_deceleration a <= c <= get_maximum_acceleration a
      /\ _get_new_acceleration a (Some 12) (Some 4) 0
         = Ok (if Rlt_dec 0 c
               then if Rlt_dec (get_maximum_speed a) 10 then 0 else c
               else c)).
Proof.
  cbv zeta.
  assert (Hd : 0 <= 4) by lra.
  assert (Hsigns :
    get_maximum_deceleration (individual 10 0 (capabilities [10] [3] [-8])) <= 0
    <= get_maximum_acceleration (individual 10 0 (capabilities [10] [3] [-8]))).
  { change (get_maximum_deceleration (individual 10 0 (capabilities [10] [3] [-8])))
      with (-8).
    change (get_maximum_acceleration (individual 10 0 (capabilities [10] [3] [-8])))
      with 3.
    lra. }
  split; [reflexivity|]. split; [exact Hd|]. split; [exact Hsigns|].
  apply (get_new_acceleration_spec
           (individual 10 0 (capabilities [10] [3] [-8])) 10 12 4 0);
    [reflexivity | exact Hd | exact Hsigns].
Defined.

Lemma update_position_spec_witness :
  let self := individual 2 90 (capabilities [] [] []) in
  let prev_self := individual 2 0 (capabilities [] [] []) in
  let heading := (cos (radians 90), sin (radians 90)) in
  let pivot :=
    (fst (vertex_mean unit_square) - 4 / 10 * footprint_length self * fst heading,
     snd (vertex_mean unit_square) - 4 / 10 * footprint_length self * snd heading) in
  let xoff := 2 * 1 * fst heading in
  let yoff := 2 * 1 * snd heading in
  has_yaw self = Some 90
  /\ 0 <= 90 < 360
  /\ has_speed self = Some 2
  /\ 1 / 10 < 2
  /\ hasGeometry self = Some unit_square
  /\ has_yaw prev_self = Some 0
  /\ update_position (1 / 10) vertex_mean self prev_self 1
     = Ok (set_hasGeometry self
             (Some (translate (rotate unit_square (90 - 0) pivot) xoff yoff)))
  /\ sqrt (xoff ^ 2 + yoff ^ 2) = Rabs (2 * 1).
Proof.
  cbv zeta.
  assert (Hrange : 0 <= 90 < 360) by lra.
  assert (Hmov : 1 / 10 < 2) by lra.
  split; [reflexivity|]. split; [exact Hrange|]. split; [reflexivity|].
  split; [exact Hmov|]. split; [reflexivity|]. split; [reflexivity|].
  apply (update_position_spec (1 / 10) vertex_mean
           (individual 2 90 (capabilities [] [] []))
           (individual 2 0 (capabilities [] [] [])) 1 90 0 2 unit_square);
    [reflexivity | exact Hrange | reflexivity | exact Hmov
     | reflexivity | reflexivity].
Defined.

Lemma no_deceleration_never_brakes_witness :
  let a := individual 10 0 (capabilities [10] [3] []) in
  undeclared a has_maximum_deceleration
  /\ has_speed a = Some 10
  /\ 0 <= 10
  /\ get_maximum_deceleration a = 0
  /\ (exists ac, _get_new_acceleration a (Some 0) (Some 10) 0 = Ok ac
      /\ (0 < 10 -> ac = 0)
      /\ (0 <= get_maximum_acceleration a -> 0 <= ac)).
Proof.
  cbv zeta.
  assert (Hno : undeclared (individual 10 0 (capabilities [10] [3] []))
                  has_maximum_deceleration)
    by (repeat split; constructor).
  assert (Hd : 0 <= 10) by lra.
  split; [exact Hno|]. split; [reflexivity|]. split; [exact Hd|].
  apply (no_deceleration_never_brakes
           (individual 10 0 (capabilities [10] [3] [])) 10 0 10 0);
    [exact Hno | reflexivity | exact Hd].
Defined.

Lemma crossing_conflict_taken :
  let self := driver_individual Driver.DrivingMode.LaneFollowing in
  Driver.get_intersecting_object Driver.Driver_constants
    (junction [crossing_conflict] (fun _ => [])) self
  = Ok (Driver.set_retained self (Driver.retain crossing_conflict)).
Proof.
  cbv zeta. unfold Driver.get_intersecting_object.
  cbn [driver_individual Driver.retained Driver.no_conflict
       Driver.intersecting_object Driver.agent drives set_drives].
  cbn [junction Driver.get_intersecting_objects Driver.scan_candidates].
  unfold Driver.accepts.
  cbn [crossing_conflict cand_t_self cand_t_other cand_p_int Driver.tti_self
       Driver.Driver_constants Driver._MAX_DISTANCE_FOR_YIELDING_MODE
       Driver._MAX_PET_FOR_BRAKING_WHEN_INTERSECTING Driver.in_front_of bind].
  unfold Rleb. r_decide. reflexivity.
Qed.

Lemma conflict_accepted_only_if_witness :
  let world := junction [crossing_conflict] (fun _ => []) in
  let self := driver_individual Driver.DrivingMode.LaneFollowing in
  let self' := Driver.set_retained self (Driver.retain crossing_conflict) in
  Driver.intersecting_object (Driver.retained self) = None
  /\ Driver.get_intersecting_object Driver.Driver_constants world self = Ok self'
  /\ Driver.intersecting_object (Driver.retained self') = Some 7%nat
  /\ exists pre c post before,
       Driver.get_intersecting_objects world = pre ++ c :: post
       /\ Driver.scan_candidates Driver.Driver_constants world
            (Driver.retained self) pre = Ok before
       /\ Driver.retained self' = Driver.retain c
       /\ cand_obj c = 7%nat
       /\ acceptable Driver.Driver_constants world before c.
Proof.
  cbv zeta.
  split; [reflexivity|]. split; [exact crossing_conflict_taken|].
  split; [reflexivity|].
  apply (conflict_accepted_only_if nat Driver.Driver_constants
           (junction [crossing_conflict] (fun _ => []))
           (driver_individual Driver.DrivingMode.LaneFollowing)
           (Driver.set_retained
              (driver_individual Driver.DrivingMode.LaneFollowing)
              (Driver.retain crossing_conflict)) 7%nat);
    [reflexivity | exact crossing_conflict_taken | reflexivity].
Defined.

Lemma lanes_b_c_distinct : NoDup (map lane_str [lane_b; lane_c]).
Proof.
  repeat constructor; cbn; intuition discriminate.
Qed.

Lemma simulate_reproducible_witness :
  let succ1 := fun _ : Lane => [lane_b; lane_c] in
  let succ2 := fun _ : Lane => [lane_c; lane_b] in
  let self := driver_individual Driver.DrivingMode.LaneFollowing in
  let run := fun succ =>
    Driver.simulate Driver.Driver_constants
      (Driver.with_successors (junction [] (fun _ => [])) succ)
      (fun _ _ => 5) (1 / 10) 12 default_yaw_rate_smoothing_factor vertex_mean
      (fun _ _ => 0) (fun _ _ => false) (fun _ _ => 5) self self (1 / 10) 0%nat in
  (forall l, Permutation (succ1 l) (succ2 l))
  /\ (forall l, NoDup (map lane_str (succ1 l)))
  /\ run succ1 = run succ2.
Proof.
  cbv zeta.
  assert (Hperm : forall l : Lane,
            Permutation [lane_b; lane_c] [lane_c; lane_b])
    by (intros _; apply perm_swap).
  assert (Hnd : forall l : Lane, NoDup (map lane_str [lane_b; lane_c]))
    by (intros _; exact lanes_b_c_distinct).
  split; [exact Hperm|]. split; [exact Hnd|].
  exact (proj1 (simulate_reproducible nat Driver.Driver_constants
                  (junction [] (fun _ => []))
                  (fun _ => [lane_b; lane_c]) (fun _ => [lane_c; lane_b])
                  Hperm Hnd
                  (fun _ _ => 5) (1 / 10) 12 default_yaw_rate_smoothing_factor
                  vertex_mean (fun _ _ => 0) (fun _ _ => false) (fun _ _ => 5)
                  (driver_individual Driver.DrivingMode.LaneFollowing)
                  (driver_individual Driver.DrivingMode.LaneFollowing)
                  (1 / 10) 0%nat)).
Defined.

Lemma crossing_needs_draw_and_walkway_mode_witness :
  let tk := {| tick_world := roadside (1 / 1000) [];
               tick_new_self :=
                 pedestrian_individual Pedestrian.WalkingMode.UnrestrictedWalking;
               tick_rng := 0%nat |} in
  let self := pedestrian_individual Pedestrian.WalkingMode.WalkwayWalking in
  Pedestrian.walking_mode self = Pedestrian.WalkingMode.WalkwayWalking
  /\ Pedestrian._close_to_some_driveable_lane (tick_world tk) = true
  /\ ~ draw_fails tk
  /\ Pedestrian._get_intersecting_road (tick_world tk) = Some 1%nat
  /\ Pedestrian.furthest_walkway_of (tick_world tk) 1%nat = Some far_walkway
  /\ Pedestrian._get_yielding_intersection_point (tick_world tk) = Ok None
  /\ exists new_self,
       pedestrian_run self [tk] = [new_self]
       /\ Pedestrian.walking_mode new_self
          = Pedestrian.WalkingMode.CrossingRoad.
Proof.
  cbv zeta.
  set (tk := {| tick_world := roadside (1 / 1000) [];
                tick_new_self :=
                  pedestrian_individual Pedestrian.WalkingMode.UnrestrictedWalking;
                tick_rng := 0%nat |}).
  assert (Hdraw : ~ draw_fails tk).
  { unfold draw_fails, tk, Pedestrian._CROSSING_ROAD_PROBABILITY. cbn.
    intros H. apply H. lra. }
  split; [reflexivity|]. split; [reflexivity|]. split; [exact Hdraw|].
  split; [reflexivity|]. split; [reflexivity|]. split; [reflexivity|].
  apply (proj2 crossing_needs_draw_and_walkway_mode tk
           (pedestrian_individual Pedestrian.WalkingMode.WalkwayWalking)
           1%nat far_walkway None);
    [reflexivity | reflexivity | exact Hdraw | reflexivity | reflexivity
     | reflexivity].
Defined.

Lemma undefined_modes_raise_and_are_unreachable_witness :
  let world := junction [] (fun _ => [lane_b; lane_c]) in
  let self := driver_individual Driver.DrivingMode.LaneFollowing in
  let new_self := driver_individual Driver.DrivingMode.Undefined in
  Driver._intersects_some_road_infrastructure world = true
  /\ Driver.driving_mode new_self = Driver.DrivingMode.Undefined
  /\ Driver.target_by_mode Driver.Driver_constants world self new_self
       (Some lane_a) 0%nat
     = Raise UndefinedDrivingMode.
Proof.
  cbv zeta. split; [reflexivity|]. split; [reflexivity|].
  apply (proj1 (undefined_modes_raise_and_are_unreachable nat
                  Driver.Driver_constants
                  (junction [] (fun _ => [lane_b; lane_c]))
                  (fun _ _ => 5) (1 / 10) 12 default_yaw_rate_smoothing_factor
                  vertex_mean (fun _ _ => 0) (fun _ _ => false)
                  (fun _ _ => 5)));
    reflexivity.
Defined.

(** With the counter at 0 the driver takes [lane_b], the first lane by
    identifier, however the successors are handed over. *)
Example next_lane_is_lane_b :
  let self := driver_individual Driver.DrivingMode.LaneFollowing in
  let chosen := fun succ =>
    match Driver._get_next_lane (junction [] succ) self (Some lane_a) 0%nat with
    | Ok (suc, _, rng) => Some (suc, rng)
    | Raise _ => None
    end in
  chosen (fun _ => [lane_b; lane_c]) = Some (Some lane_b, 1%nat)
  /\ chosen (fun _ => [lane_c; lane_b]) = Some (Some lane_b, 1%nat).
Proof. split; reflexivity. Qed.

(** On the junction a driver at 5 m/s completes its tick: it turns into
    [lane_b] at unrestricted speed, is commanded 3 m/s^2 and reaches
    5.3 m/s after 0.1 s. *)
Example driver_tick_completes :
  let world := junction [] (fun _ => [lane_c; lane_b]) in
  let self := driver_individual Driver.DrivingMode.LaneFollowing in
  exists self' new_self' rng',
    Driver.simulate Driver.Driver_constants world
      (fun _ _ => 5) (1 / 10) 12 default_yaw_rate_smoothing_factor vertex_mean
      (fun _ _ => 0) (fun _ _ => false) (fun _ _ => 5) self self (1 / 10) 0%nat
    = Ok (self', new_self', rng')
    /\ Driver.driving_mode new_self' = Driver.DrivingMode.Turning
    /\ Driver.next_lane new_self' = Some lane_b
    /\ Driver.speed_mode new_self' = Driver.SpeedMode.Unrestricted
    /\ has_acceleration (Driver.agent new_self') = Some 3
    /\ has_speed (Driver.agent new_self') = Some (53 / 10).
Proof.
  cbv zeta.
  unfold Driver.simulate, Driver.get_target.
  assert (Hupd : Driver.update_state Driver.Driver_constants
            (junction [] (fun _ => [lane_c; lane_b]))
            (driver_individual Driver.DrivingMode.LaneFollowing)
            (driver_individual Driver.DrivingMode.LaneFollowing)
            (Some lane_a) 0%nat
          = Ok (Driver.set_next_lane
                  (Driver.set_next_lane_memo
                     (driver_individual Driver.DrivingMode.LaneFollowing)
                     (Some (Some lane_b))) (Some lane_b),
                Driver.set_speed_mode
                  (Driver.set_retained
                     (Driver.set_driving_mode
                        (Driver.set_next_lane
                           (driver_individual Driver.DrivingMode.LaneFollowing)
                           (Some lane_b)) Driver.DrivingMode.Turning)
                     Driver.no_conflict) Driver.SpeedMode.Unrestricted,
                1%nat)) by reflexivity.
  change (Driver.get_current_lane (junction [] (fun _ => [lane_c; lane_b])))
    with (Some lane_a).
  rewrite Hupd. cbn [bind].
  unfold Driver.target_by_mode, Driver.set_turn_signal, Driver._get_next_lane,
    Driver.target_distance, simulate_from_target, Driver.get_target_speed,
    Driver.get_default_speed, _get_new_yaw_rate, _get_yaw_rate_to_reach_point,
    _get_new_acceleration, has_reached_maximum_speed, update_speed, update_yaw,
    update_position, gt_opt, lt_opt, Rltb, Rleb, py_min, py_max,
    effective_distance.
  cbn -[Rdiv Rmult Rplus Rminus Ropp Rinv IZR pow cos sin exp Rlt_dec Req_dec_T
        Rle_dec Int_part radians py_mod get_maximum_speed
        get_maximum_acceleration get_maximum_deceleration get_maximum_yaw_rate
        rotate translate rotation_center vertex_mean unit_square].
  do 8 (try change (get_maximum_speed
                      (set_drives (individual 5 0 (capabilities [15] [3] [-8]))
                         [car])) with 15;
        try change (get_maximum_acceleration
                      (set_drives (individual 5 0 (capabilities [15] [3] [-8]))
                         [car])) with 3;
        try change (get_maximum_deceleration
                      (set_drives (individual 5 0 (capabilities [15] [3] [-8]))
                         [car])) with (-8);
        try change (get_maximum_yaw_rate
                      (set_drives (individual 5 0 (capabilities [15] [3] [-8]))
                         [car])) with 0;
        r_decide;
        cbn -[Rdiv Rmult Rplus Rminus Ropp Rinv IZR pow cos sin exp Rlt_dec
              Req_dec_T Rle_dec Int_part radians py_mod get_maximum_speed
              get_maximum_acceleration get_maximum_deceleration
              get_maximum_yaw_rate rotate translate rotation_center
              vertex_mean unit_square]).
  do 3 eexists. split; [reflexivity|].
  cbn [Driver.driving_mode Driver.next_lane Driver.speed_mode Driver.agent
       Driver.set_agent Driver.set_speed_mode Driver.set_retained
       Driver.set_driving_mode Driver.set_next_lane has_acceleration has_speed
       set_hasGeometry set_has_yaw set_has_speed propagate_control set_drives
       set_has_acceleration].
  repeat (split; [reflexivity|]). f_equal. lra.
Qed.

(** * Further properties of the simulation models *)

(** ** The acceleration law and one tick of integration *)

(** X1.  An agent that drives faster than its maximum speed is never
    commanded a positive acceleration, whatever the target speed (also
    [None]) and the distance are. *)
Theorem no_acceleration_above_maximum_speed (self : Agent)
    (target_speed distance : option R) (los v : R) :
  has_speed self = Some v ->
  get_maximum_speed self < v ->
  exists ac,
    _get_new_acceleration self target_speed distance los = Ok ac /\ ac <= 0.
Proof.
  intros Hv Hmax. unfold _get_new_acceleration. rewrite Hv. cbv zeta.
  match goal with
  | |- context [if Rlt_dec 0 ?c then _ else _] => set (ac := c)
  end.
  destruct (Rlt_dec 0 ac) as [Hpos | Hnpos].
  - unfold has_reached_maximum_speed, gt_opt. rewrite Hv. cbn [bind].
    destruct (Rlt_dec (get_maximum_speed self) v); [|contradiction].
    exists 0. split; [reflexivity | lra].
  - exists ac. split; [reflexivity | lra].
Qed.

Lemma no_acceleration_above_maximum_speed_witness :
  let a := individual 12 0 (capabilities [10] [3] [-8]) in
  has_speed a = Some 12
  /\ get_maximum_speed a < 12
  /\ exists ac, _get_new_acceleration a (Some 20) (Some 4) 0 = Ok ac /\ ac <= 0.
Proof.
  cbv zeta.
  assert (Hmax : get_maximum_speed (individual 12 0 (capabilities [10] [3] [-8])) < 12).
  { change (get_maximum_speed (individual 12 0 (capabilities [10] [3] [-8])))
      with 10. lra. }
  split; [reflexivity|]. split; [exact Hmax|].
  apply (no_acceleration_above_maximum_speed
           (individual 12 0 (capabilities [10] [3] [-8]))
           (Some 20) (Some 4) 0 12);
    [reflexivity | exact Hmax].
Defined.

(** What the three integration steps change and what they keep. *)
Lemma update_speed_result (eps : R) (self prev_self self' : Agent)
    (delta_t v a : R) :
  has_speed prev_self = Some v ->
  has_acceleration self = Some a ->
  update_speed eps self prev_self delta_t = Ok self' ->
  has_speed self' = Some (py_max 0 (v + a * delta_t))
  /\ has_yaw self' = has_yaw self
  /\ hasGeometry self' = hasGeometry self
  /\ drives self' = drives self
  /\ (py_max 0 (v + a * delta_t) < eps ->
      has_acceleration self' = Some 0 /\ has_yaw_rate self' = Some 0)
  /\ (~ py_max 0 (v + a * delta_t) < eps ->
      has_acceleration self' = Some a /\ has_yaw_rate self' = has_yaw_rate self).
Proof.
  intros Hv Ha. unfold update_speed. rewrite Hv, Ha. cbn.
  destruct (Rlt_dec (py_max 0 (v + a * delta_t)) eps);
    intros H; injection H as <-; cbn; repeat split; tauto.
Qed.

Lemma update_yaw_result (eps : R) (self prev_self self' : Agent) (delta_t : R) :
  update_yaw eps self prev_self delta_t = Ok self' ->
  has_speed self' = has_speed self
  /\ has_acceleration self' = has_acceleration self
  /\ has_yaw_rate self' = has_yaw_rate self
  /\ hasGeometry self' = hasGeometry self
  /\ drives self' = drives self
  /\ (forall y, has_yaw prev_self = Some y -> 0 <= y <= 360 ->
      exists y', has_yaw self' = Some y' /\ 0 <= y' <= 360)
  /\ (forall s, has_speed self = Some s -> ~ eps < s ->
      has_yaw self' = match has_yaw prev_self with
                      | Some y => Some y
                      | None => has_yaw self
                      end).
Proof.
  unfold update_yaw. intros H.
  assert (Hkeep : forall y0 : R, 0 <= y0 <= 360 ->
            exists y', Some y0 = Some y' /\ 0 <= y' <= 360) by eauto.
  destruct (has_yaw prev_self) as [y |].
  - destruct (has_yaw_rate self) as [yr |] eqn:Hyr.
    + destruct (has_speed self) as [s |] eqn:Hs; [|discriminate].
      cbn in H. destruct (Rlt_dec eps s) as [Hmov | Hrest];
        injection H as <-; cbn.
      * do 5 (split; [auto|]). split.
        -- intros y0 Hy0 _. injection Hy0 as <-. eexists.
           split; [reflexivity | apply py_mod_360_range].
        -- intros s0 Hs0 Hn. injection Hs0 as <-. contradiction.
      * do 5 (split; [auto|]). split.
        -- intros y0 Hy0 Hr. injection Hy0 as <-. auto.
        -- reflexivity.
    + injection H as <-. cbn. do 5 (split; [auto|]). split.
      * intros y0 Hy0 Hr. injection Hy0 as <-. auto.
      * reflexivity.
  - injection H as <-. do 5 (split; [auto|]). split.
    + intros y Hy. discriminate.
    + reflexivity.
Qed.



Lemma update_position_cases (eps : R) (centroid : Geometry -> Point)
    (self prev_self self' : Agent) (delta_t : R) :
  update_position eps centroid self prev_self delta_t = Ok self' ->
  self' = self
  \/ exists g' s, self' = set_hasGeometry self (Some g')
                  /\ has_speed self = Some s /\ eps < s.
Proof.
  unfold update_position. intros H.
  destruct (has_yaw self) as [y |]; [|left; congruence].
  destruct (has_speed self) as [s |]; [|left; congruence].
  destruct (hasGeometry self) as [g |]; [|left; congruence].
  destruct (Rlt_dec eps s) as [Hmov | Hrest]; [|left; congruence].
  destruct (has_yaw prev_self); [|discriminate].
  injection H as <-. right. eauto.
Qed.

Lemma update_position_result (eps : R) (centroid : Geometry -> Point)
    (self prev_self self' : Agent) (delta_t : R) :
  update_position eps centroid self prev_self delta_t = Ok self' ->
  has_speed self' = has_speed self
  /\ has_acceleration self' = has_acceleration self
  /\ has_yaw_rate self' = has_yaw_rate self
  /\ has_yaw self' = has_yaw self
  /\ drives self' = drives self
  /\ (forall s, has_speed self = Some s -> ~ eps < s -> self' = self).
Proof.
  intros H.
  destruct (update_position_cases _ _ _ _ _ _ H)
    as [-> | (g' & s & -> & Hs & Hmov)].
  - do 5 (split; [reflexivity|]). reflexivity.
  - cbn. do 5 (split; [reflexivity|]).
    intros s0 Hs0 Hn. rewrite Hs in Hs0. injection Hs0 as <-. contradiction.
Qed.

(** ** One tick of [Dynamical_Object.simulate] *)

(** Peels the first call off a hypothesis [x <- m ;; k = Ok a]. *)
Ltac peel H :=
  match type of H with
  | bind ?m _ = Ok _ =>
      let E := fresh "E" in
      destruct m eqn:E; cbn [bind] in H; [|discriminate H]
  end.

Lemma get_new_acceleration_completes (self : Agent) (ts d : option R)
    (los v : R) :
  has_speed self = Some v ->
  exists ac, _get_new_acceleration self ts d los = Ok ac.
Proof.
  intros Hv. unfold _get_new_acceleration. rewrite Hv. cbv zeta.
  match goal with
  | |- context [if Rlt_dec 0 ?c then _ else _] => destruct (Rlt_dec 0 c)
  end.
  - unfold has_reached_maximum_speed, gt_opt. rewrite Hv. cbn [bind]. eauto.
  - eauto.
Qed.

(** The sign of the command, for well-signed capability bounds. *)
Lemma get_new_acceleration_sign (self : Agent) (ts : option R)
    (d los v ac : R) :
  has_speed self = Some v ->
  0 <= d ->
  get_maximum_deceleration self <= 0 <= get_maximum_acceleration self ->
  _get_new_acceleration self ts (Some d) los = Ok ac ->
  (forall t, ts = Some t -> v <= t -> 0 <= ac)
  /\ (forall t, ts = Some t -> t <= v -> ac <= 0)
  /\ (ts = None -> ac <= 0).
Proof.
  intros Hv Hd [HD HA] H. unfold _get_new_acceleration in H.
  rewrite Hv in H. cbv zeta in H.
  pose proof (effective_distance_pos d Hd) as Hpos.
  set (e := effective_distance d) in *.
  destruct ts as [t |].
  - pose proof (sq_div_nonneg (t - v) e Hpos) as Hq.
    set (q := (t - v) ^ 2 / e) in *.
    assert (Hbrake : t - v < 0 -> py_max (- q) (get_maximum_deceleration self) <= 0).
    { intros _. unfold py_max. destruct (Rlt_dec (- q) _); lra. }
    assert (Hcap : forall c, 0 < c -> 0 <= py_min c (get_maximum_acceleration self)).
    { intros c Hc. unfold py_min. destruct (Rlt_dec _ c); lra. }
    unfold has_reached_maximum_speed, gt_opt in H. rewrite Hv in H.
    cbn [bind] in H.
    destruct (Rlt_dec (t - v) 0) as [Hneg | Hnneg].
    + specialize (Hbrake Hneg).
      destruct (Rlt_dec 0 (py_max (- q) (get_maximum_deceleration self)));
        [lra|].
      destruct (Rlt_dec 0 (py_max (- q) (get_maximum_deceleration self)));
        [lra|].
      injection H as <-.
      split; [intros t0 Ht0 Hle; injection Ht0 as <-; lra|].
      split; [intros; assumption | discriminate].
    + destruct (Rlt_dec 0 q) as [Hqpos | Hqz].
      * specialize (Hcap q Hqpos).
        destruct (Rlt_dec 0 (py_min q (get_maximum_acceleration self)))
          as [Hp | Hnp].
        -- destruct (Rlt_dec (get_maximum_speed self) v);
             injection H as <-.
           ++ split; [intros; lra|].
              split; [intros; lra | discriminate].
           ++ split; [intros; lra|].
              split; [|discriminate].
              intros t0 Ht0 Hle. injection Ht0 as <-.
              assert (Hz : t - v = 0) by lra.
              assert (Hq0 : q = 0) by (subst q; rewrite Hz; unfold Rdiv; ring).
              lra.
        -- injection H as <-.
           split; [intros; lra|].
           split; [intros; lra | discriminate].
      * destruct (Rlt_dec 0 q); [contradiction|].
        injection H as <-.
        split; [intros; lra|].
        split; [intros; lra | discriminate].
  - pose proof (sq_div_nonneg v e Hpos) as Hq.
    destruct (Rlt_dec 0 (- (v ^ 2 / e))); [lra|].
    injection H as <-.
    split; [discriminate|]. split; [discriminate|]. intros _. lra.
Qed.

Section Tick_Facts.

Variable eps maxdist : R.
Variable smoothing : R -> R.
Variable centroid : Geometry -> Point.
Variable distance_to : Geometry -> Point -> R.
Variable angle : Agent -> Point -> R.
Variable right_of : Agent -> Point -> bool.
Variable los : Agent -> Point -> R.

Lemma get_yaw_rate_to_reach_point_completes (self : Agent) (target : Point)
    (max_yaw_rate v : R) (distance : option R) (ignore : bool) :
  has_speed self = Some v ->
  distance <> None \/ drives self <> [] \/ hasGeometry self <> None ->
  exists yr,
    _get_yaw_rate_to_reach_point maxdist smoothing distance_to angle right_of
      self target max_yaw_rate distance ignore = Ok yr.
Proof.
  intros Hv Hgeo. unfold _get_yaw_rate_to_reach_point. rewrite Hv. cbv zeta.
  match goal with
  | |- context [if ?b then _ else Ok 0] => destruct b
  end; [|eauto].
  assert (Hd : exists d0,
             match distance with
             | Some d => Ok d
             | None =>
                 match drives self with
                 | veh :: _ => Ok (distance_to (veh_geometry veh) target)
                 | [] => g <- get_geometry self ;; Ok (distance_to g target)
                 end
             end = Ok d0).
  { destruct distance as [d |]; [eauto|].
    destruct (drives self) as [| veh vs]; [|eauto].
    unfold get_geometry.
    destruct (hasGeometry self) as [g |]; [cbn [bind]; eauto|].
    destruct Hgeo as [Hn | [Hn | Hn]]; contradiction. }
  destruct Hd as [d0 ->]. cbn [bind].
  match goal with
  | |- context [if ?b then _ else Ok 0] => destruct b
  end; eauto.
Qed.

Lemma get_new_yaw_rate_completes (self : Agent) (target : Point) :
  drives self <> [] \/ hasGeometry self <> None ->
  exists yr,
    _get_new_yaw_rate eps maxdist smoothing distance_to angle right_of
      self target None = Ok yr.
Proof.
  intros Hgeo. unfold _get_new_yaw_rate.
  destruct (has_speed self) as [v |] eqn:Hv; cbn [bind]; [|eauto].
  destruct (Rlt_dec eps v); [|eauto].
  apply (get_yaw_rate_to_reach_point_completes self target _ v None false Hv).
  right. exact Hgeo.
Qed.

(** The steps of a tick that returned. *)
Lemma simulate_from_target_steps (self new_self : Agent) (target : Point)
    (distance : R) (get_target_speed : res (option R)) (delta_t : R)
    (self' : Agent) :
  simulate_from_target eps maxdist smoothing centroid distance_to angle
    right_of los self new_self target distance get_target_speed delta_t
  = Ok self' ->
  exists v ts ac ns0 ns1 ns2,
    has_speed self = Some v
    /\ get_target_speed = Ok ts
    /\ _get_new_acceleration self ts (Some distance) (los self target) = Ok ac
    /\ (ns0 = new_self
        \/ exists yr, eps < v /\ ns0 = set_has_yaw_rate new_self (Some yr))
    /\ update_speed eps (propagate_control (set_has_acceleration ns0 (Some ac)))
         self delta_t = Ok ns1
    /\ update_yaw eps ns1 self delta_t = Ok ns2
    /\ update_position eps centroid ns2 self delta_t = Ok self'.
Proof.
  unfold simulate_from_target, gt_opt. intros H.
  destruct (has_speed self) as [v |] eqn:Hv; [|discriminate H].
  cbn [bind] in H. peel H. peel H. peel H. cbv zeta in H. peel H. peel H.
  match goal with
  | E0 : (if _ then _ else _) = Ok ?n |- _ =>
      exists v, a0, a1, n, a2, a3
  end.
  repeat (split; [first [reflexivity | eassumption]|]).
  split; [|repeat (split; [eassumption|]); assumption].
  destruct (Rlt_dec eps v) as [Hmov | Hrest].
  - peel E. injection E as <-. right. eauto.
  - injection E as <-. left. reflexivity.
Qed.

(** What a tick that returned has written. *)
Lemma simulate_from_target_result (self new_self : Agent) (target : Point)
    (distance : R) (get_target_speed : res (option R)) (delta_t : R)
    (self' : Agent) :
  simulate_from_target eps maxdist smoothing centroid distance_to angle
    right_of los self new_self target distance get_target_speed delta_t
  = Ok self' ->
  exists v ts ac,
    has_speed self = Some v
    /\ get_target_speed = Ok ts
    /\ _get_new_acceleration self ts (Some distance) (los self target) = Ok ac
    /\ has_speed self' = Some (py_max 0 (v + ac * delta_t))
    /\ (py_max 0 (v + ac * delta_t) < eps ->
        has_acceleration self' = Some 0 /\ has_yaw_rate self' = Some 0)
    /\ (~ py_max 0 (v + ac * delta_t) < eps ->
        has_acceleration self' = Some ac)
    /\ (forall y, has_yaw self = Some y -> 0 <= y <= 360 ->
        exists y', has_yaw self' = Some y' /\ 0 <= y' <= 360)
    /\ (~ eps < py_max 0 (v + ac * delta_t) ->
        hasGeometry self' = hasGeometry new_self
        /\ has_yaw self' = match has_yaw self with
                           | Some y => Some y
                           | None => has_yaw new_self
                           end)
    /\ (exists yr_cmd,
          drives self'
          = map (fun veh =>
              {| veh_has_yaw_rate := yr_cmd;
                 veh_has_acceleration := Some ac;
                 veh_has_length := veh_has_length veh;
                 veh_geometry := veh_geometry veh;
                 veh_INDIRECT_is_a := veh_INDIRECT_is_a veh |})
              (drives new_self)).
Proof.
  intros H.
  destruct (simulate_from_target_steps _ _ _ _ _ _ _ H)
    as (v & ts & ac & ns0 & ns1 & ns2 & Hv & Hts & Hac & Hns0 & Hus & Huy & Hup).
  exists v, ts, ac. do 3 (split; [assumption|]).
  set (ns := propagate_control (set_has_acceleration ns0 (Some ac))) in *.
  assert (Hacc : has_acceleration ns = Some ac) by reflexivity.
  destruct (update_speed_result eps ns self ns1 delta_t v ac Hv Hacc Hus)
    as (Hs1 & Hy1 & Hg1 & Hd1 & Hsnap & Hkeep).
  destruct (update_yaw_result eps ns1 self ns2 delta_t Huy)
    as (Hs2 & Ha2 & Hr2 & Hg2 & Hd2 & Hrange & Hstill).
  destruct (update_position_result eps centroid ns2 self self' delta_t Hup)
    as (Hs3 & Ha3 & Hr3 & Hy3 & Hd3 & Hstay).
  assert (Hgeo0 : hasGeometry ns = hasGeometry new_self
                  /\ has_yaw ns = has_yaw new_self).
  { subst ns. destruct Hns0 as [-> | (yr & _ & ->)]; split; reflexivity. }
  split; [congruence|].
  split.
  { intros Hlt. destruct (Hsnap Hlt) as [Ha Hr]. split; congruence. }
  split.
  { intros Hge. destruct (Hkeep Hge) as [Ha _]. congruence. }
  split.
  { intros y Hy Hyr. destruct (Hrange y Hy Hyr) as (y' & Hy' & Hr').
    exists y'. split; [congruence | assumption]. }
  split.
  { intros Hrest.
    assert (Hsp2 : has_speed ns2 = Some (py_max 0 (v + ac * delta_t)))
      by congruence.
    rewrite (Hstay _ Hsp2 Hrest).
    split; [destruct Hgeo0; congruence|].
    assert (Hsp1 : has_speed ns1 = Some (py_max 0 (v + ac * delta_t)))
      by assumption.
    rewrite (Hstill _ Hsp1 Hrest).
    destruct (has_yaw self); [reflexivity|].
    destruct Hgeo0; congruence. }
  exists (has_yaw_rate ns0).
  rewrite Hd3, Hd2, Hd1. subst ns. unfold propagate_control.
  cbn [drives set_drives has_acceleration set_has_acceleration has_yaw_rate].
  destruct Hns0 as [-> | (yr & _ & ->)]; reflexivity.
Qed.

(** When a tick returns. *)
Lemma simulate_from_target_completes_if (self new_self : Agent)
    (target : Point) (distance : R) (ts : option R) (delta_t v ac : R) :
  has_speed self = Some v ->
  _get_new_acceleration self ts (Some distance) (los self target) = Ok ac ->
  (eps < v -> drives self <> [] \/ hasGeometry self <> None) ->
  (eps < py_max 0 (v + ac * delta_t) -> has_yaw self <> None) ->
  exists self',
    simulate_from_target eps maxdist smoothing centroid distance_to angle
      right_of los self new_self target distance (Ok ts) delta_t = Ok self'.
Proof.
  intros Hv Hac Hgeo Hyaw. unfold simulate_from_target, gt_opt.
  rewrite Hv. cbn [bind].
  assert (Hns0 : exists ns0,
            (if (if Rlt_dec eps v then true else false)
             then yaw_rate <- _get_new_yaw_rate eps maxdist smoothing
                                distance_to angle right_of self target None ;;
                  Ok (set_has_yaw_rate new_self (Some yaw_rate))
             else Ok new_self) = Ok ns0).
  { destruct (Rlt_dec eps v) as [Hmov | Hrest]; [|eauto].
    destruct (get_new_yaw_rate_completes self target (Hgeo Hmov)) as [yr ->].
    cbn [bind]. eauto. }
  destruct Hns0 as [ns0 ->]. cbn [bind]. rewrite Hac. cbn [bind]. cbv zeta.
  set (ns := propagate_control (set_has_acceleration ns0 (Some ac))).
  assert (Hacc : has_acceleration ns = Some ac) by reflexivity.
  assert (Hus : exists ns1, update_speed eps ns self delta_t = Ok ns1).
  { unfold update_speed. rewrite Hv, Hacc. cbn.
    destruct (Rlt_dec (py_max 0 (v + ac * delta_t)) eps); eauto. }
  destruct Hus as [ns1 Hus]. rewrite Hus. cbn [bind].
  destruct (update_speed_result eps ns self ns1 delta_t v ac Hv Hacc Hus)
    as (Hs1 & _).
  assert (Huy : exists ns2, update_yaw eps ns1 self delta_t = Ok ns2).
  { unfold update_yaw. destruct (has_yaw self); [|eauto].
    destruct (has_yaw_rate ns1); [|eauto].
    rewrite Hs1. cbn. destruct (Rlt_dec eps _); eauto. }
  destruct Huy as [ns2 Huy]. rewrite Huy. cbn [bind].
  destruct (update_yaw_result eps ns1 self ns2 delta_t Huy) as (Hs2 & _).
  unfold update_position.
  destruct (has_yaw ns2); [|eauto].
  rewrite Hs2, Hs1.
  destruct (hasGeometry ns2); [|eauto].
  destruct (Rlt_dec eps (py_max 0 (v + ac * delta_t))) as [Hmov | Hrest];
    [|eauto].
  destruct (has_yaw self); [eauto|].
  exfalso. apply (Hyaw Hmov). reflexivity.
Qed.

Lemma py_max_0_nonneg (x : R) : 0 <= py_max 0 x.
Proof. unfold py_max. destruct (Rlt_dec 0 x); lra. Qed.

(** X2.  A tick of [simulate] returns, for any target, distance and
    resolved target speed, as soon as the previous-tick individual has a
    speed, a yaw and a footprint (its own or that of a driven vehicle):
    none of the comparisons and geometry reads on the way raises. *)
Theorem tick_completes (self new_self : Agent) (target : Point)
    (distance : R) (ts : option R) (delta_t v y : R) :
  has_speed self = Some v ->
  has_yaw self = Some y ->
  drives self <> [] \/ hasGeometry self <> None ->
  exists self',
    simulate_from_target eps maxdist smoothing centroid distance_to angle
      right_of los self new_self target distance (Ok ts) delta_t = Ok self'.
Proof.
  intros Hv Hy Hgeo.
  destruct (get_new_acceleration_completes self ts (Some distance)
              (los self target) v Hv) as [ac Hac].
  apply (simulate_from_target_completes_if self new_self target distance ts
           delta_t v ac Hv Hac).
  - intros _. exact Hgeo.
  - intros _. rewrite Hy. discriminate.
Qed.

(** X3.  Whatever the inputs, the individual a tick of [simulate] leaves
    has a speed that is not negative; when that speed is below the
    relevant lowest speed its acceleration and yaw rate are exactly 0; and
    a yaw that was in [[0, 360]] before the tick is in [[0, 360]] after
    it (360 itself is reached, as the float [%] rounds). *)
Theorem tick_keeps_speed_and_yaw_in_range (self new_self : Agent)
    (target : Point) (distance : R) (get_target_speed : res (option R))
    (delta_t : R) (self' : Agent) :
  simulate_from_target eps maxdist smoothing centroid distance_to angle
    right_of los self new_self target distance get_target_speed delta_t
  = Ok self' ->
  exists v',
    has_speed self' = Some v'
    /\ 0 <= v'
    /\ (v' < eps ->
        has_acceleration self' = Some 0 /\ has_yaw_rate self' = Some 0)
    /\ (forall y, has_yaw self = Some y -> 0 <= y <= 360 ->
        exists y', has_yaw self' = Some y' /\ 0 <= y' <= 360).
Proof.
  intros H.
  destruct (simulate_from_target_result _ _ _ _ _ _ _ H)
    as (v & ts & ac & _ & _ & _ & Hs & Hsnap & _ & Hyaw & _).
  exists (py_max 0 (v + ac * delta_t)).
  split; [exact Hs|]. split; [apply py_max_0_nonneg|].
  split; assumption.
Qed.

(** X4.  An agent at rest whose target speed is 0 (or unresolved) stays
    at rest: the tick returns, the commanded acceleration and the new
    speed are 0, footprint and yaw are those of before, and with a
    positive relevant lowest speed the yaw rate is reset to 0. *)
Theorem agent_at_rest_stays_at_rest (self new_self : Agent) (target : Point)
    (distance : R) (ts : option R) (delta_t : R) :
  has_speed self = Some 0 ->
  ts = None \/ ts = Some 0 ->
  0 <= eps ->
  exists self',
    simulate_from_target eps maxdist smoothing centroid distance_to angle
      right_of los self new_self target distance (Ok ts) delta_t = Ok self'
    /\ has_speed self' = Some 0
    /\ has_acceleration self' = Some 0
    /\ hasGeometry self' = hasGeometry new_self
    /\ has_yaw self' = match has_yaw self with
                       | Some y => Some y
                       | None => has_yaw new_self
                       end
    /\ (0 < eps -> has_yaw_rate self' = Some 0).
Proof.
  intros Hv Hts Heps.
  assert (Hac : _get_new_acceleration self ts (Some distance)
                  (los self target) = Ok 0).
  { unfold _get_new_acceleration. rewrite Hv. cbv zeta.
    set (e := effective_distance distance).
    destruct Hts as [-> | ->].
    - replace (- (0 ^ 2 / e)) with 0 by (unfold Rdiv; ring).
      destruct (Rlt_dec 0 0); [lra | reflexivity].
    - replace ((0 - 0) ^ 2 / e) with 0 by (unfold Rdiv; ring).
      destruct (Rlt_dec (0 - 0) 0); [lra|].
      destruct (Rlt_dec 0 0); [lra|].
      destruct (Rlt_dec 0 0); [lra | reflexivity]. }
  assert (Hnew : py_max 0 (0 + 0 * delta_t) = 0).
  { unfold py_max. destruct (Rlt_dec 0 (0 + 0 * delta_t)); lra. }
  destruct (simulate_from_target_completes_if self new_self target distance
              ts delta_t 0 0 Hv Hac) as [self' H].
  - intros Hlt. lra.
  - rewrite Hnew. intros Hlt. lra.
  - exists self'. split; [exact H|].
    destruct (simulate_from_target_result _ _ _ _ _ _ _ H)
      as (v & ts' & ac & Hv' & Hts' & Hac' & Hs & Hsnap & Hkeep & _ & Hstay & _).
    rewrite Hv in Hv'. injection Hv' as <-.
    injection Hts' as <-. rewrite Hac in Hac'. injection Hac' as <-.
    rewrite Hnew in *.
    assert (Hrest : ~ eps < 0) by lra.
    destruct (Hstay Hrest) as [Hg Hy].
    split; [exact Hs|].
    split.
    { destruct (Rlt_dec 0 eps) as [Hlt | Hge].
      - apply (Hsnap Hlt).
      - apply (Hkeep Hge). }
    split; [exact Hg|]. split; [exact Hy|].
    intros Hlt. apply (Hsnap Hlt).
Qed.

(** X5.  With well-signed capability bounds (maximum deceleration <= 0 <=
    maximum acceleration), a non-negative distance and time step, a tick
    never moves the speed away from the target speed: a target at or above
    the current speed does not lower the speed, a target at or below it
    (or an unresolved one) does not raise it. *)
Theorem speed_moves_toward_target (self new_self : Agent) (target : Point)
    (distance : R) (ts : option R) (delta_t v : R) (self' : Agent) :
  has_speed self = Some v ->
  0 <= v ->
  0 <= distance ->
  0 <= delta_t ->
  get_maximum_deceleration self <= 0 <= get_maximum_acceleration self ->
  simulate_from_target eps maxdist smoothing centroid distance_to angle
    right_of los self new_self target distance (Ok ts) delta_t = Ok self' ->
  exists v',
    has_speed self' = Some v'
    /\ (forall t, ts = Some t -> v <= t -> v <= v')
    /\ (forall t, ts = Some t -> t <= v -> v' <= v)
    /\ (ts = None -> v' <= v).
Proof.
  intros Hv Hv0 Hd Hdt Hcap H.
  destruct (simulate_from_target_result _ _ _ _ _ _ _ H)
    as (v1 & ts' & ac & Hv' & Hts' & Hac & Hs & _).
  rewrite Hv in Hv'. injection Hv' as <-. injection Hts' as <-.
  destruct (get_new_acceleration_sign self ts distance (los self target) v ac
              Hv Hd Hcap Hac) as (Hup & Hdown & Hnone).
  exists (py_max 0 (v + ac * delta_t)). split; [exact Hs|].
  assert (Hraise : 0 <= ac -> v <= py_max 0 (v + ac * delta_t)).
  { intros Hac0. unfold py_max.
    destruct (Rlt_dec 0 (v + ac * delta_t)); nra. }
  assert (Hlower : ac <= 0 -> py_max 0 (v + ac * delta_t) <= v).
  { intros Hac0. unfold py_max.
    destruct (Rlt_dec 0 (v + ac * delta_t)); nra. }
  split; [intros t Ht Hle; apply Hraise; eapply Hup; eassumption|].
  split; [intros t Ht Hle; apply Hlower; eapply Hdown; eassumption|].
  intros Hn. apply Hlower. apply Hnone. exact Hn.
Qed.

(** X6.  The control input reaches the driven vehicles before it is
    integrated: after a tick every driven vehicle carries exactly the
    acceleration [_get_new_acceleration] commanded, also in a tick whose
    integration resets the driver's own acceleration to 0 because the new
    speed is below the relevant lowest speed; the footprints and lengths
    of the vehicles are not touched by the driver's tick. *)
Theorem driven_vehicles_receive_the_command (self new_self : Agent)
    (target : Point) (distance : R) (get_target_speed : res (option R))
    (delta_t : R) (self' : Agent) :
  simulate_from_target eps maxdist smoothing centroid distance_to angle
    right_of los self new_self target distance get_target_speed delta_t
  = Ok self' ->
  exists ts ac,
    get_target_speed = Ok ts
    /\ _get_new_acceleration self ts (Some distance) (los self target) = Ok ac
    /\ Forall (fun veh => veh_has_acceleration veh = Some ac) (drives self')
    /\ map veh_geometry (drives self') = map veh_geometry (drives new_self)
    /\ map veh_has_length (drives self') = map veh_has_length (drives new_self).
Proof.
  intros H.
  destruct (simulate_from_target_result _ _ _ _ _ _ _ H)
    as (v & ts & ac & _ & Hts & Hac & _ & _ & _ & _ & _ & yr & Hd).
  exists ts, ac. split; [exact Hts|]. split; [exact Hac|].
  rewrite Hd. split; [|split].
  - apply Forall_forall. intros veh Hin.
    apply in_map_iff in Hin. destruct Hin as (veh0 & <- & _). reflexivity.
  - rewrite map_map. reflexivity.
  - rewrite map_map. reflexivity.
Qed.

End Tick_Facts.

(** ** The footprint moves rigidly *)

Lemma rotate_point_rigid (angle : R) (origin p q : Point) :
  dist2 (rotate_point angle origin p) (rotate_point angle origin q)
  = dist2 p q.
Proof.
  unfold dist2, rotate_point. cbn [fst snd].
  pose proof (sin2_cos2 (radians angle)) as H. unfold Rsqr in H.
  set (c := cos (radians angle)) in *. set (s := sin (radians angle)) in *.
  replace ((fst origin + (c * (fst p - fst origin) - s * (snd p - snd origin))
            - (fst origin + (c * (fst q - fst origin) - s * (snd q - snd origin)))) ^ 2
           + (snd origin + (s * (fst p - fst origin) + c * (snd p - snd origin))
              - (snd origin + (s * (fst q - fst origin) + c * (snd q - snd origin)))) ^ 2)
    with ((s * s + c * c)
          * ((fst p - fst q) ^ 2 + (snd p - snd q) ^ 2)) by ring.
  rewrite H. ring.
Qed.

Lemma translate_point_rigid (xoff yoff : R) (p q : Point) :
  dist2 (translate_point xoff yoff p) (translate_point xoff yoff q)
  = dist2 p q.
Proof. unfold dist2, translate_point. cbn [fst snd]. ring. Qed.

Lemma map_coords_compose (f g : Point -> Point) (geo : Geometry) :
  map_coords f (map_coords g geo) = map_coords (fun p => f (g p)) geo.
Proof. destruct geo; cbn; rewrite map_map; reflexivity. Qed.

Lemma map_coords_id (f : Point -> Point) (geo : Geometry) :
  (forall p, f p = p) -> map_coords f geo = geo.
Proof.
  intros Hf.
  destruct geo as [pts | pts]; cbn; f_equal;
    (transitivity (map (fun p : Point => p) pts);
     [apply map_ext; exact Hf | apply map_id]).
Qed.

Lemma rotate_point_zero (origin p : Point) : rotate_point 0 origin p = p.
Proof.
  unfold rotate_point, radians.
  replace (0 * PI / 180) with 0 by (unfold Rdiv; ring).
  rewrite cos_0, sin_0. destruct p as [x y]. cbn [fst snd].
  f_equal; ring.
Qed.

Section Rigid_Motion.

Variable eps : R.
Variable centroid : Geometry -> Point.

(** X7.  [update_position] moves the footprint rigidly: the new geometry
    is the old one with one map applied to every vertex, of the same kind
    (polygon or not) and with as many vertices, and that map keeps the
    distance of any two points.  This holds in every case, also when the
    agent is too slow to be moved. *)
Theorem update_position_is_rigid (self prev_self self' : Agent)
    (delta_t : R) (g : Geometry) :
  update_position eps centroid self prev_self delta_t = Ok self' ->
  hasGeometry self = Some g ->
  exists f : Point -> Point,
    hasGeometry self' = Some (map_coords f g)
    /\ forall p q, dist2 (f p) (f q) = dist2 p q.
Proof.
  unfold update_position. intros H Hg. rewrite Hg in H.
  assert (Hsame : Ok self = Ok self' ->
            exists f : Point -> Point,
              hasGeometry self' = Some (map_coords f g)
              /\ forall p q, dist2 (f p) (f q) = dist2 p q).
  { intros He. injection He as <-. exists (fun p => p).
    split; [|reflexivity].
    rewrite Hg. f_equal. symmetry. apply map_coords_id. reflexivity. }
  destruct (has_yaw self) as [yaw |]; [|exact (Hsame H)].
  destruct (has_speed self) as [v |]; [|exact (Hsame H)].
  destruct (Rlt_dec eps v) as [Hmov | Hrest]; [|exact (Hsame H)].
  destruct (has_yaw prev_self) as [prev_yaw |]; [|discriminate H].
  injection H as <-. cbn [hasGeometry set_hasGeometry].
  unfold translate, rotate. rewrite map_coords_compose.
  eexists. split; [reflexivity|].
  intros p q. cbv beta.
  rewrite translate_point_rigid. apply rotate_point_rigid.
Qed.

(** X8.  An agent that moves without a change of yaw is translated by
    [speed * delta_t] along its yaw and not rotated: every vertex of the
    footprint is shifted by the same displacement, whatever pivot the
    update would have rotated about. *)
Theorem update_position_straight (self prev_self : Agent)
    (delta_t yaw v : R) (g : Geometry) :
  has_yaw self = Some yaw ->
  has_yaw prev_self = Some yaw ->
  has_speed self = Some v ->
  eps < v ->
  hasGeometry self = Some g ->
  update_position eps centroid self prev_self delta_t
  = Ok (set_hasGeometry self
          (Some (translate g (cos (radians yaw) * v * delta_t)
                             (sin (radians yaw) * v * delta_t)))).
Proof.
  intros Hyaw Hprev Hv Hmov Hg. unfold update_position.
  rewrite Hyaw, Hv, Hg, Hprev.
  destruct (Rlt_dec eps v) as [_ | Hn]; [|contradiction].
  cbv zeta. unfold rotate. rewrite map_coords_id; [reflexivity|].
  intros p. replace (yaw - yaw) with 0 by ring. apply rotate_point_zero.
Qed.

End Rigid_Motion.

(** ** Yaw rates *)

Lemma logistic_range (t : R) : 0 < 1 / (1 + exp t) < 1.
Proof.
  pose proof (exp_pos t) as He.
  assert (H1 : (1 + exp t) * (1 / (1 + exp t)) = 1) by (field; lra).
  split; nra.
Qed.

Lemma logistic_monotone (k c x y : R) :
  0 < k -> x <= y ->
  1 / (1 + exp (- k * (x - c))) <= 1 / (1 + exp (- k * (y - c))).
Proof.
  intros Hk Hxy.
  assert (He : exp (- k * (y - c)) <= exp (- k * (x - c))).
  { destruct (Req_dec_T x y) as [-> | Hne]; [lra|].
    left. apply exp_increasing. nra. }
  pose proof (exp_pos (- k * (y - c))) as Hy.
  unfold Rdiv. rewrite !Rmult_1_l.
  apply Rinv_le_contravar; lra.
Qed.

Lemma floored_logistic_curve (floor k c : R) :
  0 < k -> floor < 1 ->
  smoothing_curve floor
    (fun x => py_max floor (1 / (1 + exp (- k * (x - c))))).
Proof.
  intros Hk Hfl. split.
  - intros x. pose proof (logistic_range (- k * (x - c))) as [_ Hhi].
    unfold py_max. destruct (Rlt_dec floor _); lra.
  - intros x y Hxy. pose proof (logistic_monotone k c x y Hk Hxy) as Hm.
    unfold py_max.
    destruct (Rlt_dec floor (1 / (1 + exp (- k * (x - c)))));
      destruct (Rlt_dec floor (1 / (1 + exp (- k * (y - c))))); lra.
Qed.

Lemma default_smoothing_curve :
  smoothing_curve (1 / 10) default_yaw_rate_smoothing_factor.
Proof. apply (floored_logistic_curve (1 / 10) (1 / 10) 30); lra. Qed.

(** X9.  The four yaw-rate smoothing curves (the default one and those of
    the bicyclist, the T-crossing driver and the X-crossing driver) take
    their values between their floor (0.1, for the bicyclist 0.2) and 1,
    both included, and never decrease in the required turn rate. *)
Theorem yaw_rate_smoothing_factors_are_curves :
  smoothing_curve (1 / 10) default_yaw_rate_smoothing_factor
  /\ smoothing_curve (2 / 10) Bicyclist._get_yaw_rate_smoothing_factor
  /\ smoothing_curve (1 / 10) TCrossingDriver._get_yaw_rate_smoothing_factor
  /\ smoothing_curve (1 / 10) XCrossingDriver._get_yaw_rate_smoothing_factor.
Proof.
  split; [apply (floored_logistic_curve (1 / 10) (1 / 10) 30); lra|].
  split; [apply (floored_logistic_curve (2 / 10) (15 / 100) 10); lra|].
  split; [apply (floored_logistic_curve (1 / 10) (1 / 10) 23); lra|].
  apply (floored_logistic_curve (1 / 10) (1 / 10) 20); lra.
Qed.

Section Yaw_Rate_Bound.

Variable eps maxdist : R.
Variable smoothing : R -> R.
Variable distance_to : Geometry -> Point -> R.
Variable angle : Agent -> Point -> R.
Variable right_of : Agent -> Point -> bool.

Hypothesis smoothing_range : forall x, 0 <= smoothing x <= 1.

Lemma scaled_rate_bound (sgn m s : R) :
  sgn = -1 \/ sgn = 1 -> 0 <= s <= 1 -> Rabs (sgn * m * s) <= Rabs m.
Proof.
  intros Hsgn Hs.
  replace (sgn * m * s) with ((sgn * s) * m) by ring.
  rewrite Rabs_mult.
  assert (Hk : Rabs (sgn * s) <= 1).
  { unfold Rabs. destruct (Rcase_abs (sgn * s)); destruct Hsgn; subst; lra. }
  pose proof (Rabs_pos m). pose proof (Rabs_pos (sgn * s)). nra.
Qed.

Lemma get_yaw_rate_to_reach_point_bound (self : Agent) (target : Point)
    (max_yaw_rate : R) (distance : option R) (ignore : bool) (v yr : R) :
  has_speed self = Some v ->
  0 <= v ->
  _get_yaw_rate_to_reach_point maxdist smoothing distance_to angle right_of
    self target max_yaw_rate distance ignore = Ok yr ->
  Rabs yr <= Rabs max_yaw_rate.
Proof.
  intros Hv Hv0. unfold _get_yaw_rate_to_reach_point. rewrite Hv. cbv zeta.
  assert (Hzero : Ok 0 = Ok yr -> Rabs yr <= Rabs max_yaw_rate).
  { intros H. injection H as <-. rewrite Rabs_R0. apply Rabs_pos. }
  match goal with
  | |- (if ?b then _ else Ok 0) = _ -> _ => destruct b
  end; [|exact Hzero].
  intros H. peel H.
  match type of H with
  | (if ?b then _ else Ok 0) = _ => destruct b
  end; [|exact (Hzero H)].
  match type of H with
  | context [smoothing ?x] =>
      pose proof (smoothing_range x) as Hs; set (s := smoothing x) in *
  end.
  assert (Hsgn : (if right_of self target then -1 else 1) = -1
                 \/ (if right_of self target then -1 else 1) = 1)
    by (destruct (right_of self target); auto).
  set (sgn := if right_of self target then -1 else 1) in *.
  destruct (Rlt_dec v (85 / 100)) as [Hslow | Hfast]; injection H as <-.
  - replace (sgn * max_yaw_rate * s * (v / (85 / 100)))
      with (sgn * max_yaw_rate * (s * (v / (85 / 100)))) by ring.
    apply scaled_rate_bound; [exact Hsgn|].
    assert (Hk : 0 <= v / (85 / 100) <= 1) by lra.
    nra.
  - apply scaled_rate_bound; assumption.
Qed.

(** X10.  With a smoothing curve that stays in [[0, 1]] and a
    non-negative relevant lowest speed, the yaw rate [_get_new_yaw_rate]
    commands never exceeds the maximum yaw rate of the agent in
    magnitude, whatever the target and the distance are. *)
Theorem yaw_rate_within_maximum (self : Agent) (target : Point)
    (distance : option R) (yr : R) :
  0 <= eps ->
  _get_new_yaw_rate eps maxdist smoothing distance_to angle right_of
    self target distance = Ok yr ->
  Rabs yr <= Rabs (get_maximum_yaw_rate self).
Proof.
  intros Heps. unfold _get_new_yaw_rate.
  assert (Hzero : Ok 0 = Ok yr ->
            Rabs yr <= Rabs (get_maximum_yaw_rate self)).
  { intros H. injection H as <-. rewrite Rabs_R0. apply Rabs_pos. }
  destruct (has_speed self) as [v |] eqn:Hv; cbn [bind]; [|exact Hzero].
  destruct (Rlt_dec eps v) as [Hmov | Hrest]; [|exact Hzero].
  apply (get_yaw_rate_to_reach_point_bound self target _ distance false v yr Hv).
  lra.
Qed.

End Yaw_Rate_Bound.

(** ** The order in which a capability is resolved *)

Lemma fold_left_py_max_is_max (l : list R) (x : R) :
  is_max_of (fold_left py_max l x) (x :: l).
Proof.
  revert x. induction l as [| y l IH]; intros x; cbn [fold_left].
  - split; [left; reflexivity|]. constructor; [lra | constructor].
  - destruct (IH (py_max x y)) as [Hin Hall].
    assert (Hx : x <= py_max x y /\ y <= py_max x y)
      by (unfold py_max; destruct (Rlt_dec x y); lra).
    inversion Hall as [| ? ? Hm Hrest]; subst.
    split.
    + destruct Hin as [Heq | Hin].
      * rewrite <- Heq. unfold py_max.
        destruct (Rlt_dec x y); [right; left | left]; reflexivity.
      * right. right. exact Hin.
    + constructor; [lra|]. constructor; [lra | exact Hrest].
Qed.

Lemma fold_left_py_min_is_min (l : list R) (x : R) :
  is_min_of (fold_left py_min l x) (x :: l).
Proof.
  revert x. induction l as [| y l IH]; intros x; cbn [fold_left].
  - split; [left; reflexivity|]. constructor; [lra | constructor].
  - destruct (IH (py_min x y)) as [Hin Hall].
    assert (Hx : py_min x y <= x /\ py_min x y <= y)
      by (unfold py_min; destruct (Rlt_dec y x); lra).
    inversion Hall as [| ? ? Hm Hrest]; subst.
    split.
    + destruct Hin as [Heq | Hin].
      * rewrite <- Heq. unfold py_min.
        destruct (Rlt_dec y x); [right; left | left]; reflexivity.
      * right. right. exact Hin.
    + constructor; [lra|]. constructor; [lra | exact Hrest].
Qed.

(** The three sources of [get_optimized_attr], in the order it reads
    them. *)
Lemma get_optimized_attr_sources (self : Agent) (attr : Capability)
    (opt_func : R -> R -> R) (own : list R) :
  own_attr self attr = Some own ->
  exists attrs,
    get_optimized_attr self attr opt_func
    = match attrs with
      | [] => 0
      | x :: rest => fold_left opt_func rest x
      end
    /\ (own <> [] -> is_a self <> [] ->
        forall x, In x attrs <-> In x own)
    /\ (own = [] \/ is_a self = [] ->
        class_values attr (INDIRECT_is_a self) <> [] ->
        attrs = class_values attr (INDIRECT_is_a self))
    /\ (own = [] \/ is_a self = [] ->
        class_values attr (INDIRECT_is_a self) = [] ->
        attrs = flat_map (fun veh => class_values attr (veh_INDIRECT_is_a veh))
                  (drives self)).
Proof.
  intros Hown. unfold get_optimized_attr. rewrite Hown. cbv zeta.
  assert (Hmem : forall x, In x (flat_map (fun _ : OntClass => own) (is_a self))
                           <-> (is_a self <> [] /\ In x own)).
  { intros x. rewrite in_flat_map. split.
    - intros (c & Hc & Hx). split; [|exact Hx].
      intros He. rewrite He in Hc. contradiction.
    - intros [Hne Hx]. destruct (is_a self) as [| c cs]; [contradiction|].
      exists c. split; [left; reflexivity | exact Hx]. }
  destruct (flat_map (fun _ : OntClass => own) (is_a self)) as [| a0 attrs0]
    eqn:Hfm.
  - assert (Hempty : own <> [] -> is_a self <> [] -> False).
    { intros Ho Hi. destruct own as [| x own']; [contradiction|].
      apply (proj2 (Hmem x)). split; [exact Hi | left; reflexivity]. }
    destruct (class_values attr (INDIRECT_is_a self)) as [| c0 cs] eqn:Hcv.
    + eexists. split; [reflexivity|].
      split; [intros Ho Hi; destruct (Hempty Ho Hi)|].
      split; [intros _ Hne; contradiction | reflexivity].
    + exists (c0 :: cs). split; [reflexivity|].
      split; [intros Ho Hi; destruct (Hempty Ho Hi)|].
      split; [reflexivity | intros _ He; discriminate].
  - exists (a0 :: attrs0). split; [reflexivity|].
    assert (Hboth : own <> [] /\ is_a self <> []).
    { destruct (proj1 (Hmem a0) (or_introl eq_refl)) as [Hi Hx].
      split; [|exact Hi]. intros He. rewrite He in Hx. contradiction. }
    split.
    { intros _ Hi x. rewrite Hmem. tauto. }
    split; intros [He | He]; destruct Hboth; contradiction.
Qed.

(** X11.  [get_optimized_attr] resolves a capability from the first
    source that has a value: the values asserted on the individual itself
    (if it has a direct class), else the values declared on the classes of
    its ancestry, else those declared on the ancestry of the vehicles it
    drives.  With [max] it returns the largest value of that source, with
    [min] the smallest; values of a later source never enter, however
    large or small they are. *)
Theorem capability_resolution_order (self : Agent) (attr : Capability)
    (own : list R) :
  own_attr self attr = Some own ->
  let from_classes := class_values attr (INDIRECT_is_a self) in
  let from_vehicles :=
    flat_map (fun veh => class_values attr (veh_INDIRECT_is_a veh))
      (drives self) in
  (own <> [] -> is_a self <> [] ->
   is_max_of (get_optimized_attr self attr py_max) own
   /\ is_min_of (get_optimized_attr self attr py_min) own)
  /\ (own = [] \/ is_a self = [] -> from_classes <> [] ->
      is_max_of (get_optimized_attr self attr py_max) from_classes
      /\ is_min_of (get_optimized_attr self attr py_min) from_classes)
  /\ (own = [] \/ is_a self = [] -> from_classes = [] ->
      from_vehicles <> [] ->
      is_max_of (get_optimized_attr self attr py_max) from_vehicles
      /\ is_min_of (get_optimized_attr self attr py_min) from_vehicles).
Proof.
  intros Hown from_classes from_vehicles.
  destruct (get_optimized_attr_sources self attr py_max own Hown)
    as (amax & Emax & Hmax1 & Hmax2 & Hmax3).
  destruct (get_optimized_attr_sources self attr py_min own Hown)
    as (amin & Emin & Hmin1 & Hmin2 & Hmin3).
  rewrite Emax, Emin.
  assert (Pmax : forall l, l <> [] ->
            is_max_of match l with
                      | [] => 0
                      | x :: rest => fold_left py_max rest x
                      end l).
  { intros [| x rest] Hne; [contradiction|]. apply fold_left_py_max_is_max. }
  assert (Pmin : forall l, l <> [] ->
            is_min_of match l with
                      | [] => 0
                      | x :: rest => fold_left py_min rest x
                      end l).
  { intros [| x rest] Hne; [contradiction|]. apply fold_left_py_min_is_min. }
  assert (Hne : forall (l : list R), (forall x, In x l <-> In x own) ->
            own <> [] -> l <> []).
  { intros l Hl Ho He. destruct own as [| x own']; [contradiction|].
    rewrite He in Hl. apply (proj2 (Hl x)). left. reflexivity. }
  split; [|split].
  - intros Ho Hi.
    specialize (Hmax1 Ho Hi). specialize (Hmin1 Ho Hi).
    destruct (Pmax amax (Hne _ Hmax1 Ho)) as [Hin Hall].
    destruct (Pmin amin (Hne _ Hmin1 Ho)) as [Hin' Hall'].
    rewrite Forall_forall in Hall, Hall'.
    split; (split; [|apply Forall_forall; intros x Hx]).
    + apply Hmax1. exact Hin.
    + apply Hall. apply Hmax1. exact Hx.
    + apply Hmin1. exact Hin'.
    + apply Hall'. apply Hmin1. exact Hx.
  - intros Hsrc Hcls.
    rewrite (Hmax2 Hsrc Hcls), (Hmin2 Hsrc Hcls).
    split; [apply Pmax | apply Pmin]; exact Hcls.
  - intros Hsrc Hcls Hveh.
    rewrite (Hmax3 Hsrc Hcls), (Hmin3 Hsrc Hcls).
    split; [apply Pmax | apply Pmin]; exact Hveh.
Qed.

(** ** The state machine of the driver *)

Section Driver_Facts.

Variable RNG : Type.
Variable K : Driver.Constants.
Variable W : Driver.World RNG.

Lemma update_speed_mode_keeps_turn (self new_self self' new_self' : Driver.State) :
  Driver.update_speed_mode K W self new_self = Ok (self', new_self') ->
  Driver.driving_mode new_self' = Driver.driving_mode new_self
  /\ Driver.next_lane new_self' = Driver.next_lane new_self.
Proof.
  unfold Driver.update_speed_mode. intros H.
  destruct (Driver.get_intersecting_object K W self) as [s |]; [|discriminate].
  cbn [bind] in H. cbv zeta in H. injection H as _ <-.
  cbn [Driver.driving_mode Driver.next_lane Driver.set_speed_mode].
  destruct (match Driver.intersecting_object (Driver.retained s) with
            | Some o => _
            | None => false
            end); split; reflexivity.
Qed.

Lemma update_driving_mode_turning (self new_self self' new_self' : Driver.State)
    (cur_lane : option Lane) (rng rng' : RNG) :
  turning_has_next_lane self ->
  Driver.update_driving_mode W self new_self cur_lane rng
  = Ok (self', new_self', rng') ->
  turning_has_next_lane new_self'
  /\ (Driver.driving_mode self = Driver.DrivingMode.Turning ->
      (Driver.driving_mode new_self' = Driver.DrivingMode.Turning
       /\ Driver.next_lane new_self' = Driver.next_lane self)
      \/ (Driver.driving_mode new_self' = Driver.DrivingMode.LaneFollowing
          /\ Driver.next_lane new_self' = None)).
Proof.
  unfold Driver.update_driving_mode, turning_has_next_lane. intros Hinv H.
  destruct (Driver.driving_mode self) eqn:Hmode.
  all: ok_cases H; injection H as <- <- <-;
    cbn [Driver.driving_mode Driver.next_lane Driver.set_driving_mode
         Driver.set_next_lane];
    (split; [try discriminate | try discriminate]).
  all: try (intros _; eauto).
  all: try (destruct (Hinv eq_refl) as [l0 Hl0]; congruence).
  all: try (right; split; reflexivity).
  all: try (left; split; reflexivity).
Qed.

(** X12.  Once a driver is in driving mode [Turning] with a chosen lane,
    [update_state] keeps it there with the same lane until the turn is
    finished, and then puts it into [LaneFollowing] with the lane
    cleared: a turn is never given up for [DeadEnd] or [Roaming], not even
    off every lane; and in every tick the next-tick individual in mode
    [Turning] has a next lane. *)
Theorem turning_driver_keeps_its_next_lane
    (self new_self self' new_self' : Driver.State)
    (cur_lane : option Lane) (rng rng' : RNG) :
  turning_has_next_lane self ->
  Driver.update_state K W self new_self cur_lane rng
  = Ok (self', new_self', rng') ->
  turning_has_next_lane new_self'
  /\ (Driver.driving_mode self = Driver.DrivingMode.Turning ->
      (Driver.driving_mode new_self' = Driver.DrivingMode.Turning
       /\ Driver.next_lane new_self' = Driver.next_lane self)
      \/ (Driver.driving_mode new_self' = Driver.DrivingMode.LaneFollowing
          /\ Driver.next_lane new_self' = None)).
Proof.
  unfold Driver.update_state. intros Hinv H.
  destruct (Driver.update_driving_mode W self new_self cur_lane rng)
    as [[[s n] g] |] eqn:Hdm; [|discriminate].
  cbn [bind] in H.
  destruct (Driver.update_speed_mode K W s n) as [[s2 n2] |] eqn:Hsm;
    [|discriminate].
  cbn in H. injection H as <- <- <-.
  destruct (update_speed_mode_keeps_turn _ _ _ _ Hsm) as [Hm Hl].
  destruct (update_driving_mode_turning _ _ _ _ _ _ _ Hinv Hdm) as [Hn Ht].
  unfold turning_has_next_lane in *. rewrite Hm, Hl. split; assumption.
Qed.

(** X13.  A driver that has not yet chosen a lane chooses among the
    successors of its current lane: with a random source whose draws are
    in range the choice never fails, it is no lane exactly when the
    current lane has no successor, a lane it returns is one of the
    successors, and the choice is remembered for the rest of the tick. *)
Theorem next_lane_is_a_successor (self : Driver.State) (cur : Lane) (rng : RNG) :
  Driver.next_lane_memo self = None ->
  Driver.next_lane self = None ->
  (forall g n, (0 < n)%nat -> (fst (Driver.randbelow W g n) < n)%nat) ->
  exists suc self' rng',
    Driver._get_next_lane W self (Some cur) rng = Ok (suc, self', rng')
    /\ (suc = None <-> Driver.has_successor_lane W cur = [])
    /\ (forall l, suc = Some l -> In l (Driver.has_successor_lane W cur))
    /\ Driver.next_lane_memo self' = Some suc.
Proof.
  intros Hmemo Hnext Hrange. unfold Driver._get_next_lane.
  rewrite Hmemo, Hnext.
  destruct (Driver.has_successor_lane W cur) as [| l0 ls] eqn:Hsucc.
  - cbn [bind fst snd]. do 3 eexists. split; [reflexivity|].
    split; [tauto|]. split; [discriminate | reflexivity].
  - set (lanes := l0 :: ls) in *.
    assert (Hpos : (0 < List.length lanes)%nat) by (cbn; lia).
    specialize (Hrange rng (List.length lanes) Hpos).
    destruct (Driver.randbelow W rng (List.length lanes)) as [i rng1].
    cbn [fst] in Hrange.
    pose proof (sorted_with_perm _ (str_ltb lane_str) lanes) as Hperm.
    fold (sorted_by_key lane_str lanes) in Hperm.
    assert (Hlen : List.length (sorted_by_key lane_str lanes)
                   = List.length lanes)
      by (apply Permutation_length; exact Hperm).
    destruct (nth_error (sorted_by_key lane_str lanes) i) as [suc |] eqn:Hnth.
    + cbn [bind fst snd]. do 3 eexists. split; [reflexivity|].
      split; [split; discriminate|].
      split; [|reflexivity].
      intros l Hl. injection Hl as <-.
      apply (Permutation_in _ Hperm). eapply nth_error_In. exact Hnth.
    + apply nth_error_None in Hnth. lia.
Qed.

(** *** Conflict retention *)

(** A retained conflict as the loop leaves it: none, or a candidate that
    passed the tests. *)
Let consistent (r : Driver.Retained) : Prop :=
  r = Driver.no_conflict
  \/ exists c, r = Driver.retain c /\ acceptable K W Driver.no_conflict c.

Lemma consistent_total (r : Driver.Retained) :
  consistent r ->
  (r = Driver.no_conflict /\ retained_total_time r = None)
  \/ exists c T, r = Driver.retain c
                 /\ acceptable K W Driver.no_conflict c
                 /\ total_time c = Some T
                 /\ retained_total_time r = Some T.
Proof.
  intros [-> | (c & -> & Hc)]; [left; split; reflexivity|].
  right. destruct Hc as (ts & to & Hs & Ho & Hrest) eqn:E.
  exists c, (ts + to).
  split; [reflexivity|]. split; [assumption|].
  unfold total_time, retained_total_time, Driver.retain. cbn.
  rewrite Hs, Ho. split; reflexivity.
Qed.

(** The test of the loop, decided. *)
Lemma accepts_decided (r : Driver.Retained) (c : Candidate) :
  consistent r ->
  exists b,
    Driver.accepts K W r c = Ok b
    /\ (b = true <->
        acceptable K W Driver.no_conflict c
        /\ forall T Tc, retained_total_time r = Some T ->
                        total_time c = Some Tc -> Tc < T).
Proof.
  intros Hr. unfold Driver.accepts, acceptable, total_time.
  destruct (cand_t_self c) as [t_self |];
    [|exists false; split; [reflexivity|];
      split; [discriminate | intros [(a & b & Ha & _) _]; discriminate]].
  destruct (cand_t_other c) as [t_other |];
    [|exists false; split; [reflexivity|];
      split; [discriminate | intros [(a & b & _ & Hb & _) _]; discriminate]].
  destruct (Rleb (t_self + t_other) (Driver._MAX_DISTANCE_FOR_YIELDING_MODE K))
    eqn:Hsum; cbn [andb].
  2:{ exists false. split; [reflexivity|]. split; [discriminate|].
      intros [(a & b & Ha & Hb & Hs & _) _].
      injection Ha as <-. injection Hb as <-.
      apply Rleb_true in Hs. congruence. }
  destruct (Rleb 0 (t_self - t_other)) eqn:Hlo; cbn [andb].
  2:{ exists false. split; [reflexivity|]. split; [discriminate|].
      intros [(a & b & Ha & Hb & _ & [Hl _] & _) _].
      injection Ha as <-. injection Hb as <-.
      apply Rleb_true in Hl. congruence. }
  destruct (Rleb (t_self - t_other)
              (Driver._MAX_PET_FOR_BRAKING_WHEN_INTERSECTING K)) eqn:Hhi.
  2:{ exists false. split; [reflexivity|]. split; [discriminate|].
      intros [(a & b & Ha & Hb & _ & [_ Hh] & _) _].
      injection Ha as <-. injection Hb as <-.
      apply Rleb_true in Hh. congruence. }
  apply Rleb_true in Hsum, Hlo, Hhi.
  assert (Hbase : Driver.in_front_of W (cand_p_int c) = true ->
            exists a b : R,
              Some t_self = Some a /\ Some t_other = Some b
              /\ a + b <= Driver._MAX_DISTANCE_FOR_YIELDING_MODE K
              /\ 0 <= a - b <= Driver._MAX_PET_FOR_BRAKING_WHEN_INTERSECTING K
              /\ (forall s o, Driver.tti_self Driver.no_conflict = Some s ->
                              Driver.tti_object Driver.no_conflict = Some o ->
                              a + b < s + o)
              /\ Driver.in_front_of W (cand_p_int c) = true).
  { intros Hf. exists t_self, t_other. repeat split; try assumption.
    intros s o Hs. discriminate. }
  destruct (consistent_total r Hr)
    as [[-> _] | (c0 & T & -> & Hc0 & HT & HrT)].
  - cbn [Driver.tti_self Driver.no_conflict bind andb].
    exists (Driver.in_front_of W (cand_p_int c)). split; [reflexivity|].
    split.
    + intros Hf. split; [apply Hbase; exact Hf|].
      intros T Tc HT. discriminate.
    + intros [(a & b & _ & _ & _ & _ & _ & Hf) _]. exact Hf.
  - unfold retained_total_time in HrT |- *.
    destruct (Driver.tti_self (Driver.retain c0)) as [s |]; [|discriminate].
    destruct (Driver.tti_object (Driver.retain c0)) as [o |]; [|discriminate].
    injection HrT as HrT. cbn [bind].
    exists (Rltb (t_self + t_other) (s + o)
            && Driver.in_front_of W (cand_p_int c)).
    split; [reflexivity|]. split.
    + intros Hb. apply andb_prop in Hb as [Hlt Hf]. apply Rltb_true in Hlt.
      split; [apply Hbase; exact Hf|].
      intros T' Tc HT' HTc. injection HT' as <-. injection HTc as <-. exact Hlt.
    + intros [(a & b & _ & _ & _ & _ & _ & Hf) Himp].
      apply andb_true_intro. split; [|exact Hf].
      apply Rltb_true. apply (Himp (s + o) (t_self + t_other)); reflexivity.
Qed.

Lemma acceptable_total (c : Candidate) :
  acceptable K W Driver.no_conflict c -> exists Tc, total_time c = Some Tc.
Proof.
  intros (a & b & Ha & Hb & _). unfold total_time. rewrite Ha, Hb. eauto.
Qed.

(** The loop keeps the earliest of the candidates that pass the tests. *)
Lemma scan_candidates_earliest (feed : list Candidate) :
  forall r, consistent r ->
  exists r',
    Driver.scan_candidates K W r feed = Ok r'
    /\ consistent r'
    /\ (forall T, retained_total_time r = Some T ->
        exists T', retained_total_time r' = Some T' /\ T' <= T)
    /\ (forall c Tc, In c feed -> acceptable K W Driver.no_conflict c ->
        total_time c = Some Tc ->
        exists T', retained_total_time r' = Some T' /\ T' <= Tc)
    /\ (retained_total_time r' = None ->
        r' = r /\ forall c, In c feed -> ~ acceptable K W Driver.no_conflict c).
Proof.
  induction feed as [| c feed IH]; intros r Hr; cbn [Driver.scan_candidates].
  - exists r. split; [reflexivity|]. split; [exact Hr|].
    split; [intros T HT; exists T; split; [exact HT | lra]|].
    split; [intros c Tc []|].
    intros _. split; [reflexivity | intros c []].
  - destruct (accepts_decided r c Hr) as (b & Hacc & Hb).
    rewrite Hacc. cbn [bind].
    destruct b.
    + destruct (proj1 Hb eq_refl) as [Hc Himp].
      assert (Hrc : consistent (Driver.retain c)) by (right; eauto).
      destruct (acceptable_total c Hc) as [Tc0 HTc0].
      assert (HrT : retained_total_time (Driver.retain c) = Some Tc0).
      { unfold total_time in HTc0. unfold retained_total_time, Driver.retain.
        cbn. exact HTc0. }
      destruct (IH _ Hrc) as (r' & Hscan & Hr' & Hle & Hbest & Hnone).
      exists r'. split; [exact Hscan|]. split; [exact Hr'|].
      destruct (Hle _ HrT) as (T' & HT' & HT'le).
      split; [|split].
      * intros T HT. exists T'. split; [exact HT'|].
        specialize (Himp T Tc0 HT HTc0). lra.
      * intros c1 Tc1 [<- | Hin] Hc1 HTc1.
        -- exists T'. split; [exact HT'|]. congruence.
        -- apply (Hbest c1 Tc1 Hin Hc1 HTc1).
      * intros Hn. congruence.
    + destruct (IH _ Hr) as (r' & Hscan & Hr' & Hle & Hbest & Hnone).
      exists r'. split; [exact Hscan|]. split; [exact Hr'|].
      split; [exact Hle|]. split.
      * intros c1 Tc1 [<- | Hin] Hc1 HTc1; [|apply (Hbest c1 Tc1 Hin Hc1 HTc1)].
        destruct (retained_total_time r) as [T |] eqn:HT.
        -- destruct (Hle T eq_refl) as (T' & HT' & HT'le).
           exists T'. split; [exact HT'|].
           destruct (Rlt_dec Tc1 T) as [Hlt | Hge]; [|lra].
           exfalso.
           assert (Htrue : false = true); [|discriminate].
           apply Hb. split; [exact Hc1|].
           intros T0 Tc0 HT0 HTc0. congruence.
        -- exfalso.
           assert (Htrue : false = true); [|discriminate].
           apply Hb. split; [exact Hc1|].
           intros T0 Tc0 HT0. discriminate.
      * intros Hn. destruct (Hnone Hn) as [-> Hall].
        split; [reflexivity|].
        intros c1 [<- | Hin]; [|apply Hall; exact Hin].
        intros Hc1.
        assert (Htrue : false = true); [|discriminate].
        apply Hb. split; [exact Hc1|].
        intros T0 Tc0 HT0. congruence.
Qed.

(** X14.  A driver of a vehicle that holds no conflict comes out of
    [get_intersecting_object] without an exception and with the earliest
    conflict of the feed: it holds none exactly when no candidate passes
    the tests (horizon, time gap, intersection point in front), and
    otherwise the total time of the conflict it holds is at most that of
    every candidate that passes them. *)
Theorem retained_conflict_is_the_earliest (self : Driver.State) :
  Driver.retained self = Driver.no_conflict ->
  drives (Driver.agent self) <> [] ->
  exists self',
    Driver.get_intersecting_object K W self = Ok self'
    /\ (Driver.intersecting_object (Driver.retained self') = None <->
        forall c, In c (Driver.get_intersecting_objects W) ->
                  ~ acceptable K W Driver.no_conflict c)
    /\ (forall c Tc, In c (Driver.get_intersecting_objects W) ->
        acceptable K W Driver.no_conflict c ->
        total_time c = Some Tc ->
        exists T, retained_total_time (Driver.retained self') = Some T
                  /\ T <= Tc).
Proof.
  intros Hclean Hdrives. unfold Driver.get_intersecting_object.
  rewrite Hclean. cbn [Driver.intersecting_object Driver.no_conflict].
  destruct (drives (Driver.agent self)) as [| veh vehs]; [contradiction|].
  destruct (scan_candidates_earliest (Driver.get_intersecting_objects W)
              Driver.no_conflict (or_introl eq_refl))
    as (r' & Hscan & Hr' & _ & Hbest & Hnone).
  rewrite Hscan. cbn [bind]. eexists. split; [reflexivity|].
  cbn [Driver.retained Driver.set_retained].
  split; [|exact Hbest].
  destruct (consistent_total r' Hr')
    as [[-> HT] | (c0 & T & -> & Hc0 & HTc & HT)].
  - split; [|reflexivity]. intros _. apply (Hnone HT).
  - split; [discriminate|]. intros Hall. exfalso.
    destruct (acceptable_total c0 Hc0) as [Tc HTc0].
    assert (Hin : exists c, In c (Driver.get_intersecting_objects W)
                            /\ acceptable K W Driver.no_conflict c).
    { clear - Hscan Hc0.
      destruct (scan_candidates_result _ K W _ _ _ Hscan)
        as [Heq | (pre & c & post & before & Hf & _ & Ha & Hr)].
      - discriminate.
      - exists c. split; [rewrite Hf; apply in_elt|].
        apply accepts_true in Ha.
        destruct Ha as (a & b & Ha & Hb & Hs & Hp & _ & Hf').
        exists a, b. repeat split; try assumption; try apply Hp.
        intros s o Hs0. discriminate. }
    destruct Hin as (c & Hin & Hc). exact (Hall c Hin Hc).
Qed.

(** X15.  A driver that already holds a conflict object does not read
    the feed again: [update_state] keeps the object with the times and the
    intersection point noted when it was accepted, whatever the feed
    holds now; unless a lead vehicle is found the speed mode is
    [Yielding] in this tick, also when the object has left the feed; and
    the next-tick individual takes the conflict over exactly when the
    object is still in the feed. *)
Theorem retained_conflict_is_sticky (self new_self self' new_self' : Driver.State)
    (o : nat) :
  Driver.intersecting_object (Driver.retained self) = Some o ->
  Driver.update_speed_mode K W self new_self = Ok (self', new_self') ->
  Driver.retained self' = Driver.retained self
  /\ (Driver.lead_vehicle self' = None ->
      Driver.speed_mode new_self' = Driver.SpeedMode.Yielding)
  /\ Driver.retained new_self'
     = if existsb (fun c => Nat.eqb (cand_obj c) o)
            (Driver.get_intersecting_objects W)
       then Driver.retained self
       else Driver.no_conflict.
Proof.
  intros Hobj. unfold Driver.update_speed_mode, Driver.get_intersecting_object.
  rewrite Hobj. cbn [bind]. cbv zeta. rewrite Hobj.
  intros H. injection H as <- <-.
  split; [|split].
  - unfold Driver.get_lead_vehicle.
    destruct (Driver.found_lead_vehicle W); reflexivity.
  - intros Hlead. cbn [Driver.speed_mode Driver.set_speed_mode].
    rewrite Hlead. reflexivity.
  - cbn [Driver.retained Driver.set_speed_mode].
    destruct (existsb _ _); reflexivity.
Qed.

(** *** Target speed and target distance *)

Lemma py_min_le (a b : R) : py_min a b <= a /\ py_min a b <= b.
Proof. unfold py_min. destruct (Rlt_dec b a); lra. Qed.

(** X16.  The target speed of a driver respects its caps.  Close to a
    crossing it is at most the crossing speed, in every speed mode.  In
    speed mode [Unrestricted] it is at most the default target speed, and
    at most the turning speed for a driver in driving mode [Turning].  In
    the speed modes [Stopping] and [Yielding] it is at most 0, and is 0
    for a non-negative crossing speed. *)
Theorem target_speed_respects_caps (self new_self : Driver.State) (s : R) :
  Driver.get_target_speed K W self new_self = Ok (Some s) ->
  (Driver.close_to_crossing W = true ->
   s <= Driver.crossing_speed (Driver.profile self))
  /\ (Driver.speed_mode new_self = Driver.SpeedMode.Unrestricted ->
      s <= Driver.default_target_speed (Driver.profile self)
      /\ (Driver.driving_mode self = Driver.DrivingMode.Turning ->
          s <= Driver.turning_speed (Driver.profile self)))
  /\ (Driver.speed_mode new_self = Driver.SpeedMode.Stopping
      \/ Driver.speed_mode new_self = Driver.SpeedMode.Yielding ->
      s <= 0
      /\ (0 <= Driver.crossing_speed (Driver.profile self) -> s = 0)).
Proof.
  unfold Driver.get_target_speed. intros H. peel H.
  assert (Hs : s = match a with
                   | Some s0 =>
                       if Driver.close_to_crossing W
                       then py_min (Driver.crossing_speed (Driver.profile self)) s0
                       else s0
                   | None => s
                   end
               /\ exists s0, a = Some s0).
  { destruct (Driver.close_to_crossing W); destruct a as [s0 |];
      try discriminate; injection H as <-; eauto. }
  destruct Hs as [Hs [s0 ->]]. clear H.
  pose proof (py_min_le (Driver.crossing_speed (Driver.profile self)) s0)
    as [Hc1 Hc2].
  assert (Hle : s <= s0) by (destruct (Driver.close_to_crossing W); lra).
  split; [intros Hclose; rewrite Hclose in Hs; lra|].
  split.
  - intros Hmode. rewrite Hmode in E. injection E as <-.
    unfold Driver.get_default_speed in *.
    match type of Hle with
    | s <= py_min ?x ?y => pose proof (py_min_le x y) as [Hd1 Hd2]
    end.
    split; [lra|]. intros Hturn. rewrite Hturn in *. lra.
  - intros Hmode.
    assert (Hz : s0 = 0).
    { destruct Hmode as [Hmode | Hmode]; rewrite Hmode in E.
      - congruence.
      - peel E. congruence. }
    subst s0. split; [lra|]. intros Hcs.
    destruct (Driver.close_to_crossing W); [|lra].
    unfold py_min in Hs. destruct (Rlt_dec 0 _); lra.
Qed.

Variable distance_to : Geometry -> Point -> R.

(** X17.  The distance [get_target] reports never exceeds the distance
    from the (driven) footprint to the target point of the driving mode:
    yielding and vehicle following can only shorten it.  The target point
    itself is replaced only in speed mode [Following], and then the
    distance reported is the distance to the point returned. *)
Theorem target_distance_is_only_shortened (self new_self self' : Driver.State)
    (t t' : Point) (d : R) :
  Driver.target_distance K W distance_to self new_self t = Ok (t', d, self') ->
  exists self_geom,
    match drives (Driver.agent self) with
    | veh :: _ => self_geom = veh_geometry veh
    | [] => hasGeometry (Driver.agent self) = Some self_geom
    end
    /\ d <= distance_to self_geom t
    /\ (Driver.speed_mode new_self <> Driver.SpeedMode.Following -> t' = t)
    /\ (Driver.speed_mode new_self = Driver.SpeedMode.Following ->
        d = distance_to self_geom t').
Proof.
  unfold Driver.target_distance. intros H. peel H. cbv zeta in H.
  exists a. split.
  { destruct (drives (Driver.agent self)) as [| veh vehs].
    - destruct (hasGeometry (Driver.agent self)); [congruence | discriminate].
    - congruence. }
  destruct (Driver.speed_mode new_self) eqn:Hmode.
  all: try (injection H as <- <- <-;
            split; [lra|]; split; [reflexivity | discriminate]).
  - destruct (Driver.lead_vehicle (Driver.get_lead_vehicle W self));
      [|discriminate].
    destruct (Rltb _ _) eqn:Hlt; injection H as <- <- <-.
    + apply Rltb_true in Hlt.
      split; [lra|]. split; [congruence | reflexivity].
    + split; [lra|]. split; [congruence | reflexivity].
  - peel H. injection H as <- <- <-.
    match goal with
    | |- py_min ?x ?y <= _ /\ _ => pose proof (py_min_le x y) as [Hm _]
    end.
    split; [exact Hm|]. split; [reflexivity | discriminate].
Qed.

End Driver_Facts.

(** ** The searches of the driver *)

Section Current_Lane_Facts.

Variable overlap : Lane -> R.

(** The second disjunct of the test never decides. *)
Lemma current_lane_step_simplified (cur : option Lane) (largest : R) (lane : Lane) :
  0 <= largest ->
  Driver_Search.current_lane_step overlap (cur, largest) lane
  = if Rlt_dec largest (overlap lane)
    then (Some lane, overlap lane)
    else (cur, largest).
Proof.
  intros Hl. unfold Driver_Search.current_lane_step, Rltb. cbv zeta.
  destruct (Rlt_dec largest (overlap lane)) as [Hlt | Hge]; [reflexivity|].
  cbn [orb].
  destruct (Req_dec_T largest 0) as [Hz | Hnz]; [|reflexivity].
  destruct (Rlt_dec (1 / 2) (overlap lane)); [lra | reflexivity].
Qed.

(** What the loop holds after the lanes [seen]. *)
Let holds (seen : list Lane) (st : option Lane * R) : Prop :=
  0 <= snd st
  /\ Forall (fun l => overlap l <= snd st) seen
  /\ match fst st with
     | None => snd st = 0
     | Some l =>
         overlap l = snd st /\ 0 < overlap l
         /\ exists pre post,
              seen = pre ++ l :: post
              /\ Forall (fun l' => overlap l' < overlap l) pre
     end.

Lemma current_lane_loop (lanes : list Lane) :
  forall seen st,
    holds seen st ->
    holds (seen ++ lanes)
      (fold_left (Driver_Search.current_lane_step overlap) lanes st).
Proof.
  induction lanes as [| lane lanes IH]; intros seen st Hst; cbn [fold_left].
  - rewrite app_nil_r. exact Hst.
  - replace (seen ++ lane :: lanes) with ((seen ++ [lane]) ++ lanes)
      by (rewrite <- app_assoc; reflexivity).
    apply IH. destruct st as [cur largest].
    destruct Hst as (Hpos & Hall & Hcur). cbn [fst snd] in *.
    rewrite (current_lane_step_simplified cur largest lane Hpos).
    destruct (Rlt_dec largest (overlap lane)) as [Hlt | Hge];
      unfold holds; cbn [fst snd].
    + split; [lra|]. split.
      * apply Forall_app. split.
        -- eapply Forall_impl; [|exact Hall]. cbv beta. intros; lra.
        -- constructor; [lra | constructor].
      * split; [reflexivity|]. split; [lra|].
        exists seen, []. split; [reflexivity|].
        eapply Forall_impl; [|exact Hall]. cbv beta. intros; lra.
    + split; [exact Hpos|]. split.
      * apply Forall_app. split; [exact Hall|].
        constructor; [lra | constructor].
      * destruct cur as [l |]; [|exact Hcur].
        destruct Hcur as (Heq & Hl & pre & post & Hseen & Hpre).
        split; [exact Heq|]. split; [exact Hl|].
        exists pre, (post ++ [lane]). split; [|exact Hpre].
        rewrite Hseen, <- app_assoc. reflexivity.
Qed.

(** X18.  [Driver.get_current_lane] returns the first of the lanes whose
    overlap with the footprint is largest, provided that overlap is
    positive, and no lane exactly when no lane has a positive overlap.
    The extra threshold of the source (an overlap above 0.5 while nothing
    is found yet) never decides: a lane with a positive overlap of at
    most 0.5 is found as well. *)
Theorem current_lane_has_largest_overlap (lanes : list Lane) :
  match Driver_Search.get_current_lane overlap lanes with
  | Some l =>
      0 < overlap l
      /\ Forall (fun l' => overlap l' <= overlap l) lanes
      /\ exists pre post,
           lanes = pre ++ l :: post
           /\ Forall (fun l' => overlap l' < overlap l) pre
  | None => Forall (fun l' => overlap l' <= 0) lanes
  end.
Proof.
  unfold Driver_Search.get_current_lane.
  assert (H0 : holds [] (None, 0)).
  { unfold holds. cbn. split; [lra|]. split; [constructor | reflexivity]. }
  pose proof (current_lane_loop lanes [] (None, 0) H0) as H.
  cbn [app] in H.
  destruct (fold_left (Driver_Search.current_lane_step overlap) lanes (None, 0))
    as [cur largest].
  destruct H as (Hpos & Hall & Hcur). cbn [fst snd] in *.
  destruct cur as [l |].
  - destruct Hcur as (Heq & Hl & Hfirst).
    split; [exact Hl|]. split; [|exact Hfirst].
    rewrite Heq. exact Hall.
  - rewrite Hcur in Hall. exact Hall.
Qed.

End Current_Lane_Facts.

Section Bicyclist_Lane_Facts.

Variable overlap : Lane -> R.
Variable lane_area : Lane -> R.

Lemma isclose_refl (a : R) : isclose a a = true.
Proof.
  unfold isclose. apply Rleb_true.
  replace (a - a) with 0 by ring. rewrite Rabs_R0.
  unfold py_max. destruct (Rlt_dec _ 0); lra.
Qed.

(** What the first loop holds after the lanes [seen]. *)
Let holds1 (seen : list Lane) (st : list Lane * R) : Prop :=
  0 <= snd st
  /\ Forall (fun l => overlap l <= snd st) seen
  /\ (snd st = 0 -> fst st = [])
  /\ (0 < snd st -> exists l, In l (fst st) /\ overlap l = snd st)
  /\ Forall (fun l => In l seen /\ 0 < overlap l
                      /\ isclose (overlap l) (snd st) = true) (fst st)
  /\ Forall (fun l => overlap l = snd st -> 0 < snd st -> In l (fst st)) seen.

Lemma largest_overlap_loop (lanes : list Lane) :
  forall seen st,
    holds1 seen st ->
    holds1 (seen ++ lanes)
      (fold_left (Bicyclist.largest_overlap_step overlap) lanes st).
Proof.
  induction lanes as [| lane lanes IH]; intros seen st Hst; cbn [fold_left].
  - rewrite app_nil_r. exact Hst.
  - replace (seen ++ lane :: lanes) with ((seen ++ [lane]) ++ lanes)
      by (rewrite <- app_assoc; reflexivity).
    apply IH. destruct st as [cur largest].
    destruct Hst as (Hpos & Hall & Hzero & Hmax & Hcur & Hin).
    cbn [fst snd] in *.
    unfold Bicyclist.largest_overlap_step. cbv zeta.
    destruct (Rlt_dec largest (overlap lane)) as [Hlt | Hge];
      unfold holds1; cbn [fst snd].
    + split; [lra|]. split.
      { apply Forall_app. split.
        - eapply Forall_impl; [|exact Hall]. cbv beta. intros; lra.
        - constructor; [lra | constructor]. }
      split; [intros; lra|].
      split; [intros _; exists lane; split; [left|]; reflexivity|].
      split.
      { constructor; [|constructor].
        split; [apply in_or_app; right; left; reflexivity|].
        split; [lra | apply isclose_refl]. }
      apply Forall_app. split.
      * rewrite Forall_forall in Hall |- *. intros l Hl Heq _.
        specialize (Hall l Hl). cbv beta in Hall. lra.
      * constructor; [|constructor]. intros _ _. left. reflexivity.
    + destruct (Rltb 0 (overlap lane) && isclose (overlap lane) largest)
        eqn:Hclose; cbn [fst snd].
      * apply andb_prop in Hclose as [Hp Hc]. apply Rltb_true in Hp.
        split; [exact Hpos|]. split.
        { apply Forall_app. split; [exact Hall|].
          constructor; [lra | constructor]. }
        split.
        { intros Hz. exfalso. subst largest.
          unfold isclose in Hc. apply Rleb_true in Hc.
          replace (overlap lane - 0) with (overlap lane) in Hc by ring.
          rewrite Rabs_R0 in Hc. rewrite (Rabs_right (overlap lane)) in Hc by lra.
          unfold py_max in Hc.
          destruct (Rlt_dec (overlap lane) 0); [lra|].
          destruct (Rlt_dec (1 / 1000000000 * overlap lane) 0); lra. }
        split.
        { intros Hl. destruct (Hmax Hl) as (l & Hlin & Hleq).
          exists l. split; [apply in_or_app; left; exact Hlin | exact Hleq]. }
        split.
        { apply Forall_app. split.
          - eapply Forall_impl; [|exact Hcur]. cbv beta.
            intros l (Hl1 & Hl2 & Hl3).
            split; [apply in_or_app; left; exact Hl1|]. split; assumption.
          - constructor; [|constructor].
            split; [apply in_or_app; right; left; reflexivity|].
            split; assumption. }
        apply Forall_app. split.
        -- eapply Forall_impl; [|exact Hin]. cbv beta.
           intros l Hl Heq Hlp. apply in_or_app. left. apply Hl; assumption.
        -- constructor; [|constructor]. intros _ _.
           apply in_or_app. right. left. reflexivity.
      * split; [exact Hpos|]. split.
        { apply Forall_app. split; [exact Hall|].
          constructor; [lra | constructor]. }
        split; [exact Hzero|]. split; [exact Hmax|].
        split.
        { eapply Forall_impl; [|exact Hcur]. cbv beta.
          intros l (Hl1 & Hl2 & Hl3).
          split; [apply in_or_app; left; exact Hl1|]. split; assumption. }
        apply Forall_app. split; [exact Hin|].
        constructor; [|constructor]. intros Heq Hlp. exfalso.
        apply andb_false_iff in Hclose as [Hp | Hc].
        -- assert (Hp' : ~ 0 < overlap lane).
           { intros Hx. apply Rltb_true in Hx. congruence. }
           lra.
        -- rewrite Heq, isclose_refl in Hc. discriminate.
Qed.

(** What the second loop holds after the lanes [seen]. *)
Let holds2 (seen : list Lane) (st : option Lane * R) : Prop :=
  match fst st with
  | None => seen = []
  | Some l =>
      In l seen /\ lane_area l = snd st
      /\ Forall (fun l' => lane_area l <= lane_area l') seen
  end.

Lemma smallest_area_loop (lanes : list Lane) :
  forall seen st,
    holds2 seen st ->
    holds2 (seen ++ lanes)
      (fold_left (Bicyclist.smallest_area_step lane_area) lanes st).
Proof.
  induction lanes as [| lane lanes IH]; intros seen st Hst; cbn [fold_left].
  - rewrite app_nil_r. exact Hst.
  - replace (seen ++ lane :: lanes) with ((seen ++ [lane]) ++ lanes)
      by (rewrite <- app_assoc; reflexivity).
    apply IH. destruct st as [[l |] a]; unfold holds2 in *;
      cbn [fst snd Bicyclist.smallest_area_step] in *.
    + destruct Hst as (Hl & Ha & Hall).
      destruct (Rlt_dec (lane_area lane) a) as [Hlt | Hge]; cbn [fst snd].
      * split; [apply in_or_app; right; left; reflexivity|].
        split; [reflexivity|].
        apply Forall_app. split.
        -- eapply Forall_impl; [|exact Hall]. cbv beta. intros; lra.
        -- constructor; [lra | constructor].
      * split; [apply in_or_app; left; exact Hl|]. split; [exact Ha|].
        apply Forall_app. split; [exact Hall|].
        constructor; [lra | constructor].
    + subst seen. cbn. split; [left; reflexivity|]. split; [reflexivity|].
      constructor; [lra | constructor].
Qed.

(** X19.  [Bicyclist.get_current_lane] returns no lane exactly when no
    relevant lane has a positive overlap with the footprint.  A lane it
    returns has a positive overlap that is [isclose] to the largest
    overlap of all lanes, and among the lanes whose overlap is exactly
    the largest none has a smaller area. *)
Theorem bicyclist_lane_is_smallest_of_largest_overlap (lanes : list Lane) :
  match Bicyclist.get_current_lane overlap lane_area lanes with
  | Some l =>
      In l lanes
      /\ 0 < overlap l
      /\ exists largest,
           Forall (fun l' => overlap l' <= largest) lanes
           /\ (exists l', In l' lanes /\ overlap l' = largest)
           /\ isclose (overlap l) largest = true
           /\ Forall (fun l' => overlap l' = largest ->
                                lane_area l <= lane_area l') lanes
  | None => Forall (fun l' => overlap l' <= 0) lanes
  end.
Proof.
  unfold Bicyclist.get_current_lane. cbv zeta.
  assert (H0 : holds1 [] ([], 0)).
  { unfold holds1. cbn. split; [lra|]. split; [constructor|].
    split; [reflexivity|]. split; [intros; lra|].
    split; constructor. }
  pose proof (largest_overlap_loop lanes [] ([], 0) H0) as H1.
  cbn [app] in H1.
  destruct (fold_left (Bicyclist.largest_overlap_step overlap) lanes ([], 0))
    as [cur largest].
  destruct H1 as (Hpos & Hall & Hzero & Hmax & Hcur & Hin).
  cbn [fst snd] in *.
  assert (H2 : holds2 [] (None, 0)) by reflexivity.
  pose proof (smallest_area_loop cur [] (None, 0) H2) as H3.
  cbn [app] in H3.
  destruct (fold_left (Bicyclist.smallest_area_step lane_area) cur (None, 0))
    as [smallest a].
  unfold holds2 in H3. cbn [fst snd] in *.
  destruct smallest as [l |].
  - destruct H3 as (Hl & _ & Hsmall).
    rewrite Forall_forall in Hcur, Hin, Hsmall.
    destruct (Hcur l Hl) as (Hlin & Hlpos & Hlclose).
    split; [exact Hlin|]. split; [exact Hlpos|].
    exists largest. split; [exact Hall|].
    assert (Hlargest : 0 < largest).
    { destruct (Rlt_dec 0 largest) as [Hp | Hn]; [exact Hp|].
      assert (Hz : largest = 0) by lra.
      rewrite (Hzero Hz) in Hl. contradiction. }
    split.
    { destruct (Hmax Hlargest) as (l' & Hl' & Heq).
      exists l'. split; [|exact Heq]. apply (Hcur l' Hl'). }
    split; [exact Hlclose|].
    apply Forall_forall. intros l' Hl' Heq.
    apply Hsmall. apply (Hin l' Hl' Heq Hlargest).
  - subst cur.
    destruct (Rlt_dec 0 largest) as [Hp | Hn].
    + destruct (Hmax Hp) as (l & [] & _).
    + assert (Hz : largest = 0) by lra. rewrite Hz in Hall. exact Hall.
Qed.

End Bicyclist_Lane_Facts.

Section Lead_Vehicle_Facts.

Variable self : Agent.

(** The test of the loop, decided, for a driver of a vehicle with a
    speed on a lane with a geometry. *)
Lemma takes_as_lead_decided (lead : option SearchedObject)
    (obj : SearchedObject) (v : R) :
  drives self <> [] ->
  has_speed self = Some v ->
  exists b,
    Driver_Search.takes_as_lead self true lead obj = Ok b
    /\ (b = true <->
        eligible_lead self obj
        /\ forall l, lead = Some l -> so_distance obj < so_distance l).
Proof.
  intros Hdrives Hv. unfold Driver_Search.takes_as_lead, eligible_lead.
  rewrite Hv. rewrite andb_true_r.
  destruct (so_has_geometry obj);
    [|exists false; split; [reflexivity|]; split; [discriminate|];
      intros [(Hg & _) _]; discriminate].
  destruct (so_has_yaw obj) as [oy |];
    [|exists false; split; [reflexivity|]; split; [discriminate|];
      intros [(_ & (a & b & Ha & _) & _) _]; discriminate].
  destruct (has_yaw self) as [sy |];
    [|exists false; split; [reflexivity|]; split; [discriminate|];
      intros [(_ & (a & b & _ & Hb & _) & _) _]; discriminate].
  destruct (Rltb 0 (so_area obj)) eqn:Harea; cbn [andb].
  2:{ exists false. split; [reflexivity|]. split; [discriminate|].
      intros [(_ & _ & Ha & _) _]. apply Rltb_true in Ha. congruence. }
  destruct (Rltb (1 / 2) (so_area_on_lane obj / so_area obj)) eqn:Hfrac;
    cbn [andb].
  2:{ exists false. split; [reflexivity|]. split; [discriminate|].
      intros [(_ & _ & _ & Hf & _) _]. apply Rltb_true in Hf. congruence. }
  destruct (so_in_front_of obj); cbn [andb].
  2:{ exists false. split; [reflexivity|]. split; [discriminate|].
      intros [(_ & _ & _ & _ & Hf & _) _]. discriminate. }
  destruct (Rltb (-70) (sy - oy)) eqn:Hlo; cbn [andb].
  2:{ exists false. split; [reflexivity|]. split; [discriminate|].
      intros [(_ & (a & b & Ha & Hb & [Hl _]) & _) _].
      injection Ha as <-. injection Hb as <-.
      apply Rltb_true in Hl. congruence. }
  destruct (Rltb (sy - oy) 70) eqn:Hhi.
  2:{ exists false. split; [reflexivity|]. split; [discriminate|].
      intros [(_ & (a & b & Ha & Hb & [_ Hh]) & _) _].
      injection Ha as <-. injection Hb as <-.
      apply Rltb_true in Hh. congruence. }
  apply Rltb_true in Harea, Hfrac, Hlo, Hhi.
  destruct (drives self) as [| veh vehs]; [contradiction|].
  rewrite py_max_Rmax.
  assert (Hstatic : forall P : Prop, P ->
            true = true
            /\ (exists a b : R, Some oy = Some a /\ Some sy = Some b
                                /\ -70 < b - a < 70)
            /\ 0 < so_area obj
            /\ 1 / 2 < so_area_on_lane obj / so_area obj
            /\ true = true
            /\ P).
  { intros P HP. split; [reflexivity|].
    split; [exists oy, sy; repeat split; assumption|].
    repeat split; assumption. }
  set (range := Rmax 2 (Driver_Search._MAX_DELTA_T_FOR_LEAD_VEHICLES * v)).
  destruct lead as [l |]; cbn [bind].
  - destruct (Rltb (so_distance obj) (so_distance l)) eqn:Hcl.
    + apply Rltb_true in Hcl.
      exists (Rltb (so_distance obj) range). split; [reflexivity|]. split.
      * intros Hb. apply Rltb_true in Hb. split.
        -- apply Hstatic. exists v. split; [reflexivity | exact Hb].
        -- intros l0 Hl0. injection Hl0 as <-. exact Hcl.
      * intros [(_ & _ & _ & _ & _ & v0 & Hv0 & Hr) _].
        injection Hv0 as <-. apply Rltb_true. exact Hr.
    + exists false. split; [reflexivity|]. split; [discriminate|].
      intros [_ Hcloser]. specialize (Hcloser l eq_refl).
      apply Rltb_true in Hcloser. congruence.
  - exists (Rltb (so_distance obj) range). split; [reflexivity|]. split.
    + intros Hb. apply Rltb_true in Hb. split.
      * apply Hstatic. exists v. split; [reflexivity | exact Hb].
      * intros l0 Hl0. discriminate.
    + intros [(_ & _ & _ & _ & _ & v0 & Hv0 & Hr) _].
      injection Hv0 as <-. apply Rltb_true. exact Hr.
Qed.

Lemma search_lead_vehicle_nearest (objs : list SearchedObject) (v : R) :
  drives self <> [] ->
  has_speed self = Some v ->
  forall lead,
    (forall l, lead = Some l -> eligible_lead self l) ->
    exists found,
      Driver_Search.search_lead_vehicle self true lead objs = Ok found
      /\ (forall l, found = Some l -> eligible_lead self l)
      /\ (forall l, lead = Some l ->
          exists f, found = Some f /\ so_distance f <= so_distance l)
      /\ (forall x, In x objs -> eligible_lead self x ->
          exists f, found = Some f /\ so_distance f <= so_distance x)
      /\ (forall f, found = Some f -> lead = Some f \/ In f objs).
Proof.
  intros Hdrives Hv.
  induction objs as [| obj objs IH]; intros lead Hlead;
    cbn [Driver_Search.search_lead_vehicle].
  - exists lead. split; [reflexivity|]. split; [exact Hlead|].
    split; [intros l Hl; exists l; split; [exact Hl | lra]|].
    split; [intros x []|]. intros f Hf. left. exact Hf.
  - destruct (takes_as_lead_decided lead obj v Hdrives Hv) as (b & Htake & Hb).
    rewrite Htake. cbn [bind]. destruct b.
    + destruct (proj1 Hb eq_refl) as [Hel Hcloser].
      destruct (IH (Some obj)) as (found & Hs & Hf & Hle & Hbest & Hfrom).
      { intros l Hl. injection Hl as <-. exact Hel. }
      exists found. split; [exact Hs|]. split; [exact Hf|].
      destruct (Hle obj eq_refl) as (f & Hfound & Hfd).
      split; [|split].
      * intros l Hl. exists f. split; [exact Hfound|].
        specialize (Hcloser l Hl). lra.
      * intros x [<- | Hx] Hex.
        -- exists f. split; assumption.
        -- apply (Hbest x Hx Hex).
      * intros f0 Hf0. destruct (Hfrom f0 Hf0) as [Heq | Hin].
        -- injection Heq as <-. right. left. reflexivity.
        -- right. right. exact Hin.
    + destruct (IH lead Hlead) as (found & Hs & Hf & Hle & Hbest & Hfrom).
      exists found. split; [exact Hs|]. split; [exact Hf|].
      split; [exact Hle|]. split.
      * intros x [<- | Hx] Hex; [|apply (Hbest x Hx Hex)].
        destruct lead as [l |].
        -- destruct (Hle l eq_refl) as (f & Hfound & Hfd).
           exists f. split; [exact Hfound|].
           destruct (Rlt_dec (so_distance obj) (so_distance l)) as [Hlt | Hge];
             [|lra].
           exfalso. assert (Htrue : false = true); [|discriminate].
           apply Hb. split; [exact Hex|].
           intros l0 Hl0. injection Hl0 as <-. exact Hlt.
        -- exfalso. assert (Htrue : false = true); [|discriminate].
           apply Hb. split; [exact Hex|]. intros l0 Hl0. discriminate.
      * intros f Hf0. destruct (Hfrom f Hf0) as [Heq | Hin];
          [left; exact Heq | right; right; exact Hin].
Qed.

(** X20.  For a driver of a vehicle that has a speed and is on a lane
    with a geometry, the search of [get_lead_vehicle], started without a
    lead vehicle, raises nothing and finds the nearest of the eligible
    objects: those with a geometry and a yaw that lie by more than half
    on the current lane, in front of the driver, head within 70 degrees
    of its heading and are nearer to the driven vehicle than
    [max(2, 10 * speed)].  It finds nothing exactly when no object is
    eligible. *)
Theorem lead_vehicle_is_the_nearest (objs : list SearchedObject) (v : R) :
  drives self <> [] ->
  has_speed self = Some v ->
  exists found,
    Driver_Search.search_lead_vehicle self true None objs = Ok found
    /\ (found = None <-> forall x, In x objs -> ~ eligible_lead self x)
    /\ (forall f, found = Some f ->
        In f objs /\ eligible_lead self f
        /\ forall x, In x objs -> eligible_lead self x ->
                     so_distance f <= so_distance x).
Proof.
  intros Hdrives Hv.
  destruct (search_lead_vehicle_nearest objs v Hdrives Hv None)
    as (found & Hs & Hf & _ & Hbest & Hfrom); [discriminate|].
  exists found. split; [exact Hs|]. split; [split|].
  - intros -> x Hx Hex. destruct (Hbest x Hx Hex) as (f & Hf0 & _).
    discriminate.
  - intros Hnone. destruct found as [f |]; [|reflexivity].
    exfalso. destruct (Hfrom f eq_refl) as [Heq | Hin]; [discriminate|].
    apply (Hnone f Hin). apply Hf. reflexivity.
  - intros f ->. split.
    + destruct (Hfrom f eq_refl) as [Heq | Hin]; [discriminate | exact Hin].
    + split; [apply Hf; reflexivity|].
      intros x Hx Hex. destruct (Hbest x Hx Hex) as (f0 & Hf0 & Hle).
      injection Hf0 as <-. exact Hle.
Qed.

End Lead_Vehicle_Facts.

(** ** The state machine of the pedestrian *)

Section Pedestrian_Facts.

Variable RNG : Type.
Variable W : Pedestrian.World RNG.

(** What the end of [update_state] does to the next-tick individual
    that the walking-mode part leaves. *)
Lemma update_state_tail
    (self new_self self' new_self' : Pedestrian.State) (rng rng' : RNG) :
  Pedestrian.update_state W self new_self rng = Ok (self', new_self', rng') ->
  exists mid y,
    Pedestrian.update_walking_mode W self new_self rng = Ok (self', mid, rng')
    /\ Pedestrian._get_yielding_intersection_point W = Ok y
    /\ Pedestrian.walking_mode new_self' = Pedestrian.walking_mode mid
    /\ Pedestrian.selected_crossing_target new_self'
       = Pedestrian.selected_crossing_target mid
    /\ Pedestrian.speed_mode new_self'
       = match y with
         | Some _ => Pedestrian.SpeedMode.Yielding
         | None => Pedestrian.speed_mode mid
         end
    /\ Pedestrian.target_end_of_walkway new_self' = None.
Proof.
  unfold Pedestrian.update_state. intros H.
  destruct (Pedestrian.update_walking_mode W self new_self rng)
    as [[[s n] g] |]; [|discriminate].
  cbn [bind] in H.
  destruct (Pedestrian._get_yielding_intersection_point W) as [y |];
    [|discriminate].
  cbn [bind] in H. cbv zeta in H. injection H as <- <- <-.
  exists n, y. split; [reflexivity|]. split; [reflexivity|].
  destruct y; cbn;
    repeat match goal with
      | |- context [match ?x with _ => _ end] => destruct x
      end; repeat split; reflexivity.
Qed.

(** What the walking-mode part writes. *)
Lemma update_walking_mode_result
    (self new_self self' mid : Pedestrian.State) (rng rng' : RNG) :
  Pedestrian.update_walking_mode W self new_self rng = Ok (self', mid, rng') ->
  crossing_has_target mid
  /\ Pedestrian.speed_mode mid
     = match Pedestrian.walking_mode mid with
       | Pedestrian.WalkingMode.Stopping => Pedestrian.SpeedMode.Stopping
       | _ => Pedestrian.speed_mode new_self
       end.
Proof.
  unfold Pedestrian.update_walking_mode, crossing_has_target. intros H.
  ok_cases H; injection H as <- <- <-;
    cbn [Pedestrian.walking_mode Pedestrian.speed_mode
         Pedestrian.selected_crossing_target Pedestrian.set_walking_mode
         Pedestrian.set_speed_mode Pedestrian.set_selected_crossing_target
         Pedestrian.set_target_end_of_walkway Pedestrian.set_last_walkway];
    (split; [first [discriminate | eauto] | reflexivity]).
Qed.

Lemma update_walking_mode_keeps_crossing
    (self new_self self' mid : Pedestrian.State) (rng rng' : RNG)
    (g : Geometry) :
  Pedestrian.walking_mode self = Pedestrian.WalkingMode.CrossingRoad ->
  Pedestrian.selected_crossing_target self = Some g ->
  Pedestrian.intersects_target W g = false ->
  Pedestrian.update_walking_mode W self new_self rng = Ok (self', mid, rng') ->
  Pedestrian.walking_mode mid = Pedestrian.WalkingMode.CrossingRoad
  /\ Pedestrian.selected_crossing_target mid = Some g
  /\ rng' = rng.
Proof.
  intros Hmode Htarget Hfar.
  unfold Pedestrian.update_walking_mode, Pedestrian._get_crossing_target.
  rewrite Hmode, Htarget, Hfar. cbn [negb bind fst snd].
  intros H. injection H as <- <- <-. repeat split; reflexivity.
Qed.

(** X21.  Whenever [update_state] puts the next-tick pedestrian into
    walking mode [CrossingRoad] it also gives it a crossing target; and a
    pedestrian that is crossing towards a target it does not yet touch
    keeps crossing towards that same target, without a new draw from the
    random source. *)
Theorem crossing_pedestrian_keeps_its_target
    (self new_self self' new_self' : Pedestrian.State) (rng rng' : RNG) :
  Pedestrian.update_state W self new_self rng = Ok (self', new_self', rng') ->
  crossing_has_target new_self'
  /\ (forall g,
      Pedestrian.walking_mode self = Pedestrian.WalkingMode.CrossingRoad ->
      Pedestrian.selected_crossing_target self = Some g ->
      Pedestrian.intersects_target W g = false ->
      Pedestrian.walking_mode new_self' = Pedestrian.WalkingMode.CrossingRoad
      /\ Pedestrian.selected_crossing_target new_self' = Some g
      /\ rng' = rng).
Proof.
  intros H.
  destruct (update_state_tail _ _ _ _ _ _ H)
    as (mid & y & Hwm & _ & Hmode & Htarget & _).
  destruct (update_walking_mode_result _ _ _ _ _ _ Hwm) as [Hinv _].
  unfold crossing_has_target in *. rewrite Hmode, Htarget.
  split; [exact Hinv|].
  intros g Hm Ht Hfar.
  apply (update_walking_mode_keeps_crossing _ _ _ _ _ _ g Hm Ht Hfar Hwm).
Qed.

(** X22.  For a fresh next-tick pedestrian (speed mode
    [UnrestrictedWalking], as [__init__] leaves it) the speed mode after
    [update_state] is [Yielding] exactly when the yield check finds an
    intersection point, else [Stopping] exactly when the walking mode is
    [Stopping]; accordingly the target speed is 0 in these cases and the
    maximum speed otherwise.  The remembered end-of-walkway target is
    cleared on every path, also in walking mode [Stopping]. *)
Theorem pedestrian_speed_mode_after_update
    (self new_self self' new_self' : Pedestrian.State) (rng rng' : RNG) :
  Pedestrian.speed_mode new_self = Pedestrian.SpeedMode.UnrestrictedWalking ->
  Pedestrian.update_state W self new_self rng = Ok (self', new_self', rng') ->
  exists y,
    Pedestrian._get_yielding_intersection_point W = Ok y
    /\ Pedestrian.speed_mode new_self'
       = match y, Pedestrian.walking_mode new_self' with
         | Some _, _ => Pedestrian.SpeedMode.Yielding
         | None, Pedestrian.WalkingMode.Stopping => Pedestrian.SpeedMode.Stopping
         | None, _ => Pedestrian.SpeedMode.UnrestrictedWalking
         end
    /\ Pedestrian_get_target_speed self' new_self'
       = match y, Pedestrian.walking_mode new_self' with
         | None, Pedestrian.WalkingMode.Stopping => Some 0
         | None, _ => Some (get_maximum_speed (Pedestrian.agent self'))
         | Some _, _ => Some 0
         end
    /\ Pedestrian.target_end_of_walkway new_self' = None.
Proof.
  intros Hfresh H.
  destruct (update_state_tail _ _ _ _ _ _ H)
    as (mid & y & Hwm & Hy & Hmode & _ & Hspeed & Hend).
  destruct (update_walking_mode_result _ _ _ _ _ _ Hwm) as [_ Hmid].
  exists y. split; [exact Hy|].
  assert (Hs : Pedestrian.speed_mode new_self'
               = match y, Pedestrian.walking_mode new_self' with
                 | Some _, _ => Pedestrian.SpeedMode.Yielding
                 | None, Pedestrian.WalkingMode.Stopping =>
                     Pedestrian.SpeedMode.Stopping
                 | None, _ => Pedestrian.SpeedMode.UnrestrictedWalking
                 end).
  { rewrite Hspeed, Hmode, Hmid, Hfresh.
    destruct y; destruct (Pedestrian.walking_mode mid); reflexivity. }
  split; [exact Hs|]. split; [|exact Hend].
  unfold Pedestrian_get_target_speed. rewrite Hs.
  destruct y; destruct (Pedestrian.walking_mode new_self'); reflexivity.
Qed.

End Pedestrian_Facts.

(** ** The yield check of the pedestrian looks at the nearest first *)

Section Sorted_By_Number.

Variable A : Type.
Variable key : A -> R.

Let key_ltb (a b : A) : bool := Rltb (key a) (key b).
Let key_le (a b : A) : Prop := key a <= key b.

Lemma insert_sorted_by_number (x : A) (l : list A) :
  StronglySorted key_le l ->
  StronglySorted key_le (insert_sorted key_ltb x l).
Proof.
  induction 1 as [| y l Hl IH Hy]; cbn [insert_sorted].
  - constructor; constructor.
  - unfold key_ltb at 1. destruct (Rltb (key y) (key x)) eqn:Hlt.
    + apply Rltb_true in Hlt. constructor; [exact IH|].
      eapply Permutation_Forall.
      * apply Permutation_sym. apply insert_sorted_perm.
      * constructor; [unfold key_le; lra | exact Hy].
    + assert (Hge : key x <= key y).
      { destruct (Rle_dec (key x) (key y)) as [Hle | Hn]; [exact Hle|].
        assert (Ht : key y < key x) by lra.
        apply Rltb_true in Ht. congruence. }
      constructor; [constructor; assumption|].
      constructor; [exact Hge|].
      eapply Forall_impl; [|exact Hy]. unfold key_le. intros; lra.
Qed.

Lemma sorted_with_by_number (l : list A) :
  StronglySorted key_le (sorted_with key_ltb l).
Proof.
  unfold sorted_with. induction l as [| x l IH]; cbn [fold_right].
  - constructor.
  - apply insert_sorted_by_number. exact IH.
Qed.

Lemma strongly_sorted_after (pre post : list A) (c : A) :
  StronglySorted key_le (pre ++ c :: post) ->
  Forall (fun x => key c <= key x) post.
Proof.
  induction pre as [| y pre IH]; cbn [app]; intros H.
  - inversion H; subst. assumption.
  - inversion H; subst. apply IH. assumption.
Qed.

End Sorted_By_Number.

Lemma first_yielding_result (feed : list PedCandidate) :
  match Pedestrian.first_yielding feed with
  | Ok (Some p) =>
      exists pre c post,
        feed = pre ++ c :: post
        /\ Forall (fun x => Pedestrian.yields_to x = Ok false) pre
        /\ Pedestrian.yields_to c = Ok true
        /\ p = pc_p_int c
  | Ok None => Forall (fun x => Pedestrian.yields_to x = Ok false) feed
  | Raise _ => True
  end.
Proof.
  induction feed as [| c feed IH]; cbn [Pedestrian.first_yielding].
  - constructor.
  - destruct (Pedestrian.yields_to c) as [[|] | e] eqn:Hy; cbn [bind].
    + exists [], c, feed. split; [reflexivity|]. split; [constructor|].
      split; [exact Hy | reflexivity].
    + destruct (Pedestrian.first_yielding feed) as [[p |] | e]; [| |exact I].
      * destruct IH as (pre & c0 & post & -> & Hpre & Hc0 & Hp).
        exists (c :: pre), c0, post. split; [reflexivity|].
        split; [constructor; assumption|]. split; assumption.
      * constructor; assumption.
    + exact I.
Qed.

Lemma first_yielding_completes (feed : list PedCandidate) :
  Forall (fun c => pc_t_self c <> None /\ pc_t_other c <> None) feed ->
  exists y, Pedestrian.first_yielding feed = Ok y.
Proof.
  induction 1 as [| c feed [Hs Ho] _ IH]; cbn [Pedestrian.first_yielding].
  - eauto.
  - unfold Pedestrian.yields_to.
    destruct (pc_t_self c); [|contradiction].
    destruct (pc_t_other c); [|contradiction].
    cbn [bind]. destruct (_ && _); [eauto | exact IH].
Qed.

(** X23.  When every candidate of the conflict feed comes with both
    predicted times, the yield check of the pedestrian raises nothing.
    The intersection point it returns is that of a candidate of the feed
    that passes the yield test, and every candidate whose intersection
    point is strictly nearer to the pedestrian fails the test; when the
    check returns nothing, every candidate of the feed fails it. *)
Theorem yield_check_takes_the_nearest {RNG : Type} (W : Pedestrian.World RNG) :
  (Forall (fun c => pc_t_self c <> None /\ pc_t_other c <> None)
     (Pedestrian.get_intersecting_objects W) ->
   exists y, Pedestrian._get_yielding_intersection_point W = Ok y)
  /\
  match Pedestrian._get_yielding_intersection_point W with
  | Ok (Some p) =>
      exists c,
        In c (Pedestrian.get_intersecting_objects W)
        /\ Pedestrian.yields_to c = Ok true
        /\ p = pc_p_int c
        /\ forall c', In c' (Pedestrian.get_intersecting_objects W) ->
                      pc_distance c' < pc_distance c ->
                      Pedestrian.yields_to c' = Ok false
  | Ok None =>
      forall c, In c (Pedestrian.get_intersecting_objects W) ->
                Pedestrian.yields_to c = Ok false
  | Raise _ => True
  end.
Proof.
  unfold Pedestrian._get_yielding_intersection_point.
  set (sorted := sorted_with
                   (fun a b => Rltb (pc_distance a) (pc_distance b))
                   (Pedestrian.get_intersecting_objects W)).
  pose proof (sorted_with_perm _
                (fun a b => Rltb (pc_distance a) (pc_distance b))
                (Pedestrian.get_intersecting_objects W)) as Hperm.
  fold sorted in Hperm.
  pose proof (sorted_with_by_number _ pc_distance
                (Pedestrian.get_intersecting_objects W)) as Hsorted.
  fold sorted in Hsorted.
  split.
  { intros Htimes. apply first_yielding_completes.
    eapply Permutation_Forall; [|exact Htimes].
    apply Permutation_sym. exact Hperm. }
  pose proof (first_yielding_result sorted) as H.
  destruct (Pedestrian.first_yielding sorted) as [[p |] | e]; [| |exact I].
  - destruct H as (pre & c & post & Heq & Hpre & Hc & Hp).
    exists c. split.
    { apply (Permutation_in _ Hperm). rewrite Heq. apply in_elt. }
    split; [exact Hc|]. split; [exact Hp|].
    intros c' Hin Hlt.
    apply (Permutation_in _ (Permutation_sym Hperm)) in Hin.
    rewrite Heq in Hin, Hsorted.
    apply in_app_or in Hin. destruct Hin as [Hin | [<- | Hin]].
    + rewrite Forall_forall in Hpre. apply Hpre. exact Hin.
    + lra.
    + pose proof (strongly_sorted_after _ pc_distance pre post c Hsorted) as Hpost.
      rewrite Forall_forall in Hpost. specialize (Hpost c' Hin). lra.
  - intros c Hin. rewrite Forall_forall in H. apply H.
    apply (Permutation_in _ (Permutation_sym Hperm)). exact Hin.
Qed.

(** ** The walkway searches of the pedestrian *)

Section Keep_Best.

Variable A : Type.
Variable ok : A -> bool.
Variable key : A -> R.
Variable better : R -> R -> bool.

Hypothesis better_trans :
  forall a b c, better a b = true -> better b c = true -> better a c = true.

Let holds (seen : list A) (st : option (A * R)) : Prop :=
  match st with
  | Some (b, k) =>
      k = key b /\ In b seen /\ ok b = true
      /\ Forall (fun x => ok x = true -> better (key x) (key b) = false) seen
  | None => Forall (fun x => ok x = false) seen
  end.

Lemma keep_best_loop (l : list A) :
  forall seen st,
    (forall a, better a a = false) ->
    holds seen st ->
    holds (seen ++ l) (fold_left (keep_best ok key better) l st).
Proof.
  induction l as [| x l IH]; intros seen st Hirr Hst; cbn [fold_left].
  - rewrite app_nil_r. exact Hst.
  - replace (seen ++ x :: l) with ((seen ++ [x]) ++ l)
      by (rewrite <- app_assoc; reflexivity).
    apply IH; [exact Hirr|]. unfold keep_best.
    destruct (ok x) eqn:Hok.
    + destruct st as [[b k] |]; unfold holds in *.
      * destruct Hst as (Hk & Hb & Hokb & Hall).
        destruct (better (key x) k) eqn:Hbet.
        -- split; [reflexivity|].
           split; [apply in_or_app; right; left; reflexivity|].
           split; [exact Hok|].
           apply Forall_app. split.
           ++ eapply Forall_impl; [|exact Hall]. cbv beta.
              intros y Hy Hoky. specialize (Hy Hoky).
              destruct (better (key y) (key x)) eqn:Hyx; [|reflexivity].
              rewrite Hk in Hbet.
              rewrite (better_trans _ _ _ Hyx Hbet) in Hy. discriminate.
           ++ constructor; [|constructor]. intros _. apply Hirr.
        -- split; [exact Hk|].
           split; [apply in_or_app; left; exact Hb|].
           split; [exact Hokb|].
           apply Forall_app. split; [exact Hall|].
           constructor; [|constructor]. intros _. rewrite <- Hk. exact Hbet.
      * split; [reflexivity|].
        split; [apply in_or_app; right; left; reflexivity|].
        split; [exact Hok|].
        apply Forall_app. split.
        -- eapply Forall_impl; [|exact Hst]. cbv beta.
           intros y Hy Hoky. congruence.
        -- constructor; [|constructor]. intros _. apply Hirr.
    + destruct st as [[b k] |]; unfold holds in *.
      * destruct Hst as (Hk & Hb & Hokb & Hall).
        split; [exact Hk|].
        split; [apply in_or_app; left; exact Hb|].
        split; [exact Hokb|].
        apply Forall_app. split; [exact Hall|].
        constructor; [|constructor]. intros Hx. congruence.
      * apply Forall_app. split; [exact Hst|].
        constructor; [exact Hok | constructor].
Qed.

Lemma keep_best_result (l : list A) :
  (forall a, better a a = false) ->
  match option_map fst (fold_left (keep_best ok key better) l None) with
  | Some b =>
      In b l /\ ok b = true
      /\ Forall (fun x => ok x = true -> better (key x) (key b) = false) l
  | None => Forall (fun x => ok x = false) l
  end.
Proof.
  intros Hirr.
  pose proof (keep_best_loop l [] None Hirr (Forall_nil _)) as H.
  cbn [app] in H.
  destruct (fold_left (keep_best ok key better) l None) as [[b k] |];
    cbn [option_map fst]; unfold holds in H.
  - destruct H as (_ & Hb & Hok & Hall). repeat split; assumption.
  - exact H.
Qed.

End Keep_Best.

Section Walkway_Facts.

Variable L : Type.
Variable intersects_self : L -> bool.
Variable is_walkway : L -> bool.
Variable get_distance : L -> R.
Variable area : L -> R.
Variable str : L -> string.

Lemma furthest_walkway_step_keeps_best (st : option (L * R)) (i : L) :
  Pedestrian_Search.furthest_walkway_step L intersects_self is_walkway
    get_distance st i
  = keep_best (fun i => negb (intersects_self i) && is_walkway i)
      get_distance (fun d k => Rltb k d) st i.
Proof.
  unfold Pedestrian_Search.furthest_walkway_step, keep_best, Rltb.
  destruct (negb (intersects_self i) && is_walkway i); [|reflexivity].
  destruct st as [[b k] |]; [|reflexivity].
  cbv zeta. destruct (Rlt_dec k (get_distance i)); reflexivity.
Qed.

Lemma closest_walkway_step_keeps_best (last : string) (st : option (L * R))
    (w : L) :
  Pedestrian_Search.closest_walkway_step L get_distance area str last st w
  = keep_best
      (fun w => negb (String.eqb (str w) last)
                && Rleb Pedestrian._MINIMUM_WALKWAY_AREA_FOR_WALKING (area w))
      get_distance Rltb st w.
Proof.
  unfold Pedestrian_Search.closest_walkway_step, keep_best.
  destruct (negb (String.eqb (str w) last)); cbn [andb]; [|reflexivity].
  cbv zeta.
  destruct (Rleb Pedestrian._MINIMUM_WALKWAY_AREA_FOR_WALKING (area w));
    cbn [andb]; [|reflexivity].
  destruct st as [[b k] |]; reflexivity.
Qed.

Lemma fold_left_ext_step {S X : Type} (f g : S -> X -> S) (l : list X) (s : S) :
  (forall s x, f s x = g s x) -> fold_left f l s = fold_left g l s.
Proof.
  intros Hfg. revert s. induction l as [| x l IH]; intros s; cbn.
  - reflexivity.
  - rewrite Hfg. apply IH.
Qed.

(** X24.  [_get_furthest_walkway_of_current_road] raises when the
    pedestrian is on no road; on a road it returns, of the lanes of that
    road that are walkways and do not touch the pedestrian, one that is
    at least as far away as every other, and nothing exactly when the
    road has no such lane. *)
Theorem furthest_walkway_is_the_furthest (has_lane : option (list L)) :
  match Pedestrian_Search._get_furthest_walkway_of_current_road L
          intersects_self is_walkway get_distance has_lane with
  | Raise e => has_lane = None /\ e = AttributeError
  | Ok found =>
      exists lanes,
        has_lane = Some lanes
        /\ match found with
           | Some w =>
               In w lanes /\ intersects_self w = false /\ is_walkway w = true
               /\ forall i, In i lanes -> intersects_self i = false ->
                            is_walkway i = true ->
                            get_distance i <= get_distance w
           | None =>
               forall i, In i lanes ->
                         intersects_self i = true \/ is_walkway i = false
           end
  end.
Proof.
  unfold Pedestrian_Search._get_furthest_walkway_of_current_road.
  destruct has_lane as [lanes |]; [|split; reflexivity].
  exists lanes. split; [reflexivity|].
  rewrite (fold_left_ext_step _ _ lanes None furthest_walkway_step_keeps_best).
  pose proof (keep_best_result L
                (fun i => negb (intersects_self i) && is_walkway i)
                get_distance (fun d k => Rltb k d)) as H.
  specialize (H ltac:(intros a b c Hab Hbc;
                      apply Rltb_true in Hab, Hbc; apply Rltb_true; lra)
                lanes
                ltac:(intros a; unfold Rltb; destruct (Rlt_dec a a);
                      [lra | reflexivity])).
  destruct (option_map fst _) as [w |].
  - destruct H as (Hin & Hok & Hall).
    apply andb_prop in Hok as [Hni Hw].
    apply negb_true_iff in Hni.
    split; [exact Hin|]. split; [exact Hni|]. split; [exact Hw|].
    intros i Hi Hii Hiw. rewrite Forall_forall in Hall.
    specialize (Hall i Hi). cbv beta in Hall.
    rewrite Hii, Hiw in Hall. specialize (Hall eq_refl).
    destruct (Rle_dec (get_distance i) (get_distance w)) as [Hle | Hn];
      [exact Hle|].
    assert (Ht : get_distance w < get_distance i) by lra.
    apply Rltb_true in Ht. congruence.
  - intros i Hi. rewrite Forall_forall in H. specialize (H i Hi).
    cbv beta in H. apply andb_false_iff in H as [H | H].
    + left. apply negb_false_iff. exact H.
    + right. exact H.
Qed.

(** X25.  [_get_closest_walkable_walkway] returns, of the walkways other
    than the one last walked on (compared by name) whose area is at
    least the minimum walkway area, one that is at least as near as every
    other; it returns nothing exactly when there is no such walkway.  The
    walkway last walked on and walkways that are too small are never
    returned, however near they are. *)
Theorem closest_walkable_walkway_is_the_closest (last_walkway : option L)
    (walkways : list L) :
  let last := match last_walkway with
              | Some w => str w
              | None => "None"%string
              end in
  let walkable := fun w =>
    str w <> last
    /\ Pedestrian._MINIMUM_WALKWAY_AREA_FOR_WALKING <= area w in
  match Pedestrian_Search._get_closest_walkable_walkway L get_distance area
          str last_walkway walkways with
  | Some w =>
      In w walkways /\ walkable w
      /\ forall x, In x walkways -> walkable x ->
                   get_distance w <= get_distance x
  | None => forall x, In x walkways -> ~ walkable x
  end.
Proof.
  intros last walkable.
  unfold Pedestrian_Search._get_closest_walkable_walkway. cbv zeta.
  fold last.
  rewrite (fold_left_ext_step _ _ walkways None
             (closest_walkway_step_keeps_best last)).
  pose proof (keep_best_result L
                (fun w => negb (String.eqb (str w) last)
                          && Rleb Pedestrian._MINIMUM_WALKWAY_AREA_FOR_WALKING
                               (area w))
                get_distance Rltb) as H.
  specialize (H ltac:(intros a b c Hab Hbc;
                      apply Rltb_true in Hab, Hbc; apply Rltb_true; lra)
                walkways
                ltac:(intros a; unfold Rltb; destruct (Rlt_dec a a);
                      [lra | reflexivity])).
  assert (Hok : forall w,
            negb (String.eqb (str w) last)
            && Rleb Pedestrian._MINIMUM_WALKWAY_AREA_FOR_WALKING (area w)
            = true <-> walkable w).
  { intros w. unfold walkable. rewrite andb_true_iff, negb_true_iff.
    rewrite Rleb_true. rewrite String.eqb_neq. tauto. }
  destruct (option_map fst _) as [w |].
  - destruct H as (Hin & Hw & Hall).
    split; [exact Hin|]. split; [apply Hok; exact Hw|].
    intros x Hx Hwx. rewrite Forall_forall in Hall.
    specialize (Hall x Hx (proj2 (Hok x) Hwx)).
    destruct (Rle_dec (get_distance w) (get_distance x)) as [Hle | Hn];
      [exact Hle|].
    assert (Ht : get_distance x < get_distance w) by lra.
    apply Rltb_true in Ht. congruence.
  - intros x Hx Hwx. rewrite Forall_forall in H. specialize (H x Hx).
    cbv beta in H. apply Hok in Hwx. congruence.
Qed.

End Walkway_Facts.

(** ** The bicyclist of the T-crossing *)

Section Filter_Sorted.

Variable A : Type.
Variable key : A -> R.
Variable p : A -> bool.

(** The first element a filter keeps of a list sorted by a key has the
    least key of the elements kept. *)
Lemma filter_sorted_head (l : list A) (c : A) (rest : list A) :
  StronglySorted (fun a b => key a <= key b) l ->
  filter p l = c :: rest ->
  In c l /\ p c = true
  /\ forall x, In x l -> p x = true -> key c <= key x.
Proof.
  induction 1 as [| y l Hl IH Hy]; cbn [filter]; [discriminate|].
  destruct (p y) eqn:Hp.
  - intros H. injection H as <- _.
    split; [left; reflexivity|]. split; [exact Hp|].
    intros x [<- | Hx] _; [lra|].
    rewrite Forall_forall in Hy. apply Hy. exact Hx.
  - intros H. destruct (IH H) as (Hin & Hc & Hmin).
    split; [right; exact Hin|]. split; [exact Hc|].
    intros x [<- | Hx] Hpx; [congruence|]. apply Hmin; assumption.
Qed.

Lemma filter_nil_none (l : list A) :
  filter p l = [] -> forall x, In x l -> p x = false.
Proof.
  induction l as [| y l IH]; cbn [filter]; intros H x Hx; [destruct Hx|].
  destruct (p y) eqn:Hp; [discriminate|].
  destruct Hx as [<- | Hx]; [exact Hp | apply IH; assumption].
Qed.

End Filter_Sorted.

Section TCrossingBicyclist_Facts.

Variable RNG : Type.
Variable K : Driver.Constants.
Variable W : Driver.World RNG.
Variable get_distance : Lane -> R.
Variable centroid_in_front : Lane -> bool.
Variable centroid_in_front_60 : Lane -> bool.
Variable intersects_self : Lane -> bool.
Variable pedestrian_crossings : list Lane.
Variable walkways : list Lane.

Let close_crossing (x : Lane) : Prop :=
  get_distance x <= TCrossingBicyclist._PEDESTRIAN_CROSSING_TURNING_THRESHOLD
  /\ centroid_in_front x = true
  /\ intersects_self x = false.

Let next_lane := TCrossingBicyclist._get_next_lane RNG W get_distance
                   centroid_in_front centroid_in_front_60 intersects_self
                   pedestrian_crossings walkways.

Let approaches := TCrossingBicyclist._approaches_end_of_lane RNG W get_distance
                    centroid_in_front centroid_in_front_60 intersects_self
                    pedestrian_crossings walkways.

(** X26.  A T-crossing bicyclist that has not chosen a lane and has a
    pedestrian crossing close by (within 1.8 m, centroid in front, not yet
    touched) takes the nearest such crossing as its next lane, without a
    draw from the random source.  And whenever its own test reports the
    end of the lane although the driver's test does not, its own choice
    of the next lane returns a lane: the bicyclist is never sent into a
    dead end by a close crossing or walkway. *)
Theorem bicyclist_turns_onto_the_nearest_crossing (self : Driver.State)
    (cur_lane : option Lane) (lane : Lane) (rng : RNG) :
  Driver.next_lane self = None ->
  ((exists x, In x pedestrian_crossings /\ close_crossing x) ->
   exists c,
     next_lane self cur_lane rng = Ok (Some c, self, rng)
     /\ approaches lane = Ok true
     /\ In c pedestrian_crossings /\ close_crossing c
     /\ forall x, In x pedestrian_crossings -> close_crossing x ->
                  get_distance c <= get_distance x)
  /\ (approaches lane = Ok true ->
      Driver._approaches_end_of_lane W lane = false ->
      exists l, next_lane self cur_lane rng = Ok (Some l, self, rng)).
Proof.
  intros Hnone.
  unfold next_lane, approaches, TCrossingBicyclist._get_next_lane,
    TCrossingBicyclist._approaches_end_of_lane.
  rewrite Hnone.
  set (test := fun x : Lane =>
         Rleb (get_distance x)
           TCrossingBicyclist._PEDESTRIAN_CROSSING_TURNING_THRESHOLD
         && centroid_in_front x && negb (intersects_self x)).
  assert (Htest : forall x, test x = true <-> close_crossing x).
  { intros x. unfold test, close_crossing.
    rewrite !andb_true_iff, negb_true_iff, Rleb_true. tauto. }
  pose proof (sorted_with_perm _
                (fun a b => Rltb (get_distance a) (get_distance b))
                pedestrian_crossings) as Hperm.
  pose proof (sorted_with_by_number _ get_distance pedestrian_crossings)
    as Hsorted.
  unfold TCrossingBicyclist._get_close_pedestrian_crossings,
    TCrossingBicyclist.sorted_by_distance.
  fold test.
  set (sorted := sorted_with
                   (fun a b => Rltb (get_distance a) (get_distance b))
                   pedestrian_crossings) in *.
  destruct (filter test sorted) as [| c rest] eqn:Hfilter.
  - split.
    + intros (x & Hx & Hclose). exfalso.
      apply Htest in Hclose.
      rewrite (filter_nil_none _ test sorted Hfilter x) in Hclose;
        [discriminate|].
      apply (Permutation_in _ (Permutation_sym Hperm)). exact Hx.
    + intros Happ Hbase.
      destruct (TCrossingBicyclist._get_close_walkways RNG W get_distance
                  centroid_in_front_60 walkways) as [[| w ws] | e];
        cbn [bind] in *.
      * rewrite Hbase in Happ. discriminate.
      * eauto.
      * discriminate.
  - destruct (filter_sorted_head _ get_distance test sorted c rest
                Hsorted Hfilter) as (Hin & Hc & Hmin).
    split.
    + intros _. exists c. split; [reflexivity|]. split; [reflexivity|].
      split; [apply (Permutation_in _ Hperm); exact Hin|].
      split; [apply Htest; exact Hc|].
      intros x Hx Hclose. apply Hmin.
      * apply (Permutation_in _ (Permutation_sym Hperm)). exact Hx.
      * apply Htest. exact Hclose.
    + intros _ _. eauto.
Qed.

Variable intersects_pedestrian_crossing : bool.

(** X27.  On a pedestrian crossing the target speed of the T-crossing
    bicyclist is at most its crossing speed, whatever the speed mode is;
    and it is never above the target speed of the driver model it
    extends. *)
Theorem bicyclist_slows_down_on_pedestrian_crossing
    (self new_self : Driver.State) (s : R) :
  TCrossingBicyclist.get_target_speed RNG K W intersects_pedestrian_crossing
    self new_self = Ok (Some s) ->
  (intersects_pedestrian_crossing = true ->
   s <= Driver.crossing_speed (Driver.profile self))
  /\ exists s0,
       Driver.get_target_speed K W self new_self = Ok (Some s0) /\ s <= s0.
Proof.
  unfold TCrossingBicyclist.get_target_speed. intros H. peel H.
  destruct intersects_pedestrian_crossing.
  - destruct a as [s0 |]; [|discriminate]. injection H as <-.
    match goal with
    | |- context [py_min ?x ?y] => pose proof (py_min_le x y) as [H1 H2]
    end.
    split; [intros _; exact H1|]. exists s0. split; [reflexivity | exact H2].
  - injection H as ->. split; [discriminate|].
    exists s. split; [reflexivity | lra].
Qed.

End TCrossingBicyclist_Facts.

(** ** The targets that lie ahead *)

Lemma ahead_distance (k yaw : R) (c : Point) :
  0 <= k ->
  sqrt (dist2 (k * cos (radians yaw) + fst c, k * sin (radians yaw) + snd c) c)
  = k.
Proof.
  intros Hk. unfold dist2. cbn [fst snd].
  pose proof (sin2_cos2 (radians yaw)) as H. unfold Rsqr in H.
  replace ((k * cos (radians yaw) + fst c - fst c) ^ 2
           + (k * sin (radians yaw) + snd c - snd c) ^ 2)
    with (Rsqr k).
  - apply sqrt_Rsqr. exact Hk.
  - unfold Rsqr. set (co := cos (radians yaw)) in *.
    set (si := sin (radians yaw)) in *.
    replace ((k * co + fst c - fst c) ^ 2 + (k * si + snd c - snd c) ^ 2)
      with (k * k * (si * si + co * co)) by ring.
    rewrite H. ring.
Qed.

(** X28.  The default target of an agent with a yaw lies exactly 10 m
    from the centroid of its footprint, which is the distance the default
    [get_target] reports with it; the roaming target of a driver lies
    exactly 5 m from the centroid.  Without a yaw both targets are the
    centroid itself, and the default target is reported at the distance
    0.001. *)
Theorem targets_ahead_lie_at_their_distance
    (centroid : Geometry -> Point) (self : Agent) (g : Geometry) :
  hasGeometry self = Some g ->
  exists t d,
    default_get_target centroid self = Ok (t, d)
    /\ match has_yaw self with
       | Some yaw =>
           d = 10
           /\ sqrt (dist2 t (centroid g)) = d
           /\ sqrt (dist2 (_get_target_roaming self (centroid g)) (centroid g))
              = 5
       | None =>
           t = centroid g /\ d = 1 / 1000
           /\ _get_target_roaming self (centroid g) = centroid g
       end.
Proof.
  intros Hg. unfold default_get_target, get_geometry, _get_target_roaming.
  rewrite Hg. cbn [bind]. cbv zeta.
  destruct (has_yaw self) as [yaw |]; do 2 eexists; (split; [reflexivity|]).
  - split; [reflexivity|].
    split; apply ahead_distance; lra.
  - repeat split; reflexivity.
Qed.

(** ** The generator's loop over the seeds *)

Lemma generate_loop_finds (accident_of : nat -> bool) (n : nat) :
  forall seed,
    (forall k, (seed <= k < seed + n)%nat -> accident_of k = true) ->
    accident_of (seed + n)%nat = false ->
    forall fuel, (n < fuel)%nat ->
      generate_loop fuel false accident_of seed = Some (seed + n)%nat.
Proof.
  induction n as [| n IH]; intros seed Hbefore Hfree fuel Hfuel;
    (destruct fuel as [| fuel]; [lia|]); cbn [generate_loop negb orb andb].
  - rewrite Nat.add_0_r in *. rewrite Hfree. reflexivity.
  - rewrite (Hbefore seed) by lia. cbn [negb].
    replace (seed + S n)%nat with (S seed + n)%nat in * by lia.
    apply IH; [|exact Hfree | lia].
    intros k Hk. apply Hbefore. lia.
Qed.

Lemma generate_loop_result (accident_of : nat -> bool) (fuel : nat) :
  forall seed s,
    generate_loop fuel false accident_of seed = Some s ->
    (seed <= s)%nat
    /\ accident_of s = false
    /\ forall k, (seed <= k < s)%nat -> accident_of k = true.
Proof.
  induction fuel as [| fuel IH]; intros seed s; cbn [generate_loop negb orb andb];
    [discriminate|].
  destruct (accident_of seed) eqn:Hacc; cbn [negb].
  - intros H. destruct (IH _ _ H) as (Hle & Hfree & Hbefore).
    split; [lia|]. split; [exact Hfree|].
    intros k Hk. destruct (Nat.eq_dec k seed) as [-> | Hne]; [exact Hacc|].
    apply Hbefore. lia.
  - intros H. injection H as <-. split; [lia|]. split; [exact Hacc|].
    intros k Hk. lia.
Qed.

(** X29.  The generator stops at the first benchmark that was saved.
    With the flag for accidents it stops at the seed given, whatever
    happened.  Without it, it stops at the least seed from the given one
    on whose simulation has no accident, provided there is one and enough
    benchmarks may be simulated: every seed before it led to an accident
    and its benchmark was not saved, the benchmark of the final seed is
    saved (a file being given); and a seed the loop returns at all has
    these properties. *)
Theorem generator_stops_at_the_first_saved_seed (accident_of : nat -> bool)
    (seed : nat) :
  (forall fuel, (0 < fuel)%nat ->
     generate_loop fuel true accident_of seed = Some seed
     /\ saves_benchmark true true (accident_of seed) = true)
  /\ (forall n,
        (forall k, (seed <= k < seed + n)%nat -> accident_of k = true) ->
        accident_of (seed + n)%nat = false ->
        forall fuel, (n < fuel)%nat ->
          generate_loop fuel false accident_of seed = Some (seed + n)%nat)
  /\ (forall fuel s,
        generate_loop fuel false accident_of seed = Some s ->
        (seed <= s)%nat
        /\ saves_benchmark true false (accident_of s) = true
        /\ forall k, (seed <= k < s)%nat ->
                     saves_benchmark true false (accident_of k) = false).
Proof.
  split; [|split].
  - intros [| fuel] Hfuel; [lia|]. split; [reflexivity|].
    unfold saves_benchmark. destruct (accident_of seed); reflexivity.
  - intros n. apply generate_loop_finds.
  - intros fuel s H.
    destruct (generate_loop_result _ _ _ _ H) as (Hle & Hfree & Hbefore).
    split; [exact Hle|]. unfold saves_benchmark. split.
    + rewrite Hfree. reflexivity.
    + intros k Hk. rewrite (Hbefore k Hk). reflexivity.
Qed.

(** * The further properties at concrete inputs *)

Lemma example_driver_capabilities :
  get_maximum_speed example_driver = 15
  /\ get_maximum_acceleration example_driver = 3
  /\ get_maximum_deceleration example_driver = -8.
Proof. repeat split; reflexivity. Qed.

Lemma example_command :
  _get_new_acceleration example_driver (Some 10) (Some 4) 4 = Ok 3.
Proof.
  destruct example_driver_capabilities as (Hs & Ha & Hd).
  unfold _get_new_acceleration, has_reached_maximum_speed, gt_opt,
    effective_distance.
  rewrite Hs, Ha, Hd.
  change (has_speed example_driver) with (Some 5).
  unfold py_min, py_max. cbn [bind].
  r_decide. reflexivity.
Qed.

(** The example tick returns: 3 m/s^2 are commanded and 5.3 m/s
    reached. *)
Lemma example_tick :
  exists self',
    example_simulate example_driver example_driver (Ok (Some 10)) (1 / 10)
    = Ok self'
    /\ has_speed self' = Some (53 / 10)
    /\ has_acceleration self' = Some 3.
Proof.
  assert (Hnew : py_max 0 (5 + 3 * (1 / 10)) = 53 / 10).
  { unfold py_max. destruct (Rlt_dec 0 (5 + 3 * (1 / 10))); lra. }
  destruct (simulate_from_target_completes_if (1 / 10) 12
              default_yaw_rate_smoothing_factor vertex_mean (fun _ _ => 4)
              (fun _ _ => 0) (fun _ _ => false) (fun _ _ => 4)
              example_driver example_driver (4, 0) 4 (Some 10) (1 / 10) 5 3
              eq_refl example_command) as [self' H].
  - intros _. left. discriminate.
  - intros _. discriminate.
  - exists self'. split; [exact H|].
    destruct (simulate_from_target_result _ _ _ _ _ _ _ _ _ _ _ _ _ _ _ H)
      as (v & ts & ac & Hv & Hts & Hac & Hs & _ & Hkeep & _).
    injection Hv as <-. injection Hts as <-.
    change (_get_new_acceleration example_driver (Some 10) (Some 4) 4 = Ok ac)
      in Hac.
    rewrite example_command in Hac. injection Hac as <-.
    rewrite Hnew in *. split; [exact Hs|].
    apply Hkeep. lra.
Qed.

Lemma tick_completes_witness :
  has_speed example_driver = Some 5
  /\ has_yaw example_driver = Some 0
  /\ (drives example_driver <> [] \/ hasGeometry example_driver <> None)
  /\ exists self',
       example_simulate example_driver example_driver (Ok (Some 10)) (1 / 10)
       = Ok self'.
Proof.
  assert (Hgeo : drives example_driver <> []
                 \/ hasGeometry example_driver <> None)
    by (left; discriminate).
  split; [reflexivity|]. split; [reflexivity|]. split; [exact Hgeo|].
  apply (tick_completes (1 / 10) 12 default_yaw_rate_smoothing_factor
           vertex_mean (fun _ _ => 4) (fun _ _ => 0) (fun _ _ => false)
           (fun _ _ => 4) example_driver example_driver (4, 0) 4 (Some 10)
           (1 / 10) 5 0);
    [reflexivity | reflexivity | exact Hgeo].
Defined.

Lemma tick_keeps_speed_and_yaw_in_range_witness :
  exists self',
    example_simulate example_driver example_driver (Ok (Some 10)) (1 / 10)
    = Ok self'
    /\ exists v',
         has_speed self' = Some v'
         /\ 0 <= v'
         /\ (v' < 1 / 10 ->
             has_acceleration self' = Some 0 /\ has_yaw_rate self' = Some 0)
         /\ (forall y, has_yaw example_driver = Some y -> 0 <= y <= 360 ->
             exists y', has_yaw self' = Some y' /\ 0 <= y' <= 360).
Proof.
  destruct example_tick as (self' & H & _).
  exists self'. split; [exact H|].
  exact (tick_keeps_speed_and_yaw_in_range (1 / 10) 12
           default_yaw_rate_smoothing_factor vertex_mean (fun _ _ => 4)
           (fun _ _ => 0) (fun _ _ => false) (fun _ _ => 4)
           example_driver example_driver (4, 0) 4 (Ok (Some 10)) (1 / 10)
           self' H).
Defined.

Lemma agent_at_rest_stays_at_rest_witness :
  let a := individual 0 90 (capabilities [15] [3] [-8]) in
  has_speed a = Some 0
  /\ (Some 0 = None \/ Some 0 = Some 0)
  /\ 0 <= 1 / 10
  /\ exists self',
       example_simulate a a (Ok (Some 0)) (1 / 10) = Ok self'
       /\ has_speed self' = Some 0
       /\ has_acceleration self' = Some 0
       /\ hasGeometry self' = hasGeometry a
       /\ has_yaw self' = match has_yaw a with
                          | Some y => Some y
                          | None => has_yaw a
                          end
       /\ (0 < 1 / 10 -> has_yaw_rate self' = Some 0).
Proof.
  cbv zeta.
  assert (Hts : Some 0 = None \/ Some 0 = Some 0) by (right; reflexivity).
  assert (Heps : 0 <= 1 / 10) by lra.
  split; [reflexivity|]. split; [exact Hts|]. split; [exact Heps|].
  apply (agent_at_rest_stays_at_rest (1 / 10) 12
           default_yaw_rate_smoothing_factor vertex_mean (fun _ _ => 4)
           (fun _ _ => 0) (fun _ _ => false) (fun _ _ => 4)
           (individual 0 90 (capabilities [15] [3] [-8]))
           (individual 0 90 (capabilities [15] [3] [-8]))
           (4, 0) 4 (Some 0) (1 / 10));
    [reflexivity | exact Hts | exact Heps].
Defined.

Lemma speed_moves_toward_target_witness :
  has_speed example_driver = Some 5
  /\ 0 <= 5 /\ 0 <= 4 /\ 0 <= 1 / 10
  /\ get_maximum_deceleration example_driver <= 0
     <= get_maximum_acceleration example_driver
  /\ exists self',
       example_simulate example_driver example_driver (Ok (Some 10)) (1 / 10)
       = Ok self'
       /\ exists v',
            has_speed self' = Some v'
            /\ (forall t, Some 10 = Some t -> 5 <= t -> 5 <= v')
            /\ (forall t, Some 10 = Some t -> t <= 5 -> v' <= 5)
            /\ (Some 10 = None -> v' <= 5).
Proof.
  assert (Hv : 0 <= 5) by lra.
  assert (Hd : 0 <= 4) by lra.
  assert (Hdt : 0 <= 1 / 10) by lra.
  assert (Hcap : get_maximum_deceleration example_driver <= 0
                 <= get_maximum_acceleration example_driver).
  { destruct example_driver_capabilities as (_ & -> & ->). lra. }
  split; [reflexivity|]. split; [exact Hv|]. split; [exact Hd|].
  split; [exact Hdt|]. split; [exact Hcap|].
  destruct example_tick as (self' & H & _).
  exists self'. split; [exact H|].
  exact (speed_moves_toward_target (1 / 10) 12
           default_yaw_rate_smoothing_factor vertex_mean (fun _ _ => 4)
           (fun _ _ => 0) (fun _ _ => false) (fun _ _ => 4)
           example_driver example_driver (4, 0) 4 (Some 10) (1 / 10) 5
           self' eq_refl Hv Hd Hdt Hcap H).
Defined.

Lemma driven_vehicles_receive_the_command_witness :
  exists self',
    example_simulate example_driver example_driver (Ok (Some 10)) (1 / 10)
    = Ok self'
    /\ exists ts ac,
         Ok (Some 10) = Ok ts
         /\ _get_new_acceleration example_driver ts (Some 4) 4 = Ok ac
         /\ Forall (fun veh => veh_has_acceleration veh = Some ac)
              (drives self')
         /\ map veh_geometry (drives self')
            = map veh_geometry (drives example_driver)
         /\ map veh_has_length (drives self')
            = map veh_has_length (drives example_driver).
Proof.
  destruct example_tick as (self' & H & _).
  exists self'. split; [exact H|].
  exact (driven_vehicles_receive_the_command (1 / 10) 12
           default_yaw_rate_smoothing_factor vertex_mean (fun _ _ => 4)
           (fun _ _ => 0) (fun _ _ => false) (fun _ _ => 4)
           example_driver example_driver (4, 0) 4 (Ok (Some 10)) (1 / 10)
           self' H).
Defined.

(** A quarter turn at 2 m/s. *)
Lemma example_position_update :
  let self := individual 2 90 (capabilities [] [] []) in
  let prev_self := individual 2 0 (capabilities [] [] []) in
  exists self', update_position (1 / 10) vertex_mean self prev_self 1 = Ok self'.
Proof.
  cbv zeta. unfold update_position.
  cbn [has_yaw has_speed hasGeometry individual].
  destruct (Rlt_dec (1 / 10) 2); [eauto | lra].
Qed.

Lemma update_position_is_rigid_witness :
  let self := individual 2 90 (capabilities [] [] []) in
  let prev_self := individual 2 0 (capabilities [] [] []) in
  hasGeometry self = Some unit_square
  /\ exists self',
       update_position (1 / 10) vertex_mean self prev_self 1 = Ok self'
       /\ exists f : Point -> Point,
            hasGeometry self' = Some (map_coords f unit_square)
            /\ forall p q, dist2 (f p) (f q) = dist2 p q.
Proof.
  cbv zeta. split; [reflexivity|].
  destruct example_position_update as [self' H]. cbv zeta in H.
  exists self'. split; [exact H|].
  exact (update_position_is_rigid (1 / 10) vertex_mean
           (individual 2 90 (capabilities [] [] []))
           (individual 2 0 (capabilities [] [] [])) self' 1 unit_square
           H eq_refl).
Defined.

Lemma update_position_straight_witness :
  let self := individual 2 90 (capabilities [] [] []) in
  has_yaw self = Some 90
  /\ has_speed self = Some 2
  /\ 1 / 10 < 2
  /\ hasGeometry self = Some unit_square
  /\ update_position (1 / 10) vertex_mean self self 1
     = Ok (set_hasGeometry self
             (Some (translate unit_square (cos (radians 90) * 2 * 1)
                                          (sin (radians 90) * 2 * 1)))).
Proof.
  cbv zeta. assert (Hmov : 1 / 10 < 2) by lra.
  split; [reflexivity|]. split; [reflexivity|]. split; [exact Hmov|].
  split; [reflexivity|].
  apply (update_position_straight (1 / 10) vertex_mean
           (individual 2 90 (capabilities [] [] []))
           (individual 2 90 (capabilities [] [] [])) 1 90 2 unit_square);
    [reflexivity | reflexivity | reflexivity | exact Hmov | reflexivity].
Defined.

Lemma default_smoothing_range (x : R) :
  0 <= default_yaw_rate_smoothing_factor x <= 1.
Proof.
  destruct default_smoothing_curve as [Hrange _].
  specialize (Hrange x). lra.
Qed.

(** The example yaw rate is that of a left turn. *)
Lemma example_yaw_rate :
  exists yr, example_new_yaw_rate (individual 5 0 turning_capabilities) = Ok yr.
Proof.
  unfold example_new_yaw_rate. apply get_new_yaw_rate_completes.
  right. discriminate.
Qed.

Lemma yaw_rate_within_maximum_witness :
  (forall x, 0 <= default_yaw_rate_smoothing_factor x <= 1)
  /\ 0 <= 1 / 10
  /\ exists yr,
       example_new_yaw_rate (individual 5 0 turning_capabilities) = Ok yr
       /\ Rabs yr
          <= Rabs (get_maximum_yaw_rate (individual 5 0 turning_capabilities)).
Proof.
  assert (Heps : 0 <= 1 / 10) by lra.
  split; [exact default_smoothing_range|]. split; [exact Heps|].
  destruct example_yaw_rate as [yr H].
  exists yr. split; [exact H|].
  exact (yaw_rate_within_maximum (1 / 10) 12 default_yaw_rate_smoothing_factor
           (fun _ _ => 4) (fun _ _ => 90) (fun _ _ => false)
           default_smoothing_range (individual 5 0 turning_capabilities)
           (0, 4) None yr Heps H).
Defined.

Lemma capability_resolution_order_witness :
  let a := individual 5 0 (capabilities [10; 15] [3] [-8]) in
  own_attr a has_maximum_speed = Some [10; 15]
  /\ ([10; 15] <> [] -> is_a a <> [] ->
      is_max_of (get_optimized_attr a has_maximum_speed py_max) [10; 15]
      /\ is_min_of (get_optimized_attr a has_maximum_speed py_min) [10; 15]).
Proof.
  cbv zeta. split; [reflexivity|].
  apply (capability_resolution_order
           (individual 5 0 (capabilities [10; 15] [3] [-8]))
           has_maximum_speed [10; 15] eq_refl).
Defined.

(** The turning driver is not yet on [lane_b]. *)
Lemma example_turning_update :
  exists r,
    Driver.update_state Driver.Driver_constants
      (junction [] (fun _ => [lane_b; lane_c])) turning_driver turning_driver
      (Some lane_a) 0%nat = Ok r.
Proof.
  unfold Driver.update_state, Driver.update_driving_mode,
    Driver.update_speed_mode, Driver.get_intersecting_object, Rltb.
  cbn -[Rlt_dec Rdiv]. r_decide. cbn. eauto.
Qed.

Lemma turning_has_next_lane_example : turning_has_next_lane turning_driver.
Proof. intros _. exists lane_b. reflexivity. Qed.

Lemma turning_driver_keeps_its_next_lane_witness :
  let world := junction [] (fun _ => [lane_b; lane_c]) in
  turning_has_next_lane turning_driver
  /\ exists self' new_self' rng',
       Driver.update_state Driver.Driver_constants world turning_driver
         turning_driver (Some lane_a) 0%nat = Ok (self', new_self', rng')
       /\ turning_has_next_lane new_self'
       /\ (Driver.driving_mode turning_driver = Driver.DrivingMode.Turning ->
           (Driver.driving_mode new_self' = Driver.DrivingMode.Turning
            /\ Driver.next_lane new_self' = Driver.next_lane turning_driver)
           \/ (Driver.driving_mode new_self' = Driver.DrivingMode.LaneFollowing
               /\ Driver.next_lane new_self' = None)).
Proof.
  cbv zeta. split; [exact turning_has_next_lane_example|].
  destruct example_turning_update as [[[self' new_self'] rng'] H].
  exists self', new_self', rng'. split; [exact H|].
  exact (turning_driver_keeps_its_next_lane nat Driver.Driver_constants
           (junction [] (fun _ => [lane_b; lane_c])) turning_driver
           turning_driver self' new_self' (Some lane_a) 0%nat rng'
           turning_has_next_lane_example H).
Defined.

Lemma junction_draws_in_range (feed : list Candidate) (succ : Lane -> list Lane) :
  forall (g n : nat), (0 < n)%nat ->
    (fst (Driver.randbelow (junction feed succ) g n) < n)%nat.
Proof.
  intros g n Hn. cbn [Driver.randbelow junction fst].
  apply Nat.mod_upper_bound. lia.
Qed.

Lemma next_lane_is_a_successor_witness :
  let world := junction [] (fun _ => [lane_c; lane_b]) in
  let self := driver_individual Driver.DrivingMode.LaneFollowing in
  Driver.next_lane_memo self = None
  /\ Driver.next_lane self = None
  /\ (forall g n, (0 < n)%nat -> (fst (Driver.randbelow world g n) < n)%nat)
  /\ exists suc self' rng',
       Driver._get_next_lane world self (Some lane_a) 0%nat
       = Ok (suc, self', rng')
       /\ (suc = None <-> Driver.has_successor_lane world lane_a = [])
       /\ (forall l, suc = Some l ->
           In l (Driver.has_successor_lane world lane_a))
       /\ Driver.next_lane_memo self' = Some suc.
Proof.
  cbv zeta. split; [reflexivity|]. split; [reflexivity|].
  split; [apply junction_draws_in_range|].
  apply (next_lane_is_a_successor nat (junction [] (fun _ => [lane_c; lane_b]))
           (driver_individual Driver.DrivingMode.LaneFollowing) lane_a 0%nat
           eq_refl eq_refl (junction_draws_in_range _ _)).
Defined.

Lemma example_driver_drives :
  drives (Driver.agent (driver_individual Driver.DrivingMode.LaneFollowing))
  <> [].
Proof. discriminate. Qed.

Lemma retained_conflict_is_the_earliest_witness :
  let world := junction [crossing_conflict] (fun _ => []) in
  let self := driver_individual Driver.DrivingMode.LaneFollowing in
  Driver.retained self = Driver.no_conflict
  /\ drives (Driver.agent self) <> []
  /\ exists self',
       Driver.get_intersecting_object Driver.Driver_constants world self
       = Ok self'
       /\ (Driver.intersecting_object (Driver.retained self') = None <->
           forall c, In c (Driver.get_intersecting_objects world) ->
                     ~ acceptable Driver.Driver_constants world
                         Driver.no_conflict c)
       /\ (forall c Tc, In c (Driver.get_intersecting_objects world) ->
           acceptable Driver.Driver_constants world Driver.no_conflict c ->
           total_time c = Some Tc ->
           exists T, retained_total_time (Driver.retained self') = Some T
                     /\ T <= Tc).
Proof.
  cbv zeta. split; [reflexivity|]. split; [exact example_driver_drives|].
  apply (retained_conflict_is_the_earliest nat Driver.Driver_constants
           (junction [crossing_conflict] (fun _ => []))
           (driver_individual Driver.DrivingMode.LaneFollowing)
           eq_refl example_driver_drives).
Defined.

Lemma retained_conflict_is_sticky_witness :
  let world := junction [] (fun _ => []) in
  Driver.intersecting_object (Driver.retained yielding_driver) = Some 7%nat
  /\ exists self' new_self',
       Driver.update_speed_mode Driver.Driver_constants world yielding_driver
         (driver_individual Driver.DrivingMode.LaneFollowing)
       = Ok (self', new_self')
       /\ Driver.retained self' = Driver.retained yielding_driver
       /\ (Driver.lead_vehicle self' = None ->
           Driver.speed_mode new_self' = Driver.SpeedMode.Yielding)
       /\ Driver.retained new_self'
          = if existsb (fun c => Nat.eqb (cand_obj c) 7%nat)
                 (Driver.get_intersecting_objects world)
            then Driver.retained yielding_driver
            else Driver.no_conflict.
Proof.
  cbv zeta. split; [reflexivity|].
  do 2 eexists. split; [reflexivity|].
  apply (retained_conflict_is_sticky nat Driver.Driver_constants
           (junction [] (fun _ => [])) yielding_driver
           (driver_individual Driver.DrivingMode.LaneFollowing) _ _ 7%nat);
    reflexivity.
Defined.

Lemma target_speed_respects_caps_witness :
  let world := junction [] (fun _ => []) in
  let self := driver_individual Driver.DrivingMode.LaneFollowing in
  let new_self := Driver.set_speed_mode self Driver.SpeedMode.Stopping in
  Driver.get_target_speed Driver.Driver_constants world self new_self
  = Ok (Some 0)
  /\ (Driver.close_to_crossing world = true ->
      0 <= Driver.crossing_speed (Driver.profile self))
  /\ (Driver.speed_mode new_self = Driver.SpeedMode.Unrestricted ->
      0 <= Driver.default_target_speed (Driver.profile self)
      /\ (Driver.driving_mode self = Driver.DrivingMode.Turning ->
          0 <= Driver.turning_speed (Driver.profile self)))
  /\ (Driver.speed_mode new_self = Driver.SpeedMode.Stopping
      \/ Driver.speed_mode new_self = Driver.SpeedMode.Yielding ->
      0 <= 0
      /\ (0 <= Driver.crossing_speed (Driver.profile self) -> 0 = 0)).
Proof.
  cbv zeta. split; [reflexivity|].
  apply (target_speed_respects_caps nat Driver.Driver_constants
           (junction [] (fun _ => []))
           (driver_individual Driver.DrivingMode.LaneFollowing)
           (Driver.set_speed_mode
              (driver_individual Driver.DrivingMode.LaneFollowing)
              Driver.SpeedMode.Stopping) 0 eq_refl).
Defined.

Lemma target_distance_is_only_shortened_witness :
  let world := junction [] (fun _ => []) in
  let self := driver_individual Driver.DrivingMode.LaneFollowing in
  let new_self := Driver.set_speed_mode self Driver.SpeedMode.Stopping in
  exists t' d self',
    Driver.target_distance Driver.Driver_constants world (fun _ _ => 5)
      self new_self (4, 0) = Ok (t', d, self')
    /\ exists self_geom,
         match drives (Driver.agent self) with
         | veh :: _ => self_geom = veh_geometry veh
         | [] => hasGeometry (Driver.agent self) = Some self_geom
         end
         /\ d <= 5
         /\ (Driver.speed_mode new_self <> Driver.SpeedMode.Following ->
             t' = (4, 0))
         /\ (Driver.speed_mode new_self = Driver.SpeedMode.Following -> d = 5).
Proof.
  cbv zeta. do 3 eexists. split; [reflexivity|].
  apply (target_distance_is_only_shortened nat Driver.Driver_constants
           (junction [] (fun _ => [])) (fun _ _ => 5)
           (driver_individual Driver.DrivingMode.LaneFollowing)
           (Driver.set_speed_mode
              (driver_individual Driver.DrivingMode.LaneFollowing)
              Driver.SpeedMode.Stopping) _ (4, 0) _ _ eq_refl).
Defined.

Lemma lead_vehicle_is_the_nearest_witness :
  let objs := [object_ahead 1 30; object_ahead 2 12] in
  drives example_driver <> []
  /\ has_speed example_driver = Some 5
  /\ exists found,
       Driver_Search.search_lead_vehicle example_driver true None objs
       = Ok found
       /\ (found = None <->
           forall x, In x objs -> ~ eligible_lead example_driver x)
       /\ (forall f, found = Some f ->
           In f objs /\ eligible_lead example_driver f
           /\ forall x, In x objs -> eligible_lead example_driver x ->
                        so_distance f <= so_distance x).
Proof.
  cbv zeta.
  assert (Hd : drives example_driver <> []) by discriminate.
  split; [exact Hd|]. split; [reflexivity|].
  apply (lead_vehicle_is_the_nearest example_driver
           [object_ahead 1 30; object_ahead 2 12] 5 Hd eq_refl).
Defined.

Lemma example_crossing_update :
  exists r,
    Pedestrian.update_state (roadside (1 / 2) []) crossing_pedestrian
      (pedestrian_individual Pedestrian.WalkingMode.UnrestrictedWalking)
      0%nat = Ok r.
Proof. eexists. reflexivity. Qed.

Lemma crossing_pedestrian_keeps_its_target_witness :
  let new_self :=
    pedestrian_individual Pedestrian.WalkingMode.UnrestrictedWalking in
  exists self' new_self' rng',
    Pedestrian.update_state (roadside (1 / 2) []) crossing_pedestrian
      new_self 0%nat = Ok (self', new_self', rng')
    /\ crossing_has_target new_self'
    /\ (forall g,
        Pedestrian.walking_mode crossing_pedestrian
        = Pedestrian.WalkingMode.CrossingRoad ->
        Pedestrian.selected_crossing_target crossing_pedestrian = Some g ->
        Pedestrian.intersects_target (roadside (1 / 2) []) g = false ->
        Pedestrian.walking_mode new_self'
        = Pedestrian.WalkingMode.CrossingRoad
        /\ Pedestrian.selected_crossing_target new_self' = Some g
        /\ rng' = 0%nat).
Proof.
  cbv zeta.
  destruct example_crossing_update as [[[self' new_self'] rng'] H].
  exists self', new_self', rng'. split; [exact H|].
  exact (crossing_pedestrian_keeps_its_target nat (roadside (1 / 2) [])
           crossing_pedestrian
           (pedestrian_individual Pedestrian.WalkingMode.UnrestrictedWalking)
           self' new_self' 0%nat rng' H).
Defined.

Lemma pedestrian_speed_mode_after_update_witness :
  let world := roadside (1 / 2) [] in
  let new_self :=
    pedestrian_individual Pedestrian.WalkingMode.UnrestrictedWalking in
  Pedestrian.speed_mode new_self = Pedestrian.SpeedMode.UnrestrictedWalking
  /\ exists self' new_self' rng',
       Pedestrian.update_state world crossing_pedestrian new_self 0%nat
       = Ok (self', new_self', rng')
       /\ exists y,
            Pedestrian._get_yielding_intersection_point world = Ok y
            /\ Pedestrian.speed_mode new_self'
               = match y, Pedestrian.walking_mode new_self' with
                 | Some _, _ => Pedestrian.SpeedMode.Yielding
                 | None, Pedestrian.WalkingMode.Stopping =>
                     Pedestrian.SpeedMode.Stopping
                 | None, _ => Pedestrian.SpeedMode.UnrestrictedWalking
                 end
            /\ Pedestrian_get_target_speed self' new_self'
               = match y, Pedestrian.walking_mode new_self' with
                 | None, Pedestrian.WalkingMode.Stopping => Some 0
                 | None, _ =>
                     Some (get_maximum_speed (Pedestrian.agent self'))
                 | Some _, _ => Some 0
                 end
            /\ Pedestrian.target_end_of_walkway new_self' = None.
Proof.
  cbv zeta. split; [reflexivity|].
  destruct example_crossing_update as [[[self' new_self'] rng'] H].
  exists self', new_self', rng'. split; [exact H|].
  exact (pedestrian_speed_mode_after_update nat (roadside (1 / 2) [])
           crossing_pedestrian
           (pedestrian_individual Pedestrian.WalkingMode.UnrestrictedWalking)
           self' new_self' 0%nat rng' eq_refl H).
Defined.

Lemma bicyclist_turns_onto_the_nearest_crossing_witness :
  let self := driver_individual Driver.DrivingMode.LaneFollowing in
  let crossings := [lane_c; lane_b] in
  let next_lane :=
    TCrossingBicyclist._get_next_lane nat lane_interior crossing_distance
      (fun _ => true) (fun _ => true) (fun _ => false) crossings [] in
  let approaches :=
    TCrossingBicyclist._approaches_end_of_lane nat lane_interior
      crossing_distance (fun _ => true) (fun _ => true) (fun _ => false)
      crossings [] in
  let close := fun x : Lane =>
    crossing_distance x
    <= TCrossingBicyclist._PEDESTRIAN_CROSSING_TURNING_THRESHOLD
    /\ true = true /\ false = false in
  Driver.next_lane self = None
  /\ (exists x, In x crossings /\ close x)
  /\ Driver._approaches_end_of_lane lane_interior lane_a = false
  /\ (exists c,
        next_lane self (Some lane_a) 0%nat = Ok (Some c, self, 0%nat)
        /\ approaches lane_a = Ok true
        /\ In c crossings /\ close c
        /\ forall x, In x crossings -> close x ->
                     crossing_distance c <= crossing_distance x)
  /\ (exists l, next_lane self (Some lane_a) 0%nat = Ok (Some l, self, 0%nat)).
Proof.
  cbv zeta.
  assert (Hclose : exists x, In x [lane_c; lane_b]
            /\ (crossing_distance x
                <= TCrossingBicyclist._PEDESTRIAN_CROSSING_TURNING_THRESHOLD
                /\ true = true /\ false = false)).
  { exists lane_b. split; [right; left; reflexivity|].
    split; [|split; reflexivity].
    unfold crossing_distance,
      TCrossingBicyclist._PEDESTRIAN_CROSSING_TURNING_THRESHOLD.
    cbn [lane_b lane_storid INR]. lra. }
  destruct (bicyclist_turns_onto_the_nearest_crossing nat
              lane_interior crossing_distance
              (fun _ => true) (fun _ => true) (fun _ => false)
              [lane_c; lane_b] []
              (driver_individual Driver.DrivingMode.LaneFollowing)
              (Some lane_a) lane_a 0%nat eq_refl) as [Hfirst Hsecond].
  destruct (Hfirst Hclose) as (c & Hnext & Happ & Hin & Hc & Hmin).
  split; [reflexivity|]. split; [exact Hclose|]. split; [reflexivity|].
  split.
  - exists c. repeat split; try assumption; apply Hc.
  - apply Hsecond; [exact Happ | reflexivity].
Defined.

Lemma bicyclist_slows_down_on_pedestrian_crossing_witness :
  let world := junction [] (fun _ => []) in
  let self := driver_individual Driver.DrivingMode.LaneFollowing in
  let new_self := Driver.set_speed_mode self Driver.SpeedMode.Stopping in
  exists s,
    TCrossingBicyclist.get_target_speed nat Driver.Bicyclist_constants world
      true self new_self = Ok (Some s)
    /\ (true = true -> s <= Driver.crossing_speed (Driver.profile self))
    /\ exists s0,
         Driver.get_target_speed Driver.Bicyclist_constants world self new_self
         = Ok (Some s0)
         /\ s <= s0.
Proof.
  cbv zeta. eexists. split; [reflexivity|].
  apply (bicyclist_slows_down_on_pedestrian_crossing nat
           Driver.Bicyclist_constants (junction [] (fun _ => [])) true
           (driver_individual Driver.DrivingMode.LaneFollowing)
           (Driver.set_speed_mode
              (driver_individual Driver.DrivingMode.LaneFollowing)
              Driver.SpeedMode.Stopping) _ eq_refl).
Defined.

Lemma targets_ahead_lie_at_their_distance_witness :
  let a := individual 5 30 (capabilities [15] [3] [-8]) in
  hasGeometry a = Some unit_square
  /\ exists t d,
       default_get_target vertex_mean a = Ok (t, d)
       /\ match has_yaw a with
          | Some yaw =>
              d = 10
              /\ sqrt (dist2 t (vertex_mean unit_square)) = d
              /\ sqrt (dist2 (_get_target_roaming a (vertex_mean unit_square))
                         (vertex_mean unit_square)) = 5
          | None =>
              t = vertex_mean unit_square /\ d = 1 / 1000
              /\ _get_target_roaming a (vertex_mean unit_square)
                 = vertex_mean unit_square
          end.
Proof.
  cbv zeta. split; [reflexivity|].
  apply (targets_ahead_lie_at_their_distance vertex_mean
           (individual 5 30 (capabilities [15] [3] [-8])) unit_square eq_refl).
Defined.
